(** * valibot-form-data: path parsing, [setPath] and the [formData] transform

    A shallow embedding of
    - [packages/valibot-form-data/src/lib/string-to-path-array.ts]
      (the three regular expressions, [parsePath], [stringToPathArray]),
    - [set-path.ts] ([setPath]),
    - the [v.transform] body of [formData] and
    - the field schemas of [form-data-schema.ts] ([text], [checkbox],
      [file], [repeatable], [repeatableOfType]), over the schemas of the
      validation library that they combine,
    together with the properties the specification states about them and
    further properties of the code.

    Conventions.
    - A JavaScript string is a [string] of 8-bit code units, so the line
      terminators that [.] refuses are LF and CR (U+2028 and U+2029 lie
      outside this alphabet).
    - The regular expressions are terms of a small syntax with the
      backtracking semantics of the language; the functions used in the
      proofs are shown to compute the same matches.
    - A number is a double.  [Number(key)] for a run of decimal digits is
      the double nearest to the integer it denotes, held as that integer
      (2^1024 standing for [Infinity]), and [String] of an index is the text
      the language gives the double: its shortest digits, as a decimal
      numeral below 10^21 and with an exponent from there on.
    - A call runs on a call stack; where a statement is about its depth, the
      room of the stack is a parameter.
    - An object is a tree of own properties together with its class, which
      stands for its prototype chain; the operator [in] and property reads
      see what the prototype provides.
    - The elements of an array are its own properties under the decimal
      text of an index below 2^32 - 1, and its length is one more than the
      greatest of these indices. *)

From Stdlib Require Import Bool Arith NArith ZArith Lia List Ascii String.
From Stdlib Require Import DecimalString DecimalPos DecimalN.
From Equations Require Import Equations.
Import ListNotations.

Local Open Scope string_scope.
Local Open Scope bool_scope.

(** ** Characters and character classes *)

Module Chars.

Definition LF : ascii := ascii_of_nat 10.
Definition CR : ascii := ascii_of_nat 13.

Definition is_line_terminator (c : ascii) : bool :=
  Ascii.eqb c LF || Ascii.eqb c CR.

(** The regular-expression atom [.] (no [s] flag): anything but a line
    terminator. *)
Definition any_char (c : ascii) : bool := negb (is_line_terminator c).

(** The negated class of the dot expression: every character but the dot and
    the two brackets, so line terminators belong to it. *)
Definition key_char (c : ascii) : bool :=
  negb (Ascii.eqb c "." || Ascii.eqb c "[" || Ascii.eqb c "]").

(** The class [\d] (no [u] flag): the ten ASCII digits. *)
Definition is_digit (c : ascii) : bool :=
  (48 <=? nat_of_ascii c)%nat && (nat_of_ascii c <=? 57)%nat.

Fixpoint all_chars (p : ascii -> bool) (s : string) : bool :=
  match s with
  | EmptyString => true
  | String c t => p c && all_chars p t
  end.

Fixpoint contains (c : ascii) (s : string) : bool :=
  match s with
  | EmptyString => false
  | String d t => Ascii.eqb d c || contains c t
  end.

End Chars.
Import Chars.

(** ** Path segments *)

Inductive segment : Type :=
| Name (key : string)
| Index (n : N).

(** ** Regular expressions

    The fragment of the language's regular expressions that the package
    uses, with the backtracking semantics of the language: alternatives are
    tried in order of priority (a greedy quantifier takes as much as it can
    first, a lazy one as little), and the first way to match the whole
    pattern gives the captures.  All three expressions of the package are
    anchored at both ends, so a match starts at the first character and
    must reach the end of the input. *)

Module Regex.

Inductive regex : Type :=
| Class (p : ascii -> bool)                   (* one character of a class *)
| Seq (r1 r2 : regex)                         (* r1 followed by r2 *)
| Optional (r : regex)                        (* r, or nothing *)
| Repeat (greedy : bool) (p : ascii -> bool)  (* zero or more of a class *)
| Group (r : regex).                          (* a capturing group *)

(** The text of the capturing groups closed so far, in order. *)
Definition captures : Type := list string.

(** What remains to be matched after a part of the pattern. *)
Definition continuation : Type := string -> captures -> option captures.

Definition or_else (first second : option captures) : option captures :=
  match first with
  | Some m => Some m
  | None => second
  end.

Fixpoint repeat_greedy (p : ascii -> bool) (k : continuation) (s : string)
    (caps : captures) : option captures :=
  match s with
  | String c t =>
      if p c then or_else (repeat_greedy p k t caps) (k s caps)
      else k s caps
  | EmptyString => k s caps
  end.

Fixpoint repeat_lazy (p : ascii -> bool) (k : continuation) (s : string)
    (caps : captures) : option captures :=
  or_else (k s caps)
    match s with
    | String c t => if p c then repeat_lazy p k t caps else None
    | EmptyString => None
    end.

(** What was read of [s] when [rest] is left. *)
Definition consumed (s rest : string) : string :=
  substring 0 (String.length s - String.length rest) s.

Fixpoint run (r : regex) (k : continuation) (s : string) (caps : captures)
  : option captures :=
  match r with
  | Class p =>
      match s with
      | String c t => if p c then k t caps else None
      | EmptyString => None
      end
  | Seq r1 r2 => run r1 (run r2 k) s caps
  | Optional r' => or_else (run r' k s caps) (k s caps)
  | Repeat true p => repeat_greedy p k s caps
  | Repeat false p => repeat_lazy p k s caps
  | Group r' =>
      run r' (fun rest caps' => k rest (caps' ++ [consumed s rest])%list)
        s caps
  end.

(** The anchor at the end: without the [m] flag, the end of the input. *)
Definition at_end : continuation :=
  fun rest caps =>
    match rest with
    | EmptyString => Some caps
    | String _ _ => None
    end.

(** [s.match(re)] for an anchored expression: the captures, or [null]. *)
Definition exec (re : regex) (s : string) : option captures :=
  run re at_end s [].

(** [re.test(s)] *)
Definition test (re : regex) (s : string) : bool :=
  match exec re s with
  | Some _ => true
  | None => false
  end.

(** A literal character, one or more of a class, zero or more of a class. *)
Definition lit (c : ascii) : regex := Class (fun d => Ascii.eqb d c).
Definition plus (greedy : bool) (p : ascii -> bool) : regex :=
  Seq (Class p) (Repeat greedy p).
Definition star (greedy : bool) (p : ascii -> bool) : regex :=
  Repeat greedy p.

End Regex.
Import Regex.

(** ** The three regular expressions *)

(** Bracket notation: an opening bracket, a group of one or more [.] taken
    lazily, a closing bracket, a group of any number of [.], the end. *)
Definition BRACKET_NOTATION_REGEX : regex :=
  Seq (lit "[")
    (Seq (Group (plus false any_char))
       (Seq (lit "]") (Group (star true any_char)))).

(** Dot notation: an optional dot, a group of one or more characters other
    than the dot and the brackets, a group of any number of [.], the end. *)
Definition DOT_NOTATION_REGEX : regex :=
  Seq (Optional (lit "."))
    (Seq (Group (plus true key_char)) (Group (star true any_char))).

(** One or more digits and nothing else. *)
Definition NUMERIC_KEY_REGEX : regex := plus true is_digit.

(** The destructuring of a match, [[, key = "", rest = ""]]: the two groups,
    each the empty string when it is missing. *)
Definition key_and_rest (m : option captures) : option (string * string) :=
  match m with
  | Some caps => Some (nth 0 caps "", nth 1 caps "")
  | None => None
  end.

(** [currentPath.match(BRACKET_NOTATION_REGEX)], destructured. *)
Definition bracketMatch (currentPath : string) : option (string * string) :=
  key_and_rest (exec BRACKET_NOTATION_REGEX currentPath).

(** [currentPath.match(DOT_NOTATION_REGEX)], destructured. *)
Definition dotMatch (currentPath : string) : option (string * string) :=
  key_and_rest (exec DOT_NOTATION_REGEX currentPath).

(** ** Numbers

    [Number(key)] is a double.  For a key of digits its value is a
    non-negative integer or [Infinity]; the integer is held as an [N], and
    [Infinity] as 2^1024, the first power of two that no double reaches.
    (Arithmetic of the language, not code of the package.) *)

Module Double.

Local Open Scope N_scope.

Definition infinity : N := 2 ^ 1024.

(** The double nearest to an integer: the integer itself below 2^53, and
    from there on the nearest multiple of a power of two with a significand
    of 53 binary digits, a tie going to the even significand; what would
    pass the largest double is [Infinity]. *)
Definition round (v : N) : N :=
  if v <? 2 ^ 53 then v
  else
    let e := N.log2 v - 52 in
    let q := v / 2 ^ e in
    let r := v mod 2 ^ e in
    let half := 2 ^ (e - 1) in
    let q' := if (half <? r) || ((r =? half) && N.odd q) then q + 1 else q in
    let w := q' * 2 ^ e in
    if infinity <=? w then infinity else w.

(** The decimal numeral of an integer, and the integer that a string of
    digits denotes. *)
Definition decimal (v : N) : string := NilEmpty.string_of_uint (N.to_uint v).

Definition of_digits (digits : string) : N :=
  match NilEmpty.uint_of_string digits with
  | Some d => N.of_uint d
  | None => 0
  end.

(** The digits that [Number::toString] writes for a double [x]: the
    integer with the fewest significant digits among those that [round]
    takes to [x], and of two with equally few the one closer to [x].  The
    candidates with all but the last [j] digits significant are the two
    multiples of [10^j] around [x]. *)
Fixpoint shortest_from (j : nat) (x : N) : N :=
  let p := 10 ^ N.of_nat j in
  let lo := x / p * p in
  let hi := lo + p in
  let ok_lo := round lo =? x in
  let ok_hi := round hi =? x in
  if ok_lo && ok_hi then (if x - lo <=? hi - x then lo else hi)
  else if ok_lo then lo
  else if ok_hi then hi
  else
    match j with
    | O => x
    | S j' => shortest_from j' x
    end.

Definition shortest (x : N) : N :=
  shortest_from (String.length (decimal x) - 1) x.

(** The digits of a numeral without the zeros at its end. *)
Fixpoint trim (s : string) : string :=
  match s with
  | EmptyString => EmptyString
  | String c t =>
      match trim t with
      | EmptyString =>
          if Ascii.eqb c "0" then EmptyString else String c EmptyString
      | t' => String c t'
      end
  end.

(** The text with an exponent: the first digit, the other significant
    digits after a point when there are any, and the power of ten. *)
Definition exponent_text (y : N) : string :=
  match decimal y with
  | EmptyString => EmptyString
  | String d rest =>
      String d
        ((match trim rest with
          | EmptyString => EmptyString
          | fraction => "." ++ fraction
          end)
         ++ "e+" ++ decimal (N.of_nat (String.length rest)))
  end.

(** [String(x)] for such a double: the digits as a decimal numeral when
    they are at most 21, and with an exponent otherwise. *)
Definition toString (x : N) : string :=
  if infinity <=? x then "Infinity"
  else
    let y := shortest x in
    if y <? 10 ^ 21 then decimal y else exponent_text y.

End Double.

(** [Number(key)] on a key made of decimal digits. *)
Definition Number (key : string) : N :=
  Double.round (Double.of_digits key).

(** [NUMERIC_KEY_REGEX.test(key) ? Number(key) : key] *)
Definition parsedKey (key : string) : segment :=
  if test NUMERIC_KEY_REGEX key then Index (Number key) else Name key.

(** *** The matches, computed directly

    What the three expressions compute, as functions on the input; they are
    shown below to agree with the backtracking semantics. *)

Module Direct.

(** The final group of both expressions applied to what is left: the
    remainder matches exactly when it holds no line terminator. *)
Definition rest_matches (rest : string) : bool := all_chars any_char rest.

(** The lazy key once its first character has been taken: it stops at the
    first closing bracket after which the remainder matches, and otherwise
    takes one more character. *)
Fixpoint lazy_key (s : string) : option (string * string) :=
  match s with
  | EmptyString => None
  | String c t =>
      if Ascii.eqb c "]" && rest_matches t then Some (EmptyString, t)
      else if any_char c then
        match lazy_key t with
        | Some (k, rest) => Some (String c k, rest)
        | None => None
        end
      else None
  end.

Definition bracket_captures (s : string) : option (string * string) :=
  match s with
  | String a (String c t) =>
      if Ascii.eqb a "[" && any_char c then
        match lazy_key t with
        | Some (k, rest) => Some (String c k, rest)
        | None => None
        end
      else None
  | _ => None
  end.

(** The greedy run of key characters and what follows it. *)
Fixpoint span_key (s : string) : string * string :=
  match s with
  | EmptyString => (EmptyString, EmptyString)
  | String c t =>
      if key_char c then
        let (k, rest) := span_key t in (String c k, rest)
      else (EmptyString, s)
  end.

(** The optional dot: one leading dot is consumed when there is one. *)
Definition skip_dot (s : string) : string :=
  match s with
  | String a t => if Ascii.eqb a "." then t else s
  | EmptyString => s
  end.

Definition dot_captures (s : string) : option (string * string) :=
  match span_key (skip_dot s) with
  | (EmptyString, _) => None
  | (key, rest) => if rest_matches rest then Some (key, rest) else None
  end.

Definition numeric_key (key : string) : bool :=
  match key with
  | EmptyString => false
  | String _ _ => all_chars is_digit key
  end.

End Direct.
Import Direct.

Section RegexFacts.

Lemma append_nil_r s : s ++ "" = s.
Proof. induction s as [|c s IH]; simpl; [|rewrite IH]; reflexivity. Qed.

Lemma append_assoc (s t u : string) : (s ++ t) ++ u = s ++ (t ++ u).
Proof. induction s as [|c s IH]; simpl; [|rewrite IH]; reflexivity. Qed.

Lemma all_chars_app p s t :
  all_chars p (s ++ t) = all_chars p s && all_chars p t.
Proof.
  induction s as [|c s IH]; simpl; [reflexivity|].
  rewrite IH, andb_assoc. reflexivity.
Qed.

Lemma append_length s t :
  String.length (s ++ t) = String.length s + String.length t.
Proof. induction s as [|c s IH]; simpl; [|rewrite IH]; reflexivity. Qed.

Lemma consumed_prefix pre rest : consumed (pre ++ rest) rest = pre.
Proof.
  unfold consumed. rewrite append_length.
  replace (String.length pre + String.length rest - String.length rest)
    with (String.length pre) by lia.
  induction pre as [|c pre IH]; simpl.
  - destruct rest; reflexivity.
  - rewrite IH. reflexivity.
Qed.

Lemma consumed_all s : consumed s "" = s.
Proof.
  rewrite <- (append_nil_r s) at 1. apply consumed_prefix.
Qed.

(** A greedy repetition before a continuation that needs the end of the
    input. *)
Lemma repeat_greedy_to_end p (k : continuation) s caps :
  (forall c t caps', k (String c t) caps' = None) ->
  repeat_greedy p k s caps = if all_chars p s then k "" caps else None.
Proof.
  intros E. induction s as [|c t IH]; simpl; [reflexivity|].
  destruct (p c); simpl; [|apply E].
  rewrite IH, E. destruct (all_chars p t); [|reflexivity].
  destruct (k "" caps); reflexivity.
Qed.

Lemma run_rest_group s caps :
  run (Group (star true any_char)) at_end s caps
  = if rest_matches s then Some (caps ++ [s])%list else None.
Proof.
  cbn [run star]. rewrite repeat_greedy_to_end by reflexivity.
  simpl. rewrite consumed_all. reflexivity.
Qed.

Lemma run_close s caps :
  run (Seq (lit "]") (Group (star true any_char))) at_end s caps
  = match s with
    | String c t =>
        if Ascii.eqb c "]" && rest_matches t
        then Some (caps ++ [t])%list else None
    | EmptyString => None
    end.
Proof.
  destruct s as [|c t]; [reflexivity|].
  change (run (Seq (lit "]") (Group (star true any_char))) at_end
            (String c t) caps)
    with (if Ascii.eqb c "]"
          then run (Group (star true any_char)) at_end t caps else None).
  rewrite run_rest_group. destruct (Ascii.eqb c "]"); reflexivity.
Qed.

Lemma repeat_lazy_key whole t :
  forall pre caps, whole = pre ++ t ->
  repeat_lazy any_char
    (fun rest caps' =>
       run (Seq (lit "]") (Group (star true any_char))) at_end rest
         (caps' ++ [consumed whole rest])%list) t caps
  = match lazy_key t with
    | Some (k, r) => Some (caps ++ [(pre ++ k)%string; r])%list
    | None => None
    end.
Proof.
  induction t as [|c t IH]; intros pre caps W.
  - reflexivity.
  - cbn [repeat_lazy lazy_key].
    rewrite run_close, W, consumed_prefix.
    rewrite <- W, (IH (pre ++ String c "") caps)
      by (rewrite W, append_assoc; reflexivity).
    destruct (Ascii.eqb c "]" && rest_matches t); cbn [or_else].
    + rewrite append_nil_r, <- app_assoc. reflexivity.
    + destruct (any_char c); [|reflexivity].
      destruct (lazy_key t) as [[k r]|]; [|reflexivity].
      rewrite append_assoc. reflexivity.
Qed.

Lemma run_seq r1 r2 k s caps :
  run (Seq r1 r2) k s caps = run r1 (run r2 k) s caps.
Proof. reflexivity. Qed.

Lemma run_class p k s caps :
  run (Class p) k s caps
  = match s with
    | String c t => if p c then k t caps else None
    | EmptyString => None
    end.
Proof. reflexivity. Qed.

Lemma run_group r k s caps :
  run (Group r) k s caps
  = run r (fun rest caps' => k rest (caps' ++ [consumed s rest])%list) s caps.
Proof. reflexivity. Qed.

Lemma run_plus greedy p k s caps :
  run (plus greedy p) k s caps
  = match s with
    | String c t =>
        if p c then
          (if greedy then repeat_greedy p k t caps else repeat_lazy p k t caps)
        else None
    | EmptyString => None
    end.
Proof. destruct s, greedy; reflexivity. Qed.

Lemma exec_bracket s :
  key_and_rest (exec BRACKET_NOTATION_REGEX s) = bracket_captures s.
Proof.
  unfold exec, BRACKET_NOTATION_REGEX. rewrite run_seq. unfold lit at 1.
  rewrite run_class. destruct s as [|a s1]; [reflexivity|].
  rewrite run_seq, run_group, run_plus.
  destruct s1 as [|c t]; cbn [bracket_captures].
  - destruct (Ascii.eqb a "["); reflexivity.
  - destruct (Ascii.eqb a "["); cbn [andb]; [|reflexivity].
    destruct (any_char c); [|reflexivity].
    rewrite (repeat_lazy_key (String c t) t (String c "") [] eq_refl).
    destruct (lazy_key t) as [[k r]|]; reflexivity.
Qed.

Lemma span_key_split s : s = fst (span_key s) ++ snd (span_key s).
Proof.
  induction s as [|c t IH]; simpl; [reflexivity|].
  destruct (key_char c); [|reflexivity].
  destruct (span_key t) as [k r]; simpl in *. rewrite <- IH. reflexivity.
Qed.

Lemma repeat_greedy_key whole t :
  forall pre caps, whole = pre ++ t ->
  repeat_greedy key_char
    (fun rest caps' =>
       run (Group (star true any_char)) at_end rest
         (caps' ++ [consumed whole rest])%list) t caps
  = if rest_matches (snd (span_key t))
    then Some (caps ++ [(pre ++ fst (span_key t))%string; snd (span_key t)])%list
    else None.
Proof.
  induction t as [|c t IH]; intros pre caps W.
  - cbn [repeat_greedy span_key fst snd]. rewrite run_rest_group, W.
    rewrite consumed_prefix, <- app_assoc, append_nil_r. reflexivity.
  - cbn [repeat_greedy span_key]. rewrite run_rest_group, W, consumed_prefix.
    destruct (key_char c).
    + rewrite <- W, (IH (pre ++ String c "") caps)
        by (rewrite W, append_assoc; reflexivity).
      pose proof (span_key_split t) as S.
      destruct (span_key t) as [k r]; cbn [fst snd] in *.
      destruct (rest_matches r) eqn:R; cbn [or_else].
      * rewrite append_assoc. reflexivity.
      * unfold rest_matches in *. simpl. rewrite S, all_chars_app, R.
        rewrite !andb_false_r. reflexivity.
    + cbn [fst snd]. rewrite append_nil_r, <- app_assoc. reflexivity.
Qed.

Lemma run_dot_key s :
  key_and_rest
    (run (Seq (Group (plus true key_char)) (Group (star true any_char)))
       at_end s [])
  = match span_key s with
    | (EmptyString, _) => None
    | (key, rest) => if rest_matches rest then Some (key, rest) else None
    end.
Proof.
  rewrite run_seq, run_group, run_plus.
  destruct s as [|c t]; cbn [span_key]; [reflexivity|].
  destruct (key_char c); [|reflexivity].
  rewrite (repeat_greedy_key (String c t) t (String c "") [] eq_refl).
  destruct (span_key t) as [k r]; cbn [fst snd].
  destruct (rest_matches r); reflexivity.
Qed.

Lemma span_key_dot t : span_key (String "." t) = ("", String "." t).
Proof. reflexivity. Qed.

Lemma run_optional r k s caps :
  run (Optional r) k s caps = or_else (run r k s caps) (k s caps).
Proof. reflexivity. Qed.

Lemma exec_dot s :
  key_and_rest (exec DOT_NOTATION_REGEX s) = dot_captures s.
Proof.
  unfold exec, DOT_NOTATION_REGEX, dot_captures.
  rewrite run_seq, run_optional. unfold lit. rewrite run_class.
  destruct s as [|a t]; [reflexivity|].
  cbn [skip_dot]. destruct (Ascii.eqb_spec a ".") as [->|].
  - pose proof (run_dot_key t) as Ht.
    pose proof (run_dot_key (String "." t)) as Hs.
    rewrite span_key_dot in Hs.
    destruct (run _ at_end t []) as [m|]; cbn [or_else].
    + exact Ht.
    + destruct (run _ at_end (String "." t) []); [discriminate Hs|exact Ht].
  - cbn [or_else]. apply run_dot_key.
Qed.

Lemma test_numeric key : test NUMERIC_KEY_REGEX key = numeric_key key.
Proof.
  unfold test, exec, NUMERIC_KEY_REGEX. rewrite run_plus.
  destruct key as [|c t]; cbn [numeric_key all_chars]; [reflexivity|].
  destruct (is_digit c); [|reflexivity].
  rewrite repeat_greedy_to_end by reflexivity.
  destruct (all_chars is_digit t); reflexivity.
Qed.

End RegexFacts.

(** The three expressions compute what the direct functions compute. *)
Lemma bracketMatch_direct s : bracketMatch s = bracket_captures s.
Proof. apply exec_bracket. Qed.

Lemma dotMatch_direct s : dotMatch s = dot_captures s.
Proof. apply exec_dot. Qed.

(** ** [parsePath] and [stringToPathArray] *)

Lemma lazy_key_shorter s key rest :
  lazy_key s = Some (key, rest) -> String.length rest < String.length s.
Proof.
  revert key rest; induction s as [|c t IH]; intros key rest; simpl.
  - discriminate.
  - destruct (Ascii.eqb c "]" && rest_matches t).
    + intros [= _ <-]. lia.
    + destruct (any_char c); [|discriminate].
      destruct (lazy_key t) as [[k r]|]; [|discriminate].
      intros [= _ <-]. specialize (IH k r eq_refl). lia.
Qed.

Lemma bracket_shorter s key rest :
  bracketMatch s = Some (key, rest) ->
  String.length rest < String.length s.
Proof.
  rewrite bracketMatch_direct.
  destruct s as [|a [|c t]]; simpl; try discriminate.
  destruct (Ascii.eqb a "[" && any_char c); [|discriminate].
  destruct (lazy_key t) as [[k r]|] eqn:E; [|discriminate].
  intros [= _ <-]. apply lazy_key_shorter in E. lia.
Qed.

Lemma span_key_length s :
  String.length (fst (span_key s)) + String.length (snd (span_key s))
  = String.length s.
Proof.
  induction s as [|c t IH]; simpl; [reflexivity|].
  destruct (key_char c); simpl; [|reflexivity].
  destruct (span_key t) as [k r]; simpl in *. lia.
Qed.

Lemma skip_dot_length s : String.length (skip_dot s) <= String.length s.
Proof.
  destruct s as [|a t]; simpl; [lia|].
  destruct (Ascii.eqb a "."); simpl; lia.
Qed.

Lemma dot_shorter s key rest :
  dotMatch s = Some (key, rest) ->
  String.length rest < String.length s.
Proof.
  rewrite dotMatch_direct. unfold dot_captures.
  pose proof (span_key_length (skip_dot s)) as L.
  pose proof (skip_dot_length s) as D.
  destruct (span_key (skip_dot s)) as [k r]; simpl in L.
  destruct k as [|c k]; [discriminate|].
  destruct (rest_matches r); [|discriminate].
  intros [= _ <-]. simpl in L. lia.
Qed.

Definition inspect {A} (a : A) : {b : A | a = b} := exist _ a eq_refl.

Equations? parsePath (currentPath : string) : option (list segment)
  by wf (String.length currentPath) lt :=
parsePath EmptyString := Some [];
parsePath currentPath with inspect (bracketMatch currentPath) => {
  | exist _ (Some (key, rest)) _ with parsePath rest => {
      | None := None;
      | Some restResult := Some (parsedKey key :: restResult) };
  | exist _ None _ with inspect (dotMatch currentPath) => {
      | exist _ (Some (key, rest)) _ with parsePath rest => {
          | None := None;
          | Some restResult := Some (parsedKey key :: restResult) };
      | exist _ None _ := None } }.
Proof.
  - match goal with
    | e : _ = Some (key, rest) |- _ =>
        pose proof (bracket_shorter (String a s) key rest e) as L
    end.
    simpl in L. lia.
  - match goal with
    | e : _ = Some (key, rest) |- _ =>
        pose proof (dot_shorter (String a s) key rest e) as L
    end.
    simpl in L. lia.
Qed.

Definition stringToPathArray (path : string) : list segment :=
  match path with
  | EmptyString => []
  | _ =>
      match parsePath path with
      | None => [Name path]
      | Some result => result
      end
  end.

(** The body of [parsePath], stated once for all proofs. *)
Definition parsePath_body (rec : string -> option (list segment))
    (currentPath : string) : option (list segment) :=
  match currentPath with
  | EmptyString => Some []
  | _ =>
      match bracketMatch currentPath with
      | Some (key, rest) =>
          match rec rest with
          | None => None
          | Some restResult => Some (parsedKey key :: restResult)
          end
      | None =>
          match dotMatch currentPath with
          | Some (key, rest) =>
              match rec rest with
              | None => None
              | Some restResult => Some (parsedKey key :: restResult)
              end
          | None => None
          end
      end
  end.


(** ** JavaScript values

    Objects are trees: no object is reachable through two properties.  An
    object is its class (which fixes the prototype chain) and its own
    properties in creation order; an array is an object whose elements are
    the own properties named by decimal indices, so that holes are simply
    absent keys. *)

Inductive jstype : Type :=
| TUndefined | TObject | TBoolean | TNumber | TString | TFunction.

Inductive objclass : Type :=
| PlainObject                  (* an object literal *)
| ArrayObject                  (* an array *)
| FileObject (handle : nat).   (* a [File] of the form source *)

#[warnings="-register-all"]
Inductive value : Type :=
| VUndefined
| VNull
| VBoolean (b : bool)
| VNumber (n : Z)
| VString (s : string)
| VObject (c : objclass) (props : list (string * value)).

Definition properties : Type := list (string * value).

Definition typeof (v : value) : jstype :=
  match v with
  | VUndefined => TUndefined
  | VNull => TObject
  | VBoolean _ => TBoolean
  | VNumber _ => TNumber
  | VString _ => TString
  | VObject _ _ => TObject
  end.

(** *** The built-in environment

    The members every object of a class has through the language itself:
    the methods of [Object.prototype], [Array.prototype], [Blob.prototype]
    and [File.prototype], the accessor [__proto__], the getters of a file
    and the [length] of an array.  (Standard library of the language, not
    code of the package.) *)

Module Builtins.

Inductive member : Type :=
| Method                 (* a writable data property holding a function *)
| Getter (ty : jstype)   (* an accessor without setter; [ty] the type it yields *)
| Length                 (* the [length] of an array *)
| Proto.                 (* the accessor [__proto__]: yields the prototype object *)

Definition Object_prototype : list string :=
  [ "constructor"; "hasOwnProperty"; "isPrototypeOf"; "propertyIsEnumerable";
    "toLocaleString"; "toString"; "valueOf";
    "__defineGetter__"; "__defineSetter__"; "__lookupGetter__";
    "__lookupSetter__" ].

Definition Array_prototype : list string :=
  [ "at"; "concat"; "copyWithin"; "entries"; "every"; "fill"; "filter";
    "find"; "findIndex"; "findLast"; "findLastIndex"; "flat"; "flatMap";
    "forEach"; "includes"; "indexOf"; "join"; "keys"; "lastIndexOf"; "map";
    "pop"; "push"; "reduce"; "reduceRight"; "reverse"; "shift"; "slice";
    "some"; "sort"; "splice"; "toReversed"; "toSorted"; "toSpliced";
    "unshift"; "values"; "with" ].

Definition Blob_prototype : list string :=
  [ "arrayBuffer"; "bytes"; "slice"; "stream"; "text" ].

Definition File_getters : list (string * jstype) :=
  [ ("size", TNumber); ("type", TString); ("name", TString);
    ("lastModified", TNumber); ("webkitRelativePath", TString) ].

Definition mem (k : string) (l : list string) : bool :=
  existsb (String.eqb k) l.

Fixpoint assoc {A} (k : string) (l : list (string * A)) : option A :=
  match l with
  | [] => None
  | (k', a) :: t => if String.eqb k' k then Some a else assoc k t
  end.

Definition lookup (c : objclass) (k : string) : option member :=
  if String.eqb k "__proto__" then Some Proto
  else if mem k Object_prototype then Some Method
  else
    match c with
    | PlainObject => None
    | ArrayObject =>
        if String.eqb k "length" then Some Length
        else if mem k Array_prototype then Some Method
        else None
    | FileObject _ =>
        match assoc k File_getters with
        | Some ty => Some (Getter ty)
        | None => if mem k Blob_prototype then Some Method else None
        end
    end.

End Builtins.

Definition own (props : properties) (k : string) : option value :=
  Builtins.assoc k props.

(** [k in object]: an own property or a member found along the prototype
    chain. *)
Definition has_property (c : objclass) (props : properties) (k : string)
  : bool :=
  match own props k with
  | Some _ => true
  | None =>
      match Builtins.lookup c k with
      | Some _ => true
      | None => false
      end
  end.

(** What [object[k]] reads. *)
Inductive read : Type :=
| Value (v : value)       (* the value of an own property *)
| Builtin (ty : jstype)   (* a built-in member, known by its [typeof] *)
| Prototype               (* the prototype object, read through [__proto__] *)
| Absent.                 (* [undefined]: no such property *)

Definition get_property (c : objclass) (props : properties) (k : string)
  : read :=
  match own props k with
  | Some v => Value v
  | None =>
      match Builtins.lookup c k with
      | Some Builtins.Method => Builtin TFunction
      | Some (Builtins.Getter ty) => Builtin ty
      | Some Builtins.Length => Builtin TNumber
      | Some Builtins.Proto => Prototype
      | None => Absent
      end
  end.

(** Writing an own data property: replaced in place when present, added
    last otherwise. *)
Fixpoint put (props : properties) (k : string) (v : value) : properties :=
  match props with
  | [] => [(k, v)]
  | (k', v') :: t =>
      if String.eqb k' k then (k, v) :: t else (k', v') :: put t k v
  end.

(** ** [setPath] *)

(** The two errors of [setPath]: "Cannot set value on empty path" and
    "Cannot navigate through path: expected object at segment ..., got ...",
    the latter with the segment and the [typeof] of what was found. *)
Inductive error : Type :=
| EmptyPath
| StructuralConflict (seg : segment) (got : jstype).

(** The result of a call on a mutable object: how the call ended and the
    own properties of the object as the call left it.  [Exotic] stands for
    the behaviours kept outside this embedding: continuing inside the
    prototype object itself, and assigning to [__proto__], to a getter or to
    the [length] of an array. *)
Inductive outcome : Type :=
| Returns (object : properties)
| Throws (e : error) (object : properties)
| Exotic.

(** [String(segment)], the property key a segment denotes. *)
Definition propertyKey (seg : segment) : string :=
  match seg with
  | Name key => key
  | Index n => Double.toString n
  end.

(** The new container: an array when [typeof nextSegment] is ["number"],
    an object otherwise. *)
Definition fresh (nextSegment : segment) : value :=
  match nextSegment with
  | Index _ => VObject ArrayObject []
  | Name _ => VObject PlainObject []
  end.

(** [currentObject[lastSegment] = value] *)
Definition assign (c : objclass) (props : properties) (k : string)
    (v : value) : outcome :=
  match own props k with
  | Some _ => Returns (put props k v)
  | None =>
      match Builtins.lookup c k with
      | None | Some Builtins.Method => Returns (put props k v)
      | Some _ => Exotic
      end
  end.

(** The loop over [leadingSegments] followed by the final assignment;
    [currentObject] is [(c, props)].  The result carries the properties of
    [currentObject] after the call: the object reached through a property is
    mutated in place, which on trees is writing it back under that
    property. *)
Fixpoint navigate (c : objclass) (props : properties)
    (leadingSegments : list segment) (lastSegment : segment) (v : value)
  : outcome :=
  match leadingSegments with
  | [] => assign c props (propertyKey lastSegment) v
  | currentSegment :: more =>
      let k := propertyKey currentSegment in
      let nextSegment :=
        match more with
        | next :: _ => next
        | [] => lastSegment
        end in
      let props1 :=
        if has_property c props k then props
        else put props k (fresh nextSegment) in
      match get_property c props1 k with
      | Value (VObject c' child) =>
          match navigate c' child more lastSegment v with
          | Returns child' => Returns (put props1 k (VObject c' child'))
          | Throws e child' => Throws e (put props1 k (VObject c' child'))
          | Exotic => Exotic
          end
      | Value nextValue =>
          Throws (StructuralConflict currentSegment (typeof nextValue)) props1
      | Builtin ty => Throws (StructuralConflict currentSegment ty) props1
      | Absent => Throws (StructuralConflict currentSegment TUndefined) props1
      | Prototype => Exotic
      end
  end.

(** [pathSegments.slice(0, -1)] and [pathSegments[pathSegments.length - 1]] *)
Fixpoint split_last (l : list segment) : option (list segment * segment) :=
  match l with
  | [] => None
  | x :: t =>
      match split_last t with
      | Some (lead, last) => Some (x :: lead, last)
      | None => Some ([], x)
      end
  end.

Definition setPathSegments (c : objclass) (object : properties)
    (pathSegments : list segment) (v : value) : outcome :=
  match split_last pathSegments with
  | None => Throws EmptyPath object
  | Some (leadingSegments, lastSegment) =>
      navigate c object leadingSegments lastSegment v
  end.

Definition setPath (c : objclass) (object : properties) (path : string)
    (v : value) : outcome :=
  setPathSegments c object (stringToPathArray path) v.

(** ** The transform of [formData] *)

(** The [Map] from key to the values seen for it, in insertion order. *)
Fixpoint map_push (map : list (string * list value)) (key : string)
    (v : value) : list (string * list value) :=
  match map with
  | [] => [(key, [v])]
  | (k, l) :: t =>
      if String.eqb k key then (k, (l ++ [v])%list) :: t
      else (k, l) :: map_push t key v
  end.

Definition group (data : list (string * value))
  : list (string * list value) :=
  fold_left (fun map entry => map_push map (fst entry) (snd entry)) data [].

(** The elements of the array holding [l], under the indices from [i] on. *)
Fixpoint elements (i : N) (l : list value) : properties :=
  match l with
  | [] => []
  | v :: t => (propertyKey (Index i), v) :: elements (N.succ i) t
  end.

Definition array_of (l : list value) : value :=
  VObject ArrayObject (elements 0 l).

(** [list.length === 1 ? list[0] : list] *)
Definition collapse (list : list value) : value :=
  match list with
  | [v] => v
  | _ => array_of list
  end.

(** The [reduce] over the entries of the map, from the empty object. *)
Fixpoint build (acc : properties) (map : list (string * list value))
  : outcome :=
  match map with
  | [] => Returns acc
  | (key, list) :: t =>
      match setPath PlainObject acc key (collapse list) with
      | Returns acc' => build acc' t
      | stopped => stopped
      end
  end.

(** The loop over [Object.keys(shape)]. *)
Fixpoint backfill (result : properties) (shapeKeys : list string) : outcome :=
  match shapeKeys with
  | [] => Returns result
  | key :: t =>
      if has_property PlainObject result key then backfill result t
      else
        match setPath PlainObject result key VUndefined with
        | Returns result' => backfill result' t
        | stopped => stopped
        end
  end.

Definition formData (shapeKeys : list string) (data : list (string * value))
  : outcome :=
  match build [] (group data) with
  | Returns result => backfill result shapeKeys
  | stopped => stopped
  end.

(** ** The field schemas of [form-data-schema.ts] *)

(** *** Schemas of the validation library

    The schemas that the package combines, as far as parsing goes: a schema
    maps an input to its output, or finds issues ([None], the error that
    [parse] throws).  (Code of the library, not of the package.) *)

(** The elements of an array.  An own property is an element when its key
    is the decimal text of an index below 2^32 - 1; the length is one more
    than the greatest index, and an index below the length without a
    property is a hole, read as [undefined]. *)
Module Arrays.

Definition is_index (k : string) : bool :=
  test NUMERIC_KEY_REGEX k
  && String.eqb (propertyKey (Index (Number k))) k
  && (Number k <? 4294967295)%N.

Fixpoint array_length (props : properties) : N :=
  match props with
  | [] => 0%N
  | (k, _) :: t =>
      if is_index k then N.max (N.succ (Number k)) (array_length t)
      else array_length t
  end.

(** [array[i]] *)
Definition element (props : properties) (i : nat) : value :=
  match own props (propertyKey (Index (N.of_nat i))) with
  | Some v => v
  | None => VUndefined
  end.

Definition array_items (props : properties) : list value :=
  map (element props) (seq 0 (N.to_nat (array_length props))).

End Arrays.
Import Arrays.

Module Valibot.

Definition schema : Type := value -> option value.

(** [v.literal(s)] *)
Definition literal (s : string) : schema :=
  fun input =>
    match input with
    | VString t => if String.eqb t s then Some input else None
    | _ => None
    end.

(** [v.undefined()] *)
Definition undefined : schema :=
  fun input =>
    match input with
    | VUndefined => Some input
    | _ => None
    end.

(** [v.string()] *)
Definition string : schema :=
  fun input =>
    match input with
    | VString _ => Some input
    | _ => None
    end.

(** [v.instance(File)] *)
Definition instance_File : schema :=
  fun input =>
    match input with
    | VObject (FileObject _) _ => Some input
    | _ => None
    end.

(** [v.unknown()] *)
Definition unknown : schema := fun input => Some input.

(** [v.transform(f)] *)
Definition transform (f : value -> value) : schema :=
  fun input => Some (f input).

(** [v.check(p)] *)
Definition check (p : value -> bool) : schema :=
  fun input => if p input then Some input else None.

(** [v.pipe(item, ...)]: each item works on the output of the one before,
    and the first issue ends the pipe. *)
Fixpoint pipe (items : list schema) : schema :=
  fun input =>
    match items with
    | [] => Some input
    | item :: rest =>
        match item input with
        | Some output => pipe rest output
        | None => None
        end
    end.

(** [v.union([option, ...])]: the output of the first option that finds no
    issue. *)
Fixpoint union (options : list schema) : schema :=
  fun input =>
    match options with
    | [] => None
    | option :: rest =>
        match option input with
        | Some output => Some output
        | None => union rest input
        end
    end.

(** An item schema on each value of a list, in order. *)
Fixpoint each (item : schema) (l : list value) : option (list value) :=
  match l with
  | [] => Some []
  | v :: t =>
      match item v with
      | Some output =>
          match each item t with
          | Some outputs => Some (output :: outputs)
          | None => None
          end
      | None => None
      end
  end.

(** [v.array(item)]: the input must be an array; the output is the array
    of what the item schema gives for each element. *)
Definition array (item : schema) : schema :=
  fun input =>
    match input with
    | VObject ArrayObject props =>
        match each item (array_items props) with
        | Some outputs => Some (array_of outputs)
        | None => None
        end
    | _ => None
    end.

End Valibot.

(** *** The schemas of the package *)

Section FieldSchemas.

(** [file.size], which the embedding of a file does not hold. *)
Variable size : nat -> N.

Definition emptyToUndefined : Valibot.schema :=
  Valibot.union
    [ Valibot.pipe [Valibot.literal ""; Valibot.transform (fun _ => VUndefined)];
      Valibot.undefined;
      Valibot.string ].

(** [schema ?? fallback] *)
Definition or_default (schema : option Valibot.schema)
    (fallback : Valibot.schema) : Valibot.schema :=
  match schema with
  | Some given => given
  | None => fallback
  end.

Definition text (schema : option Valibot.schema) : Valibot.schema :=
  Valibot.pipe [emptyToUndefined; or_default schema Valibot.string].

(** [checkbox(args)], [args.trueValue] being ["on"] when it is not given. *)
Definition checkbox (trueValue : option string) : Valibot.schema :=
  let trueValue :=
    match trueValue with
    | Some given => given
    | None => "on"
    end in
  Valibot.union
    [ Valibot.pipe
        [Valibot.literal trueValue; Valibot.transform (fun _ => VBoolean true)];
      Valibot.pipe
        [Valibot.undefined; Valibot.transform (fun _ => VBoolean false)] ].

Definition emptyFileToUndefined : Valibot.schema :=
  Valibot.union
    [ Valibot.pipe
        [ Valibot.instance_File;
          Valibot.check
            (fun file =>
               match file with
               | VObject (FileObject handle) _ => N.eqb (size handle) 0
               | _ => false
               end);
          Valibot.transform (fun _ => VUndefined) ];
      Valibot.pipe [Valibot.undefined; Valibot.transform (fun _ => VUndefined)];
      Valibot.instance_File ].

Definition file (schema : option Valibot.schema) : Valibot.schema :=
  Valibot.pipe [emptyFileToUndefined; or_default schema Valibot.instance_File].

(** The transformation of [repeatable]: an array as it is, [undefined] as
    the empty array, anything else as the array of that one value. *)
Definition to_array (v : value) : value :=
  match v with
  | VObject ArrayObject _ => v
  | VUndefined => array_of []
  | _ => array_of [v]
  end.

Definition repeatable (schema : option Valibot.schema) : Valibot.schema :=
  Valibot.pipe
    [ Valibot.unknown;
      Valibot.transform to_array;
      or_default schema (Valibot.array (text None)) ].

Definition repeatableOfType (itemSchema : Valibot.schema) : Valibot.schema :=
  repeatable (Some (Valibot.array itemSchema)).

End FieldSchemas.

(** ** Vocabulary of the statements *)

(** [parsePath] run on a call stack with room for [depth] calls of it:
    [None] when a call is made and no room is left, which an engine reports
    by throwing [RangeError].  The call on the rest of the path is made
    while the call on the path is still on the stack. *)
Fixpoint parsePath_depth (depth : nat) (currentPath : string)
  : option (option (list segment)) :=
  match depth with
  | O => None
  | S d =>
      match currentPath with
      | EmptyString => Some (Some [])
      | _ =>
          match bracketMatch currentPath with
          | Some (key, rest) =>
              match parsePath_depth d rest with
              | None => None
              | Some None => Some None
              | Some (Some restResult) =>
                  Some (Some (parsedKey key :: restResult))
              end
          | None =>
              match dotMatch currentPath with
              | Some (key, rest) =>
                  match parsePath_depth d rest with
                  | None => None
                  | Some None => Some None
                  | Some (Some restResult) =>
                      Some (Some (parsedKey key :: restResult))
                  end
              | None => Some None
              end
          end
      end
  end.

(** [stringToPathArray] on such a stack: the error of [parsePath] is not
    caught. *)
Definition stringToPathArray_depth (depth : nat) (path : string)
  : option (list segment) :=
  match path with
  | EmptyString => Some []
  | _ =>
      match parsePath_depth depth path with
      | None => None
      | Some None => Some [Name path]
      | Some (Some result) => Some result
      end
  end.

(** A path of [n + 1] segments: [a], [a.a], [a.a.a], ... *)
Fixpoint nested (n : nat) : string :=
  match n with
  | O => "a"
  | S k => "a." ++ nested k
  end.

Module Syntax.

Fixpoint starts_with (p s : string) : bool :=
  match p, s with
  | EmptyString, _ => true
  | String a p', String b s' => Ascii.eqb b a && starts_with p' s'
  | String _ _, EmptyString => false
  end.

Fixpoint has_substring (p s : string) : bool :=
  starts_with p s ||
  match s with
  | EmptyString => false
  | String _ t => has_substring p t
  end.

(** Bracket balance: [d] brackets are open before [s]. *)
Fixpoint closes (d : nat) (s : string) : bool :=
  match s with
  | EmptyString => Nat.eqb d 0
  | String c t =>
      if Ascii.eqb c "[" then closes (S d) t
      else if Ascii.eqb c "]" then
        match d with
        | O => false
        | S d' => closes d' t
        end
      else closes d t
  end.

Definition balanced (s : string) : bool := closes 0 s.

(** The strings of the specification's fallback sentence. *)
Definition suspicious (s : string) : bool :=
  has_substring "[[" s || has_substring "]]" s || has_substring "[]" s
  || negb (balanced s).

(** An opening bracket with no closing bracket anywhere after it. *)
Fixpoint unclosed (s : string) : bool :=
  match s with
  | EmptyString => false
  | String c t => Ascii.eqb c "[" && negb (contains "]" t) || unclosed t
  end.

(** A closing bracket with no opening bracket anywhere before it. *)
Fixpoint unopened (s : string) : bool :=
  match s with
  | EmptyString => false
  | String c t =>
      if Ascii.eqb c "]" then true
      else if Ascii.eqb c "[" then false
      else unopened t
  end.

(** An empty pair of brackets made of the first opening bracket of the
    string and its last closing bracket. *)
Fixpoint empty_pair (s : string) : bool :=
  match s with
  | EmptyString => false
  | String c t =>
      if Ascii.eqb c "[" then
        match t with
        | String d t' => Ascii.eqb d "]" && negb (contains "]" t')
        | EmptyString => false
        end
      else if Ascii.eqb c "]" then false
      else empty_pair t
  end.

(** Two closing brackets in a row, the first of which does not directly
    follow an opening bracket. *)
Fixpoint stray_close (s : string) : bool :=
  match s with
  | EmptyString => false
  | String x t => negb (Ascii.eqb x "[") && starts_with "]]" t || stray_close t
  end.

Definition broken_brackets (s : string) : bool :=
  unclosed s || unopened s || empty_pair s || stray_close s.

(** No bracket, no line terminator, and every dot is followed by a
    character that is not a dot. *)
Fixpoint well_dotted (s : string) : bool :=
  match s with
  | EmptyString => true
  | String c t =>
      negb (Ascii.eqb c "[") && negb (Ascii.eqb c "]") && any_char c
      && (if Ascii.eqb c "." then
            match t with
            | String d _ => negb (Ascii.eqb d ".")
            | EmptyString => false
            end
          else true)
      && well_dotted t
  end.

(** A key of dot notation that is a name: a non-empty run of key characters
    that is not a number. *)
Definition name_key (a : string) : bool :=
  negb (String.eqb a "") && all_chars key_char a && negb (test NUMERIC_KEY_REGEX a).

(** The string does not go on with a key character. *)
Definition key_stops (rest : string) : bool :=
  match rest with
  | EmptyString => true
  | String c _ => negb (key_char c)
  end.

(** What the lazy key of the bracket expression can capture. *)
Definition bracket_key (key : string) : bool :=
  match key with
  | EmptyString => false
  | String c w =>
      any_char c && all_chars any_char w && negb (contains "]" w)
  end.

(** The segments a successful parse can hold, at the head of a path
    ([first]) or further on. *)
Definition parsed_segment (first : bool) (seg : segment) : bool :=
  match seg with
  | Index _ => true
  | Name key =>
      negb (test NUMERIC_KEY_REGEX key)
      && (if all_chars key_char key then
            negb (String.eqb key "") && (first || all_chars any_char key)
          else bracket_key key)
  end.

Fixpoint parsed_from (first : bool) (segs : list segment) : bool :=
  match segs with
  | [] => true
  | seg :: t => parsed_segment first seg && parsed_from false t
  end.



(** Why a path falls back. *)
Inductive defect : Type :=
| StrayClose        (* a closing bracket where a segment should start *)
| UnclosedBracket   (* an opening bracket not followed by a key of at least
                       one character and a closing bracket *)
| DotWithoutKey     (* a dot that no key character follows *)
| LineTerminator.   (* a line terminator after the key at the start *)

(** Where a reader of the path is: between segments (at the start, in a
    key of dot notation or after a segment), just after a dot, just after
    an opening bracket, or inside brackets after the first character. *)
Inductive position : Type :=
| Between
| AfterDot
| AfterOpen
| InBrackets.

(** Reading a path character by character.  The first character after an
    opening bracket belongs to the key whatever it is, and the key then
    runs to the next closing bracket. *)
Fixpoint scan (pos : position) (s : string) : option defect :=
  match s with
  | EmptyString =>
      match pos with
      | Between => None
      | AfterDot => Some DotWithoutKey
      | AfterOpen | InBrackets => Some UnclosedBracket
      end
  | String c t =>
      match pos with
      | Between =>
          if Ascii.eqb c "]" then Some StrayClose
          else if Ascii.eqb c "[" then scan AfterOpen t
          else if Ascii.eqb c "." then scan AfterDot t
          else scan Between t
      | AfterDot =>
          if key_char c then scan Between t else Some DotWithoutKey
      | AfterOpen => scan InBrackets t
      | InBrackets =>
          if Ascii.eqb c "]" then scan Between t else scan InBrackets t
      end
  end.

(** What follows the key of dot notation at the very start of a path (the
    whole path when it starts with no such key). *)
Definition after_first_key (path : string) : string :=
  snd (span_key (skip_dot path)).

(** The defect of a path, if it has one. *)
Definition fallback_cause (path : string) : option defect :=
  match scan Between path with
  | Some d => Some d
  | None =>
      if all_chars any_char (after_first_key path) then None
      else Some LineTerminator
  end.

End Syntax.
Import Syntax.

Module Objects.

(** A mapping or a sequence of the specification: an object literal or an
    array. *)
Definition is_container (v : value) : bool :=
  match v with
  | VObject PlainObject _ | VObject ArrayObject _ => true
  | _ => false
  end.

(** A value the guard of [setPath] refuses: [typeof] is not ["object"], or
    the value is [null]. *)
Definition primitive (v : value) : bool :=
  match v with
  | VObject _ _ => false
  | _ => true
  end.

(** Following own properties that hold objects, one per segment. *)
Fixpoint walk (c : objclass) (props : properties) (segs : list segment)
  : option (objclass * properties) :=
  match segs with
  | [] => Some (c, props)
  | seg :: t =>
      match own props (propertyKey seg) with
      | Some (VObject c' child) => walk c' child t
      | _ => None
      end
  end.

(** The class of the container made for a missing key. *)
Definition container_class (nextSegment : segment) : objclass :=
  match nextSegment with
  | Index _ => ArrayObject
  | Name _ => PlainObject
  end.

(** A call on the object under a property, seen from the parent. *)
Definition under (props : properties) (k : string) (c : objclass)
    (o : outcome) : outcome :=
  match o with
  | Returns child => Returns (props ++ [(k, VObject c child)])%list
  | Throws e child => Throws e (props ++ [(k, VObject c child)])%list
  | Exotic => Exotic
  end.

End Objects.
Import Objects.

Module Entries.

(** A key that names a property of the accumulator itself: a name of dot
    notation that no object has through its prototype. *)
Definition top_level_name (k : string) : bool :=
  name_key k && negb (has_property PlainObject [] k).

(** The values of the entries with key [k], in arrival order. *)
Definition values_of (k : string) (data : list (string * value))
  : list value :=
  map snd (filter (fun entry => String.eqb (fst entry) k) data).

(** The keys in the order of their first occurrence. *)
Fixpoint first_seen (keys : list string) : list string :=
  match keys with
  | [] => []
  | k :: t => k :: filter (fun k' => negb (String.eqb k' k)) (first_seen t)
  end.

Fixpoint distinct (keys : list string) : bool :=
  match keys with
  | [] => true
  | k :: t => negb (Builtins.mem k t) && distinct t
  end.

(** Each group under its key, collapsed. *)
Definition collapsed (data : list (string * value)) : properties :=
  map (fun entry => (fst entry, collapse (snd entry))) (group data).

(** The declared keys that an accumulator does not hold, each with
    [undefined]. *)
Definition absent (acc : properties) (shapeKeys : list string) : properties :=
  map (fun k => (k, VUndefined))
    (filter (fun k => negb (Builtins.mem k (map fst acc))) shapeKeys).

(** The declared keys that no entry has, each with [undefined]. *)
Definition missing (shapeKeys : list string) (data : list (string * value))
  : properties :=
  map (fun k => (k, VUndefined))
    (filter (fun k => negb (Builtins.mem k (map fst data))) shapeKeys).

(** Recording a key the first time it is seen. *)
Definition add_key (acc : list string) (k : string) : list string :=
  if Builtins.mem k acc then acc else (acc ++ [k])%list.

(** The values a map holds for a key. *)
Definition held (k : string) (m : list (string * list value)) : list value :=
  match Builtins.assoc k m with
  | Some l => l
  | None => []
  end.

(** The accumulator after the entries of a map were written as top-level
    properties. *)
Definition written (acc : properties) (m : list (string * list value))
  : properties :=
  fold_left (fun a entry => put a (fst entry) (collapse (snd entry))) m acc.

End Entries.
Import Entries.





(** Reading an object along a path, and the steps of [setPath]. *)
Module Reading.

(** The value found along a sequence of segments: own properties holding
    objects down to the last segment, then the own property it names. *)
Definition read_path (c : objclass) (props : properties)
    (segs : list segment) : option value :=
  match split_last segs with
  | None => None
  | Some (leadingSegments, lastSegment) =>
      match walk c props leadingSegments with
      | Some (_, cur) => own cur (propertyKey lastSegment)
      | None => None
      end
  end.

(** The object as a call left it, when the call is within the embedding. *)
Definition object_after (o : outcome) : option properties :=
  match o with
  | Returns object => Some object
  | Throws _ object => Some object
  | Exotic => None
  end.

(** The current object after the creation step of one turn of the loop. *)
Definition prepared (c : objclass) (props : properties) (seg : segment)
    (more : list segment) (last : segment) : properties :=
  if has_property c props (propertyKey seg) then props
  else put props (propertyKey seg) (fresh (hd last more)).

(** A key that an object of class [c] answers through an accessor of the
    language and not through a data property: [__proto__] on every object,
    the [length] of an array, the getters of a file. *)
Definition accessor (c : objclass) (k : string) : bool :=
  match Builtins.lookup c k with
  | Some (Builtins.Getter _) | Some Builtins.Length | Some Builtins.Proto =>
      true
  | Some Builtins.Method | None => false
  end.

(** Following the segments from an object, through the objects its
    properties hold and, where a key is missing, through the empty container
    that [setPath] would make, one arrives at an accessor: the prototype is
    entered through [__proto__], or the last segment names an accessor of
    the object it is to be written to.  These are the calls that the
    embedding keeps apart as [Exotic]. *)
Fixpoint arrives_at_accessor (c : objclass) (props : properties)
    (segs : list segment) : bool :=
  match segs with
  | [] => false
  | seg :: more =>
      let k := propertyKey seg in
      match more with
      | [] =>
          match own props k with
          | Some _ => false
          | None => accessor c k
          end
      | next :: _ =>
          match own props k with
          | Some (VObject c' child) => arrives_at_accessor c' child more
          | Some _ => false
          | None =>
              match Builtins.lookup c k with
              | Some Builtins.Proto => true
              | Some _ => false
              | None => arrives_at_accessor (container_class next) [] more
              end
          end
      end
  end.

End Reading.
Import Reading.

(** The values that the entries of a [FormData] hold: strings and files. *)
Definition entry_value (v : value) : bool :=
  match v with
  | VString _ | VObject (FileObject _) _ => true
  | _ => false
  end.

(** A string that is not empty. *)
Definition filled (v : value) : bool :=
  match v with
  | VString s => negb (String.eqb s "")
  | _ => false
  end.

(** * Properties of the parser *)

Section ParserFacts.

Lemma parsePath_eq s : parsePath s = parsePath_body parsePath s.
Proof.
  funelim (parsePath s); unfold parsePath_body; try reflexivity.
  all: repeat match goal with
       | e : bracketMatch _ = _ |- _ => rewrite e; clear e
       | e : dotMatch _ = _ |- _ => rewrite e; clear e
       | e : parsePath _ = Some _ |- _ => rewrite e; clear e
       | e : parsePath _ = None |- _ => rewrite e; clear e
       | H : _ |- _ => clear H
       end; reflexivity.
Qed.

Lemma lazy_key_any s key rest :
  lazy_key s = Some (key, rest) -> all_chars any_char s = true.
Proof.
  revert key rest; induction s as [|c t IH]; intros key rest; simpl.
  - discriminate.
  - destruct (Ascii.eqb_spec c "]") as [->|]; simpl.
    + destruct (rest_matches t) eqn:R; [intros _; exact R|].
      destruct (lazy_key t) as [[k r]|] eqn:E; [|discriminate].
      intros _. exact (IH _ _ eq_refl).
    + destruct (any_char c); [|discriminate].
      destruct (lazy_key t) as [[k r]|] eqn:E; [|discriminate].
      intros _. exact (IH _ _ eq_refl).
Qed.

(** What a successful lazy match looks like. *)
Lemma lazy_key_inv s key rest :
  lazy_key s = Some (key, rest) ->
  s = key ++ String "]" rest /\ contains "]" key = false
  /\ all_chars any_char key = true /\ rest_matches rest = true.
Proof.
  revert key rest; induction s as [|c t IH]; intros key rest; simpl.
  - discriminate.
  - destruct (Ascii.eqb_spec c "]") as [->|Hc]; simpl.
    + destruct (rest_matches t) eqn:R.
      * intros [= <- <-]. auto.
      * destruct (lazy_key t) as [[k r]|] eqn:E; [|discriminate].
        apply lazy_key_any in E. unfold rest_matches in R. congruence.
    + destruct (any_char c) eqn:A; [|discriminate].
      destruct (lazy_key t) as [[k r]|] eqn:E; [|discriminate].
      intros [= <- <-]. destruct (IH _ _ eq_refl) as (-> & C & K & R).
      simpl. rewrite A, C, K.
      destruct (Ascii.eqb_spec c "]"); [contradiction|]. auto.
Qed.

(** And how to build one. *)
Lemma lazy_key_intro key rest :
  contains "]" key = false -> all_chars any_char key = true ->
  rest_matches rest = true ->
  lazy_key (key ++ String "]" rest) = Some (key, rest).
Proof.
  intros C K R. induction key as [|c k IH]; simpl in *.
  - rewrite R. reflexivity.
  - apply orb_false_iff in C as [C1 C2]. apply andb_prop in K as [K1 K2].
    rewrite C1, K1, (IH C2 K2). reflexivity.
Qed.

Lemma bracket_inv s key rest :
  bracketMatch s = Some (key, rest) ->
  exists c w, key = String c w /\ s = String "[" (String c (w ++ String "]" rest))
    /\ any_char c = true /\ all_chars any_char w = true
    /\ contains "]" w = false /\ rest_matches rest = true.
Proof.
  rewrite bracketMatch_direct.
  destruct s as [|a [|c t]]; simpl; try discriminate.
  destruct (Ascii.eqb_spec a "[") as [->|]; simpl; [|discriminate].
  destruct (any_char c) eqn:A; [|discriminate].
  destruct (lazy_key t) as [[k r]|] eqn:E; [|discriminate].
  intros [= <- <-]. apply lazy_key_inv in E as (-> & C & K & R).
  exists c, k. repeat split; auto.
Qed.

Lemma bracket_intro c w rest :
  any_char c = true -> all_chars any_char w = true ->
  contains "]" w = false -> rest_matches rest = true ->
  bracketMatch (String "[" (String c (w ++ String "]" rest)))
  = Some (String c w, rest).
Proof.
  intros A K C R. rewrite bracketMatch_direct. simpl.
  rewrite A, (lazy_key_intro w rest C K R). reflexivity.
Qed.

Lemma bracket_none_head a t :
  Ascii.eqb a "[" = false -> bracketMatch (String a t) = None.
Proof.
  intros H. rewrite bracketMatch_direct.
  destruct t; simpl; [reflexivity|]. rewrite H. reflexivity.
Qed.

Lemma span_key_inv s :
  s = fst (span_key s) ++ snd (span_key s)
  /\ all_chars key_char (fst (span_key s)) = true
  /\ key_stops (snd (span_key s)) = true.
Proof.
  induction s as [|c t IH]; simpl; [auto|].
  destruct (key_char c) eqn:K; simpl.
  - destruct (span_key t) as [k r]; simpl in *.
    destruct IH as (E & A & S). rewrite K, A, <- E. auto.
  - rewrite K. auto.
Qed.

Lemma span_key_intro key rest :
  all_chars key_char key = true -> key_stops rest = true ->
  span_key (key ++ rest) = (key, rest).
Proof.
  intros A S. induction key as [|c k IH]; simpl in *.
  - destruct rest as [|d r]; simpl in *; [reflexivity|].
    apply negb_true_iff in S. rewrite S. reflexivity.
  - apply andb_prop in A as [A1 A2]. rewrite A1, (IH A2). reflexivity.
Qed.

Lemma dot_inv s key rest :
  dotMatch s = Some (key, rest) ->
  skip_dot s = key ++ rest /\ key <> "" /\ all_chars key_char key = true
  /\ key_stops rest = true /\ rest_matches rest = true.
Proof.
  rewrite dotMatch_direct. unfold dot_captures.
  destruct (span_key_inv (skip_dot s)) as (E & A & S).
  destruct (span_key (skip_dot s)) as [k r]; simpl in *.
  destruct k as [|c k]; [discriminate|].
  destruct (rest_matches r) eqn:R; [|discriminate].
  intros [= <- <-]. repeat split; auto. discriminate.
Qed.

Lemma dot_intro s key rest :
  skip_dot s = key ++ rest -> key <> "" -> all_chars key_char key = true ->
  key_stops rest = true -> rest_matches rest = true ->
  dotMatch s = Some (key, rest).
Proof.
  intros E N A S R. rewrite dotMatch_direct. unfold dot_captures.
  rewrite E, (span_key_intro key rest A S), R.
  destruct key; [contradiction|reflexivity].
Qed.

(** Strong induction along the recursion of [parsePath]. *)
Lemma parse_ind (P : string -> Prop) :
  (forall s, (forall r, String.length r < String.length s -> P r) -> P s) ->
  forall s, P s.
Proof.
  intros step s.
  induction s as [s IH] using (induction_ltof1 _ String.length).
  apply step. exact IH.
Qed.

(** A property of strings that no match loses makes [parsePath] fail. *)
Lemma parsePath_fails (P : string -> bool) :
  P "" = false ->
  (forall s key rest, P s = true ->
     bracketMatch s = Some (key, rest) -> P rest = true) ->
  (forall s key rest, P s = true -> bracketMatch s = None ->
     dotMatch s = Some (key, rest) -> P rest = true) ->
  forall s, P s = true -> parsePath s = None.
Proof.
  intros P0 PB PD s. induction s as [s IH] using parse_ind. intros Ps.
  rewrite parsePath_eq. unfold parsePath_body.
  destruct s as [|a t]; [congruence|].
  destruct (bracketMatch (String a t)) as [[k r]|] eqn:B.
  - rewrite (IH r (bracket_shorter _ _ _ B) (PB _ _ _ Ps B)). reflexivity.
  - destruct (dotMatch (String a t)) as [[k r]|] eqn:D;
      [|reflexivity].
    rewrite (IH r (dot_shorter _ _ _ D) (PD _ _ _ Ps B D)). reflexivity.
Qed.

Lemma parsePath_depth_enough s :
  forall depth, String.length s < depth ->
  parsePath_depth depth s = Some (parsePath s).
Proof.
  induction s as [s IH] using parse_ind. intros depth L.
  destruct depth as [|d]; [lia|].
  rewrite parsePath_eq. unfold parsePath_body. simpl.
  destruct s as [|a t]; [reflexivity|].
  destruct (bracketMatch (String a t)) as [[k r]|] eqn:B.
  - pose proof (bracket_shorter _ _ _ B) as Lr.
    rewrite (IH r Lr d) by lia. destruct (parsePath r); reflexivity.
  - destruct (dotMatch (String a t)) as [[k r]|] eqn:D;
      [|reflexivity].
    pose proof (dot_shorter _ _ _ D) as Lr.
    rewrite (IH r Lr d) by lia. destruct (parsePath r); reflexivity.
Qed.

End ParserFacts.

(** ** Malformed brackets and the fallback *)

Section Fallback.

Lemma contains_app c s t : contains c (s ++ t) = contains c s || contains c t.
Proof.
  induction s as [|d s IH]; simpl; [reflexivity|].
  rewrite IH, orb_assoc. reflexivity.
Qed.

Lemma key_char_not_open c : key_char c = true -> Ascii.eqb c "[" = false.
Proof.
  unfold key_char. intros H. apply negb_true_iff in H.
  apply orb_false_iff in H as [H _]. apply orb_false_iff in H as [_ H].
  exact H.
Qed.

Lemma key_char_not_close c : key_char c = true -> Ascii.eqb c "]" = false.
Proof.
  unfold key_char. intros H. apply negb_true_iff in H.
  apply orb_false_iff in H as [_ H]. exact H.
Qed.

Lemma key_char_not_dot c : key_char c = true -> Ascii.eqb c "." = false.
Proof.
  unfold key_char. intros H. apply negb_true_iff in H.
  apply orb_false_iff in H as [H _]. apply orb_false_iff in H as [H _].
  exact H.
Qed.

Lemma prefix_close_unopened r : starts_with "]" r = true -> unopened r = true.
Proof.
  destruct r as [|c r]; simpl; [discriminate|].
  destruct (Ascii.eqb c "]"); [reflexivity|discriminate].
Qed.

Lemma prefix_close2_unopened r :
  starts_with "]]" r = true -> unopened r = true.
Proof.
  destruct r as [|c r]; simpl; [discriminate|].
  destruct (Ascii.eqb c "]"); [reflexivity|discriminate].
Qed.

Lemma prefix_close2_head d t :
  starts_with "]]" (String d t) = true -> Ascii.eqb d "]" = true.
Proof.
  simpl. destruct (Ascii.eqb d "]"); [reflexivity|discriminate].
Qed.

(** A skipped dot is not a bracket. *)
Lemma skip_dot_cases s :
  skip_dot s = s \/ s = String "." (skip_dot s).
Proof.
  destruct s as [|a t]; simpl; [auto|].
  destruct (Ascii.eqb_spec a ".") as [->|]; auto.
Qed.

Lemma unclosed_closed k r : unclosed (k ++ String "]" r) = unclosed r.
Proof.
  induction k as [|c k IH]; simpl.
  - reflexivity.
  - rewrite IH, contains_app. simpl. rewrite orb_true_r, andb_false_r.
    reflexivity.
Qed.

Lemma unclosed_key k r :
  all_chars key_char k = true -> unclosed (k ++ r) = unclosed r.
Proof.
  induction k as [|c k IH]; simpl; [reflexivity|].
  intros H. apply andb_prop in H as [H1 H2].
  rewrite (key_char_not_open _ H1), (IH H2). reflexivity.
Qed.

Lemma unopened_key k r :
  all_chars key_char k = true -> unopened (k ++ r) = unopened r.
Proof.
  induction k as [|c k IH]; simpl; [reflexivity|].
  intros H. apply andb_prop in H as [H1 H2].
  rewrite (key_char_not_open _ H1), (key_char_not_close _ H1), (IH H2).
  reflexivity.
Qed.

Lemma empty_pair_key k r :
  all_chars key_char k = true -> empty_pair (k ++ r) = empty_pair r.
Proof.
  induction k as [|c k IH]; simpl; [reflexivity|].
  intros H. apply andb_prop in H as [H1 H2].
  rewrite (key_char_not_open _ H1), (key_char_not_close _ H1), (IH H2).
  reflexivity.
Qed.

Lemma stray_close_key k r :
  all_chars key_char k = true -> stray_close (k ++ r) = true ->
  unopened r || stray_close r = true.
Proof.
  induction k as [|c k IH]; simpl.
  - intros _ ->. apply orb_true_r.
  - intros H. apply andb_prop in H as [H1 H2].
    intros S. apply orb_prop in S as [S|S]; [|exact (IH H2 S)].
    apply andb_prop in S as [_ S].
    destruct k as [|d k]; simpl in *.
    + rewrite (prefix_close2_unopened _ S). reflexivity.
    + apply andb_prop in H2 as [H2 _].
      apply prefix_close2_head in S.
      rewrite (key_char_not_close _ H2) in S. discriminate.
Qed.

Lemma stray_close_closed c w r :
  contains "]" w = false ->
  stray_close (String c (w ++ String "]" r)) = true ->
  unopened r || stray_close r = true.
Proof.
  revert c. induction w as [|d w IH]; intros c C S.
  - simpl in S. apply orb_prop in S as [S|S].
    + apply andb_prop in S as [_ S].
      rewrite (prefix_close_unopened _ S). reflexivity.
    + apply orb_prop in S as [S|S].
      * rewrite (prefix_close2_unopened _ S). reflexivity.
      * rewrite S. apply orb_true_r.
  - simpl in C. apply orb_false_iff in C as [C1 C2].
    change (stray_close (String c (String d (w ++ String "]" r))) = true) in S.
    simpl in S. apply orb_prop in S as [S|S].
    + apply andb_prop in S as [_ S]. apply prefix_close2_head in S.
      congruence.
    + apply (IH d C2). exact S.
Qed.

Lemma broken_cases s :
  broken_brackets s = true <->
  unclosed s = true \/ unopened s = true \/ empty_pair s = true
  \/ stray_close s = true.
Proof.
  unfold broken_brackets.
  destruct (unclosed s), (unopened s), (empty_pair s), (stray_close s);
    simpl; intuition discriminate.
Qed.

Lemma broken_bracket_step s key rest :
  broken_brackets s = true ->
  bracketMatch s = Some (key, rest) -> broken_brackets rest = true.
Proof.
  intros P B. apply bracket_inv in B as (c & w & -> & -> & A & K & C & R).
  apply broken_cases. apply broken_cases in P as [P|[P|[P|P]]].
  - change (unclosed (String "[" (String c w) ++ String "]" rest) = true) in P.
    rewrite unclosed_closed in P. auto.
  - discriminate.
  - simpl in P. rewrite contains_app in P. simpl in P.
    rewrite orb_true_r, andb_false_r in P. discriminate.
  - simpl in P.
    change (stray_close (String c (w ++ String "]" rest)) = true) in P.
    apply stray_close_closed in P; [|exact C].
    apply orb_prop in P as [P|P]; auto.
Qed.

Lemma broken_dot_step s key rest :
  broken_brackets s = true ->
  dotMatch s = Some (key, rest) -> broken_brackets rest = true.
Proof.
  intros P D. apply dot_inv in D as (E & N & A & S & R).
  assert (Q : broken_brackets (skip_dot s) = true).
  { destruct (skip_dot_cases s) as [->|Es]; [exact P|].
    rewrite Es in P. apply broken_cases.
    apply broken_cases in P as [P|[P|[P|P]]]; simpl in P; auto.
    apply orb_prop in P as [P|P]; auto.
    right. left. apply prefix_close2_unopened. exact P. }
  rewrite E in Q. apply broken_cases.
  apply broken_cases in Q as [Q|[Q|[Q|Q]]].
  - rewrite (unclosed_key _ _ A) in Q. auto.
  - rewrite (unopened_key _ _ A) in Q. auto.
  - rewrite (empty_pair_key _ _ A) in Q. auto.
  - apply (stray_close_key _ _ A) in Q. apply orb_prop in Q as [Q|Q]; auto.
Qed.

Lemma broken_brackets_fail s :
  broken_brackets s = true -> parsePath s = None.
Proof.
  apply (parsePath_fails broken_brackets).
  - reflexivity.
  - exact broken_bracket_step.
  - intros s0 key rest P _. exact (broken_dot_step s0 key rest P).
Qed.

End Fallback.

(** C1 (as amended).  A path falls back to itself as one name whenever it
    holds an opening bracket with no closing bracket after it, a closing
    bracket with no opening bracket before it, an empty pair of brackets
    made of its first opening and its last closing bracket, or two closing
    brackets of which the first does not directly follow an opening one. *)
Theorem fallback_on_broken_brackets (path : string) :
  broken_brackets path = true -> stringToPathArray path = [Name path].
Proof.
  intros P. unfold stringToPathArray.
  rewrite (broken_brackets_fail _ P).
  destruct path; [discriminate|reflexivity].
Qed.

Lemma fallback_on_broken_brackets_witness :
  broken_brackets "invalid[[path" = true
  /\ stringToPathArray "invalid[[path" = [Name "invalid[[path"].
Proof.
  split; [reflexivity|].
  apply (fallback_on_broken_brackets "invalid[[path"). reflexivity.
Defined.

(** C1 (as stated) fails: ["[[a]"] holds a doubled opening bracket and is
    unbalanced, yet the lazy key takes the second bracket and the path
    parses to the one name ["[a"]. *)
Lemma doubled_bracket_parses :
  suspicious "[[a]" = true
  /\ stringToPathArray "[[a]" = [Name "[a"]
  /\ stringToPathArray "[[a]" <> [Name "[[a]"].
Proof.
  split; [reflexivity|]. split; [reflexivity|]. discriminate.
Qed.

(** ** Paths without brackets *)

Section Dotted.

Lemma well_dotted_any s : well_dotted s = true -> all_chars any_char s = true.
Proof.
  induction s as [|c t IH]; simpl; [reflexivity|].
  intros H. apply andb_prop in H as [H W]. apply andb_prop in H as [H _].
  apply andb_prop in H as [_ A]. rewrite A, (IH W). reflexivity.
Qed.

Lemma well_dotted_suffix k r : well_dotted (k ++ r) = true -> well_dotted r = true.
Proof.
  induction k as [|c k IH]; simpl; [auto|].
  intros H. apply andb_prop in H as [_ W]. exact (IH W).
Qed.

Lemma well_dotted_head c t :
  well_dotted (String c t) = true ->
  Ascii.eqb c "[" = false /\ Ascii.eqb c "]" = false
  /\ (Ascii.eqb c "." = true ->
      exists d t', t = String d t' /\ Ascii.eqb d "." = false)
  /\ well_dotted t = true.
Proof.
  simpl. intros H. apply andb_prop in H as [H W].
  apply andb_prop in H as [H D]. apply andb_prop in H as [H _].
  apply andb_prop in H as [O C].
  apply negb_true_iff in O. apply negb_true_iff in C.
  repeat split; auto.
  intros E. rewrite E in D. destruct t as [|d t']; [discriminate|].
  exists d, t'. apply negb_true_iff in D. auto.
Qed.

Lemma key_char_intro c :
  Ascii.eqb c "." = false -> Ascii.eqb c "[" = false ->
  Ascii.eqb c "]" = false -> key_char c = true.
Proof. unfold key_char. intros -> -> ->. reflexivity. Qed.

(** The dot expression matches a well-dotted path that is not empty. *)
Lemma well_dotted_dot c t :
  well_dotted (String c t) = true ->
  exists key rest,
    dotMatch (String c t) = Some (key, rest)
    /\ well_dotted rest = true.
Proof.
  intros W. pose proof (well_dotted_any _ W) as A.
  destruct (well_dotted_head _ _ W) as (O & C & D & Wt).
  assert (S : exists d u, skip_dot (String c t) = String d u
            /\ key_char d = true /\ well_dotted (String d u) = true).
  { simpl. destruct (Ascii.eqb c ".") eqn:E.
    - destruct (D eq_refl) as (d & t' & -> & Ed).
      destruct (well_dotted_head _ _ Wt) as (O' & C' & _ & _).
      exists d, t'. auto using key_char_intro.
    - exists c, t. auto using key_char_intro. }
  destruct S as (d & u & Es & Kd & Wd).
  rewrite dotMatch_direct. unfold dot_captures. rewrite Es.
  destruct (span_key_inv (String d u)) as (E & _ & _).
  destruct (span_key (String d u)) as [k r] eqn:SK. cbn [fst snd] in E.
  assert (Wr : well_dotted r = true).
  { apply (well_dotted_suffix k). rewrite <- E. exact Wd. }
  simpl in SK. rewrite Kd in SK.
  destruct (span_key u) as [k' r']. injection SK as <- <-.
  unfold rest_matches. rewrite (well_dotted_any _ Wr).
  exists (String d k'), r'. auto.
Qed.

Lemma well_dotted_parses s :
  well_dotted s = true -> exists segs, parsePath s = Some segs.
Proof.
  induction s as [s IH] using parse_ind. intros W.
  rewrite parsePath_eq. unfold parsePath_body.
  destruct s as [|c t]; [exists []; reflexivity|].
  destruct (well_dotted_head _ _ W) as (O & _).
  rewrite (bracket_none_head _ _ O).
  destruct (well_dotted_dot _ _ W) as (key & rest & D & Wr).
  rewrite D.
  destruct (IH rest (dot_shorter _ _ _ D) Wr) as (segs & ->).
  eexists. reflexivity.
Qed.

End Dotted.

(** C2 (as stated) fails: ["a..b"] holds no bracket at all, yet its second
    dot starts no key, [parsePath] fails and the path falls back. *)
Lemma double_dot_falls_back :
  contains "[" "a..b" = false /\ contains "]" "a..b" = false
  /\ parsePath "a..b" = None
  /\ stringToPathArray "a..b" = [Name "a..b"].
Proof. repeat split; reflexivity. Qed.

(** ** Classification of keys *)

Section Classification.

Lemma all_chars_impl (p q : ascii -> bool) s :
  (forall c, p c = true -> q c = true) ->
  all_chars p s = true -> all_chars q s = true.
Proof.
  intros I. induction s as [|c t IH]; simpl; [reflexivity|].
  intros H. apply andb_prop in H as [H1 H2]. rewrite (I _ H1), (IH H2).
  reflexivity.
Qed.

Lemma all_chars_excludes (p : ascii -> bool) x s :
  p x = false -> all_chars p s = true -> contains x s = false.
Proof.
  intros X. induction s as [|c t IH]; simpl; [reflexivity|].
  intros H. apply andb_prop in H as [H1 H2]. rewrite (IH H2).
  destruct (Ascii.eqb_spec c x) as [->|]; [congruence|reflexivity].
Qed.

Lemma digit_key_char c : is_digit c = true -> key_char c = true.
Proof.
  destruct c as [[] [] [] [] [] [] [] []]; intros H;
    try reflexivity; discriminate H.
Qed.

Lemma digit_any_char c : is_digit c = true -> any_char c = true.
Proof.
  destruct c as [[] [] [] [] [] [] [] []]; intros H;
    try reflexivity; discriminate H.
Qed.

Lemma numeric_inv d :
  test NUMERIC_KEY_REGEX d = true ->
  d <> "" /\ all_chars is_digit d = true /\ all_chars key_char d = true
  /\ all_chars any_char d = true /\ contains "]" d = false.
Proof.
  intros H. rewrite test_numeric in H.
  assert (D : all_chars is_digit d = true)
    by (destruct d; [discriminate|exact H]).
  pose proof (all_chars_impl _ _ _ digit_key_char D) as K.
  repeat split; auto.
  - destruct d; [discriminate H|discriminate].
  - exact (all_chars_impl _ _ _ digit_any_char D).
  - exact (all_chars_excludes key_char "]" d eq_refl K).
Qed.

Lemma parsePath_nil : parsePath "" = Some [].
Proof. rewrite parsePath_eq. reflexivity. Qed.

(** The segment of a bracket match. *)
Lemma parsePath_bracket s key rest :
  bracketMatch s = Some (key, rest) ->
  parsePath s = option_map (cons (parsedKey key)) (parsePath rest).
Proof.
  intros B. rewrite parsePath_eq. unfold parsePath_body.
  destruct s; [discriminate B|]. rewrite B.
  destruct (parsePath rest); reflexivity.
Qed.

(** The segment of a dot match. *)
Lemma parsePath_dot s key rest :
  bracketMatch s = None ->
  dotMatch s = Some (key, rest) ->
  parsePath s = option_map (cons (parsedKey key)) (parsePath rest).
Proof.
  intros B D. rewrite parsePath_eq. unfold parsePath_body.
  destruct s; [discriminate D|]. rewrite B, D.
  destruct (parsePath rest); reflexivity.
Qed.

(** A run of key characters followed by something that stops it is taken
    whole by the dot expression, whether or not a dot precedes it. *)
Lemma dot_takes_key (lead : bool) key rest :
  key <> "" -> all_chars key_char key = true ->
  key_stops rest = true -> rest_matches rest = true ->
  let s := if lead then String "." (key ++ rest) else key ++ rest in
  bracketMatch s = None
  /\ dotMatch s = Some (key, rest).
Proof.
  intros N K S R. destruct key as [|c k]; [contradiction|].
  pose proof K as K'. simpl in K'. apply andb_prop in K' as [Kc _].
  destruct lead; simpl.
  - split; [reflexivity|]. apply dot_intro; auto.
  - split; [apply bracket_none_head, key_char_not_open, Kc|].
    apply dot_intro; auto. simpl. rewrite (key_char_not_dot _ Kc).
    reflexivity.
Qed.

Lemma parsedKey_name a : name_key a = true -> parsedKey a = Name a.
Proof.
  unfold name_key, parsedKey. intros H. apply andb_prop in H as [_ H].
  apply negb_true_iff in H. rewrite H. reflexivity.
Qed.

Lemma name_key_inv a :
  name_key a = true -> a <> "" /\ all_chars key_char a = true.
Proof.
  unfold name_key. intros H. apply andb_prop in H as [H _].
  apply andb_prop in H as [N K]. split; [|exact K].
  intros ->. discriminate N.
Qed.

Lemma nonempty_path_array s segs :
  s <> "" -> parsePath s = Some segs -> stringToPathArray s = segs.
Proof.
  intros N E. unfold stringToPathArray. rewrite E.
  destruct s; [contradiction|reflexivity].
Qed.

Lemma append_nonempty a s : a <> "" -> a ++ s <> "".
Proof. destruct a; [contradiction|discriminate]. Qed.

End Classification.

(** ** Termination and the depth of the recursion *)

Section Depth.

(** The calls of [parsePath] on a path that parses: one per segment and one
    for the empty rest. *)
Lemma depth_of_parse depth :
  forall s segs, parsePath s = Some segs ->
  (parsePath_depth depth s = None <-> depth <= List.length segs).
Proof.
  induction depth as [|d IH]; intros s segs P.
  - simpl. split; [lia|reflexivity].
  - destruct s as [|a t].
    + rewrite parsePath_nil in P. injection P as <-. simpl.
      split; [discriminate|lia].
    + cbn [parsePath_depth].
      destruct (bracketMatch (String a t)) as [[k r]|] eqn:B.
      * rewrite (parsePath_bracket _ _ _ B) in P.
        destruct (parsePath r) as [rs|] eqn:R; [|discriminate P].
        injection P as <-. specialize (IH r rs R). cbn [List.length].
        destruct (parsePath_depth d r) as [[x|]|].
        -- split; [discriminate|]. intros L.
           pose proof (proj2 IH (le_S_n _ _ L)) as Y. discriminate Y.
        -- split; [discriminate|]. intros L.
           pose proof (proj2 IH (le_S_n _ _ L)) as Y. discriminate Y.
        -- split; [intros _|reflexivity].
           apply le_n_S, IH. reflexivity.
      * destruct (dotMatch (String a t)) as [[k r]|] eqn:D.
        -- rewrite (parsePath_dot _ _ _ B D) in P.
           destruct (parsePath r) as [rs|] eqn:R; [|discriminate P].
           injection P as <-. specialize (IH r rs R). cbn [List.length].
           destruct (parsePath_depth d r) as [[x|]|].
           ++ split; [discriminate|]. intros L.
           pose proof (proj2 IH (le_S_n _ _ L)) as Y. discriminate Y.
           ++ split; [discriminate|]. intros L.
           pose proof (proj2 IH (le_S_n _ _ L)) as Y. discriminate Y.
           ++ split; [intros _|reflexivity].
              apply le_n_S, IH. reflexivity.
        -- rewrite parsePath_eq in P. unfold parsePath_body in P.
           rewrite B, D in P. discriminate P.
Qed.

(** Every path has a least depth from which on the call returns; it is at
    most one more than the length of the path. *)
Lemma depth_threshold s :
  exists need, 1 <= need <= S (String.length s)
    /\ forall depth,
         (parsePath_depth depth s = None <-> depth < need)
         /\ (need <= depth -> parsePath_depth depth s = Some (parsePath s)).
Proof.
  induction s as [s IH] using parse_ind.
  destruct s as [|a t].
  - exists 1. split; [simpl; lia|]. intros [|d]; simpl.
    + split; [split; [lia|reflexivity]|lia].
    + rewrite parsePath_nil. split; [split; [discriminate|lia]|reflexivity].
  - assert (Step : forall k r,
              String.length r < String.length (String a t) ->
              (forall d,
                 parsePath_depth (S d) (String a t)
                 = match parsePath_depth d r with
                   | None => None
                   | Some None => Some None
                   | Some (Some restResult) =>
                       Some (Some (parsedKey k :: restResult))
                   end) ->
              parsePath (String a t)
              = option_map (cons (parsedKey k)) (parsePath r) ->
              exists need, 1 <= need <= S (String.length (String a t))
                /\ forall depth,
                     (parsePath_depth depth (String a t) = None
                      <-> depth < need)
                     /\ (need <= depth ->
                         parsePath_depth depth (String a t)
                         = Some (parsePath (String a t)))).
    { intros k r L E P. destruct (IH r L) as (need & Bn & H).
      exists (S need). split; [lia|]. intros [|d].
      - split; [split; [lia|reflexivity]|lia].
      - rewrite E, P. destruct (H d) as (H1 & H2). split.
        + destruct (parsePath_depth d r) as [[x|]|].
          * split; [discriminate|]. intros X.
            assert (Y : d < need) by lia. apply H1 in Y. discriminate Y.
          * split; [discriminate|]. intros X.
            assert (Y : d < need) by lia. apply H1 in Y. discriminate Y.
          * split; [intros _|reflexivity].
            apply (proj1 (Nat.succ_lt_mono _ _)), H1. reflexivity.
        + intros X. rewrite H2 by lia. destruct (parsePath r); reflexivity. }
    destruct (bracketMatch (String a t)) as [[k r]|] eqn:B.
    + apply (Step k r (bracket_shorter _ _ _ B)).
      * intros d. cbn [parsePath_depth]. rewrite B. reflexivity.
      * exact (parsePath_bracket _ _ _ B).
    + destruct (dotMatch (String a t)) as [[k r]|] eqn:D.
      * apply (Step k r (dot_shorter _ _ _ D)).
        -- intros d. cbn [parsePath_depth]. rewrite B, D. reflexivity.
        -- exact (parsePath_dot _ _ _ B D).
      * exists 1. split; [simpl; lia|]. intros [|d].
        -- split; [split; [lia|reflexivity]|lia].
        -- cbn [parsePath_depth]. rewrite B, D.
           split; [split; [discriminate|lia]|].
           intros _. rewrite parsePath_eq. unfold parsePath_body.
           rewrite B, D. reflexivity.
Qed.

Lemma nested_parses n :
  all_chars any_char (nested n) = true
  /\ parsePath (nested n) = Some (repeat (Name "a") (S n))
  /\ parsePath (String "." (nested n)) = Some (repeat (Name "a") (S n)).
Proof.
  induction n as [|n (A & P & Q)]; [repeat split; reflexivity|].
  assert (A' : all_chars any_char (nested (S n)) = true)
    by (simpl; exact A).
  assert (N : "a" <> "") by discriminate.
  destruct (dot_takes_key false "a" (String "." (nested n)) N eq_refl
              eq_refl A) as (B1 & D1).
  destruct (dot_takes_key true "a" (String "." (nested n)) N eq_refl
              eq_refl A) as (B2 & D2).
  cbv beta iota zeta in B1, D1, B2, D2.
  change ("a" ++ String "." (nested n)) with (nested (S n)) in *.
  split; [exact A'|]. split.
  - rewrite (parsePath_dot _ _ _ B1 D1), Q. reflexivity.
  - rewrite (parsePath_dot _ _ _ B2 D2), Q. reflexivity.
Qed.

Lemma nested_nonempty n : nested n <> "".
Proof. destruct n; discriminate. Qed.

Lemma nested_overflows depth :
  stringToPathArray_depth depth (nested depth) = None.
Proof.
  destruct (nested_parses depth) as (_ & P & _).
  pose proof (proj2 (depth_of_parse depth _ _ P)) as O.
  rewrite repeat_length in O. specialize (O (Nat.le_succ_diag_r depth)).
  unfold stringToPathArray_depth. rewrite O.
  pose proof (nested_nonempty depth). destruct (nested depth);
    [contradiction|reflexivity].
Qed.

End Depth.

(** C8 (as amended).  Each expression that matches leaves a strictly
    shorter remainder, so the recursion of [parsePath] ends on every path:
    there is a number of calls, at least one and at most one more than the
    length of the path, such that on a call stack with room for that many
    calls [stringToPathArray] returns a sequence of segments, the parse or
    the path itself as one name, and on a smaller stack the engine's
    [RangeError] is thrown.  For a path that parses the number is one more
    than the number of its segments. *)
Theorem stringToPathArray_total (path : string) :
  match bracketMatch path with
  | Some (_, rest) => String.length rest < String.length path
  | None => True
  end
  /\ match dotMatch path with
     | Some (_, rest) => String.length rest < String.length path
     | None => True
     end
  /\ (exists need, 1 <= need <= S (String.length path)
       /\ forall depth,
            (need <= depth ->
             stringToPathArray_depth depth path
             = Some (stringToPathArray path))
            /\ (path <> "" -> depth < need ->
                stringToPathArray_depth depth path = None))
  /\ (forall segs depth,
        path <> "" -> parsePath path = Some segs ->
        (stringToPathArray_depth depth path = None
         <-> depth <= List.length segs))
  /\ (parsePath path = Some (stringToPathArray path)
      \/ stringToPathArray path = [Name path]).
Proof.
  split; [|split; [|split; [|split]]].
  - destruct (bracketMatch path) as [[k r]|] eqn:B; [|exact I].
    exact (bracket_shorter _ _ _ B).
  - destruct (dotMatch path) as [[k r]|] eqn:D; [|exact I].
    exact (dot_shorter _ _ _ D).
  - destruct (depth_threshold path) as (need & Bn & H).
    exists need. split; [exact Bn|]. intros depth.
    destruct (H depth) as (H1 & H2).
    unfold stringToPathArray_depth, stringToPathArray. split.
    + intros L. destruct path as [|a t]; [reflexivity|].
      rewrite (H2 L). destruct (parsePath (String a t)); reflexivity.
    + intros N L. destruct path as [|a t]; [contradiction|].
      rewrite (proj2 H1 L). reflexivity.
  - intros segs depth N P. unfold stringToPathArray_depth.
    destruct path as [|a t]; [contradiction|].
    rewrite <- (depth_of_parse depth _ _ P).
    destruct (parsePath_depth depth (String a t)) as [[x|]|];
      split; congruence.
  - unfold stringToPathArray. destruct path as [|a t].
    + left. apply parsePath_nil.
    + destruct (parsePath (String a t)); auto.
Qed.

Lemma stringToPathArray_total_witness :
  stringToPathArray_depth 4 "user.profile.name"
  = Some [Name "user"; Name "profile"; Name "name"]
  /\ stringToPathArray_depth 3 "user.profile.name" = None.
Proof.
  destruct (stringToPathArray_total "user.profile.name")
    as (_ & _ & _ & H & _).
  split; [reflexivity|].
  apply (H [Name "user"; Name "profile"; Name "name"] 3);
    [discriminate|reflexivity|].
  simpl. lia.
Defined.

(** C8 (as stated) fails: [parsePath] calls itself once for each segment,
    and not as its last action, so whatever room the call stack has, a path
    with that many segments exhausts it and [stringToPathArray] throws. *)
Lemma deep_path_overflows :
  stringToPathArray_depth 3 "a.a.a" = None
  /\ (forall depth, stringToPathArray_depth depth (nested depth) = None)
  /\ ~ (exists depth,
          forall path, stringToPathArray_depth depth path <> None).
Proof.
  split; [reflexivity|]. split; [exact nested_overflows|].
  intros (depth & H). exact (H (nested depth) (nested_overflows depth)).
Qed.


(** ** The causes of the fallback *)

Section Causes.

Lemma scan_key_run k r :
  all_chars key_char k = true -> scan Between (k ++ r) = scan Between r.
Proof.
  induction k as [|c k IH]; simpl; [reflexivity|].
  intros H. apply andb_prop in H as [Kc Kk].
  rewrite (key_char_not_close _ Kc), (key_char_not_open _ Kc),
    (key_char_not_dot _ Kc).
  exact (IH Kk).
Qed.

Lemma scan_in_brackets w r :
  contains "]" w = false ->
  scan InBrackets (w ++ String "]" r) = scan Between r.
Proof.
  induction w as [|c w IH]; simpl; [reflexivity|].
  intros H. apply orb_false_iff in H as [Hc Hw]. rewrite Hc. exact (IH Hw).
Qed.

Lemma scan_never_closed u :
  contains "]" u = false -> scan InBrackets u = Some UnclosedBracket.
Proof.
  induction u as [|c u IH]; simpl; [reflexivity|].
  intros H. apply orb_false_iff in H as [Hc Hu]. rewrite Hc. exact (IH Hu).
Qed.

Lemma split_at_close u :
  contains "]" u = true ->
  exists w r, u = w ++ String "]" r /\ contains "]" w = false.
Proof.
  induction u as [|c u IH]; simpl; [discriminate|].
  destruct (Ascii.eqb_spec c "]") as [->|N]; simpl.
  - intros _. exists "", u. split; reflexivity.
  - intros H. destruct (IH H) as (w & r & -> & C).
    exists (String c w), r. split; [reflexivity|]. simpl. rewrite C.
    destruct (Ascii.eqb_spec c "]"); [contradiction|reflexivity].
Qed.

(** A match is a step of the reader. *)
Lemma scan_bracket s key rest :
  bracketMatch s = Some (key, rest) -> scan Between s = scan Between rest.
Proof.
  intros B. apply bracket_inv in B as (c & w & _ & -> & _ & _ & C & _).
  simpl. exact (scan_in_brackets _ _ C).
Qed.

Lemma scan_dot s key rest :
  dotMatch s = Some (key, rest) -> scan Between s = scan Between rest.
Proof.
  intros D. apply dot_inv in D as (E & N & K & _ & _).
  destruct key as [|c k]; [contradiction|].
  pose proof K as K'. simpl in K'. apply andb_prop in K' as [Kc _].
  destruct (skip_dot_cases s) as [S|S].
  - rewrite <- S, E. exact (scan_key_run _ _ K).
  - rewrite S, E. simpl. rewrite Kc. exact (scan_key_run _ _ (proj2 (andb_prop _ _ K))).
Qed.

(** Where no expression matches, the reader is stuck. *)
Lemma bracket_stuck t :
  all_chars any_char t = true ->
  bracketMatch (String "[" t) = None ->
  scan Between (String "[" t) = Some UnclosedBracket.
Proof.
  intros A B. simpl. destruct t as [|c u]; [reflexivity|]. simpl.
  simpl in A. apply andb_prop in A as [Ac Au].
  destruct (contains "]" u) eqn:C; [|exact (scan_never_closed _ C)].
  destruct (split_at_close _ C) as (w & r & -> & Cw).
  rewrite all_chars_app in Au. apply andb_prop in Au as [Aw Ar].
  simpl in Ar.
  rewrite (bracket_intro c w r Ac Aw Cw Ar) in B. discriminate B.
Qed.

Lemma span_key_empty s :
  fst (span_key s) = "" -> key_stops s = true.
Proof.
  destruct s as [|c t]; simpl; [reflexivity|].
  destruct (key_char c); [|reflexivity].
  destruct (span_key t); discriminate.
Qed.

Lemma not_key_char c :
  key_char c = false ->
  Ascii.eqb c "." = true \/ Ascii.eqb c "[" = true \/ Ascii.eqb c "]" = true.
Proof.
  unfold key_char. intros H. apply negb_false_iff in H.
  apply orb_prop in H as [H|H]; [apply orb_prop in H as [H|H]|]; auto.
Qed.

Lemma dot_stuck a t :
  Ascii.eqb a "[" = false ->
  fst (span_key (skip_dot (String a t))) = "" ->
  scan Between (String a t) <> None.
Proof.
  intros O E. apply span_key_empty in E. simpl in E |- *.
  destruct (Ascii.eqb a ".") eqn:D.
  - destruct (Ascii.eqb a "]"); [discriminate|]. rewrite O.
    destruct t as [|c u]; simpl; [discriminate|].
    simpl in E. apply negb_true_iff in E. rewrite E. discriminate.
  - simpl in E. apply negb_true_iff in E.
    destruct (not_key_char _ E) as [X|[X|X]]; try congruence.
    rewrite X. discriminate.
Qed.

Lemma dot_none_open t : dotMatch (String "[" t) = None.
Proof. rewrite dotMatch_direct. reflexivity. Qed.

(** Once no line terminator is left, the parse fails exactly when the
    reader finds a defect. *)
Lemma scan_tail s :
  all_chars any_char s = true ->
  (parsePath s = None <-> scan Between s <> None).
Proof.
  induction s as [s IH] using parse_ind. intros A.
  destruct s as [|a t].
  - rewrite parsePath_nil. simpl. split; [discriminate|congruence].
  - destruct (bracketMatch (String a t)) as [[k r]|] eqn:B.
    + rewrite (parsePath_bracket _ _ _ B), (scan_bracket _ _ _ B).
      pose proof (bracket_inv _ _ _ B) as (_ & _ & _ & _ & _ & _ & _ & R).
      rewrite <- (IH r (bracket_shorter _ _ _ B) R).
      destruct (parsePath r); simpl; split; congruence.
    + destruct (dotMatch (String a t)) as [[k r]|] eqn:D.
      * rewrite (parsePath_dot _ _ _ B D), (scan_dot _ _ _ D).
        pose proof (dot_inv _ _ _ D) as (_ & _ & _ & _ & R).
        rewrite <- (IH r (dot_shorter _ _ _ D) R).
        destruct (parsePath r); simpl; split; congruence.
      * assert (P : parsePath (String a t) = None).
        { rewrite parsePath_eq. unfold parsePath_body. rewrite B, D.
          reflexivity. }
        split; [intros _|intros _; exact P].
        destruct (Ascii.eqb_spec a "[") as [->|N].
        -- simpl in A. rewrite (bracket_stuck t A B). discriminate.
        -- apply dot_stuck; [apply Ascii.eqb_neq; exact N|].
           rewrite dotMatch_direct in D. unfold dot_captures in D.
           destruct (span_key_inv (skip_dot (String a t))) as (E & _ & _).
           destruct (span_key (skip_dot (String a t))) as [k r];
             cbn [fst snd] in *.
           destruct k as [|c k]; [reflexivity|].
           assert (R : rest_matches r = true).
           { unfold rest_matches.
             assert (As : all_chars any_char (skip_dot (String a t)) = true).
             { simpl. destruct (Ascii.eqb a ".");
                 [exact (proj2 (andb_prop _ _ A))|exact A]. }
             rewrite E, all_chars_app in As.
             exact (proj2 (andb_prop _ _ As)). }
           rewrite R in D. discriminate D.
Qed.

Lemma any_char_skipped s :
  all_chars any_char (skip_dot s) = true -> all_chars any_char s = true.
Proof.
  destruct s as [|a t]; simpl; [auto|].
  destruct (Ascii.eqb_spec a ".") as [->|]; [|auto].
  intros ->. reflexivity.
Qed.

Lemma any_char_after s :
  all_chars any_char s = true ->
  all_chars any_char (after_first_key s) = true.
Proof.
  intros A. unfold after_first_key.
  destruct (span_key_inv (skip_dot s)) as (E & _ & _).
  assert (As : all_chars any_char (skip_dot s) = true).
  { destruct s as [|a t]; simpl in *; [reflexivity|].
    destruct (Ascii.eqb a "."); [exact (proj2 (andb_prop _ _ A))|exact A]. }
  rewrite E, all_chars_app in As. exact (proj2 (andb_prop _ _ As)).
Qed.

(** The parse fails exactly when the path has a defect. *)
Lemma cause_exact path :
  parsePath path = None <-> fallback_cause path <> None.
Proof.
  unfold fallback_cause.
  destruct (all_chars any_char (after_first_key path)) eqn:R.
  - (* no line terminator after the first key *)
    unfold after_first_key in R.
    destruct (span_key_inv (skip_dot path)) as (E & K & S).
    destruct (span_key (skip_dot path)) as [k r] eqn:SK; simpl in *.
    destruct k as [|c k].
    + simpl in E. rewrite <- E in R. apply any_char_skipped in R.
      rewrite (scan_tail _ R).
      destruct (scan Between path); split; congruence.
    + assert (D : dotMatch path = Some (String c k, r)).
      { apply dot_intro; auto. discriminate. }
      assert (B : bracketMatch path = None).
      { destruct path as [|a t]; [reflexivity|].
        apply bracket_none_head. apply Ascii.eqb_neq. intros ->.
        simpl in SK. discriminate SK. }
      assert (M : forall o : option (list segment),
                 option_map (cons (parsedKey (String c k))) o = None
                 <-> o = None)
        by (intros [x|]; simpl; split; congruence).
      rewrite (parsePath_dot _ _ _ B D), (scan_dot _ _ _ D), M.
      pose proof (scan_tail r R) as T.
      destruct (scan Between r) as [d|]; rewrite T; reflexivity.
  - (* a line terminator after the first key *)
    assert (P : parsePath path = None).
    { rewrite parsePath_eq. unfold parsePath_body.
      destruct path as [|a t]; [discriminate R|].
      destruct (bracketMatch (String a t)) as [[k r]|] eqn:B.
      - exfalso. apply bracket_inv in B as (c & w & _ & E & Ac & Aw & _ & Ar).
        assert (A : all_chars any_char (String a t) = true).
        { rewrite E. simpl. rewrite Ac, all_chars_app, Aw. simpl.
          exact Ar. }
        rewrite (any_char_after _ A) in R. discriminate R.
      - destruct (dotMatch (String a t)) as [[k r]|] eqn:D; [|reflexivity].
        exfalso. rewrite dotMatch_direct in D. unfold dot_captures in D.
        unfold after_first_key in R.
        destruct (span_key (skip_dot (String a t))) as [k' r']; simpl in R.
        destruct k'; [discriminate D|].
        unfold rest_matches in D. rewrite R in D. discriminate D. }
    split; [intros _|intros _; exact P].
    destruct (scan Between path); discriminate.
Qed.

(** Without brackets the reader never meets a bracket defect. *)
Lemma scan_no_bracket s :
  contains "[" s = false -> contains "]" s = false ->
  forall pos, pos = Between \/ pos = AfterDot ->
  scan pos s <> Some StrayClose /\ scan pos s <> Some UnclosedBracket.
Proof.
  induction s as [|c t IH]; intros O C pos P.
  - destruct P as [-> | ->]; simpl; split; discriminate.
  - simpl in O, C. apply orb_false_iff in O as [Oc Ot].
    apply orb_false_iff in C as [Cc Ct].
    destruct P as [-> | ->]; simpl.
    + rewrite Cc, Oc. destruct (Ascii.eqb c "."); apply IH; auto.
    + destruct (key_char c); [apply IH; auto|split; discriminate].
Qed.

End Causes.

(** C2 (as amended).  The fallback is triggered exactly by one of four
    defects, met when the path is read from left to right: a closing
    bracket where a segment should start; an opening bracket that is not
    followed by a key (its first character, whatever it is, and what comes
    up to the next closing bracket) and that closing bracket; a dot that no
    key character follows (it is followed by a dot, a bracket or the end);
    a line terminator anywhere but in the key at the very start.  Every
    other path parses into segments, with brackets or without; and a path
    without brackets can only have the last two defects. *)
Theorem fallback_exactly_on_defect (path : string) :
  (parsePath path = None <-> fallback_cause path <> None)
  /\ (fallback_cause path = None ->
      exists segs, parsePath path = Some segs
                   /\ stringToPathArray path = segs)
  /\ (fallback_cause path <> None -> stringToPathArray path = [Name path])
  /\ (contains "[" path = false -> contains "]" path = false ->
      fallback_cause path <> Some StrayClose
      /\ fallback_cause path <> Some UnclosedBracket).
Proof.
  pose proof (cause_exact path) as X. split; [exact X|]. split; [|split].
  - intros N. destruct (parsePath path) as [segs|] eqn:E.
    + exists segs. split; [reflexivity|].
      unfold stringToPathArray. rewrite E.
      destruct path; [|reflexivity].
      rewrite parsePath_nil in E. injection E as <-. reflexivity.
    + exfalso. apply (proj1 X); [reflexivity|exact N].
  - intros N. apply (proj2 X) in N. unfold stringToPathArray. rewrite N.
    destruct path; [|reflexivity].
    rewrite parsePath_nil in N. discriminate N.
  - intros O C. unfold fallback_cause.
    destruct (scan_no_bracket path O C Between (or_introl eq_refl)) as [S U].
    destruct (scan Between path) as [d|].
    + split; congruence.
    + destruct (all_chars any_char (after_first_key path));
        split; discriminate.
Qed.

Lemma fallback_exactly_on_defect_witness :
  (exists segs, parsePath "users[0].name" = Some segs
                /\ stringToPathArray "users[0].name" = segs)
  /\ stringToPathArray "a.[b]" = [Name "a.[b]"]
  /\ stringToPathArray "[a[0]a]" = [Name "[a[0]a]"].
Proof.
  split; [|split].
  - apply (fallback_exactly_on_defect "users[0].name"). reflexivity.
  - apply (fallback_exactly_on_defect "a.[b]"). discriminate.
  - apply (fallback_exactly_on_defect "[a[0]a]"). discriminate.
Defined.


(** C9.  A key of digits becomes an index and any other key a name, by the
    one function [parsedKey], whichever expression captured it; so a name
    followed by digits parses to the same two segments in dot notation and
    in bracket notation. *)
Theorem numeric_keys_notation_independent (a d : string) :
  name_key a = true -> test NUMERIC_KEY_REGEX d = true ->
  stringToPathArray (a ++ "." ++ d) = [Name a; Index (Number d)]
  /\ stringToPathArray (a ++ "[" ++ d ++ "]") = [Name a; Index (Number d)]
  /\ (forall s key rest,
        bracketMatch s = Some (key, rest) ->
        parsePath s = option_map (cons (parsedKey key)) (parsePath rest))
  /\ (forall s key rest,
        bracketMatch s = None ->
        dotMatch s = Some (key, rest) ->
        parsePath s = option_map (cons (parsedKey key)) (parsePath rest))
  /\ (forall key,
        parsedKey key
        = if test NUMERIC_KEY_REGEX key then Index (Number key) else Name key).
Proof.
  intros Ha Hd.
  destruct (name_key_inv _ Ha) as (Na & Ka).
  destruct (numeric_inv _ Hd) as (Nd & Dd & Kd & Ad & Cd).
  assert (Pd : parsedKey d = Index (Number d))
    by (unfold parsedKey; rewrite Hd; reflexivity).
  split; [|split; [|split; [exact parsePath_bracket|
                    split; [exact parsePath_dot|reflexivity]]]].
  - apply nonempty_path_array; [apply append_nonempty, Na|].
    destruct (dot_takes_key false a ("." ++ d) Na Ka eq_refl) as (B1 & D1).
    { unfold rest_matches. simpl. exact Ad. }
    rewrite (parsePath_dot _ _ _ B1 D1).
    destruct (dot_takes_key true d "" Nd Kd eq_refl eq_refl) as (B2 & D2).
    rewrite append_nil_r in B2, D2.
    change ("." ++ d) with (String "." d).
    rewrite (parsePath_dot _ _ _ B2 D2), parsePath_nil.
    simpl. rewrite (parsedKey_name _ Ha), Pd. reflexivity.
  - apply nonempty_path_array; [apply append_nonempty, Na|].
    destruct (dot_takes_key false a ("[" ++ d ++ "]") Na Ka eq_refl)
      as (B1 & D1).
    { unfold rest_matches. simpl. rewrite all_chars_app, Ad. reflexivity. }
    rewrite (parsePath_dot _ _ _ B1 D1).
    destruct d as [|c w]; [contradiction|].
    simpl in Ad, Cd. apply andb_prop in Ad as [Ac Aw].
    apply orb_false_iff in Cd as [_ Cw].
    pose proof (bracket_intro c w "" Ac Aw Cw eq_refl) as B2.
    change ("[" ++ String c w ++ "]") with
      (String "[" (String c (w ++ String "]" ""))).
    rewrite (parsePath_bracket _ _ _ B2), parsePath_nil.
    simpl option_map. rewrite (parsedKey_name _ Ha), Pd. reflexivity.
Qed.

Lemma numeric_keys_notation_independent_witness :
  stringToPathArray ("users" ++ "." ++ "0") = [Name "users"; Index (Number "0")]
  /\ stringToPathArray ("users" ++ "[" ++ "0" ++ "]")
     = [Name "users"; Index (Number "0")].
Proof.
  destruct (numeric_keys_notation_independent "users" "0" eq_refl eq_refl)
    as (H1 & H2 & _).
  split; [exact H1|exact H2].
Defined.

(** ** Numbers as doubles *)

Section Numbers.

Local Open Scope N_scope.

Lemma round_small v : v < 2 ^ 53 -> Double.round v = v.
Proof.
  intros H. unfold Double.round. apply N.ltb_lt in H. rewrite H. reflexivity.
Qed.

Lemma pow2_pos e : 0 < 2 ^ e.
Proof. apply N.neq_0_lt_0, N.pow_nonzero. discriminate. Qed.

(** The significand and the exponent that [Double.round] works with. *)
Lemma round_parts v :
  2 ^ 53 <= v ->
  exists e, N.log2 v - 52 = e /\ 1 <= e /\ N.log2 v = 52 + e
            /\ 2 ^ 52 <= v / 2 ^ e < 2 ^ 53.
Proof.
  intros H. exists (N.log2 v - 52).
  assert (L : 53 <= N.log2 v).
  { rewrite <- (N.log2_pow2 53) by lia. apply N.log2_le_mono. exact H. }
  assert (P : 0 < v) by lia.
  destruct (N.log2_spec v P) as (Lo & Hi).
  set (e := N.log2 v - 52) in *.
  assert (E : N.log2 v = 52 + e) by lia.
  rewrite E in Lo. rewrite E, <- N.add_succ_l in Hi.
  rewrite N.pow_add_r in Lo, Hi.
  pose proof (pow2_pos e) as Pe.
  repeat split; try lia.
  - apply N.div_le_lower_bound; lia.
  - apply N.Div0.div_lt_upper_bound. change (N.succ 52) with 53 in Hi. lia.
Qed.

Lemma round_lower v T :
  2 ^ 53 <= v -> T <= Double.infinity ->
  T <= v / 2 ^ (N.log2 v - 52) * 2 ^ (N.log2 v - 52) ->
  T <= Double.round v.
Proof.
  intros H Ti Tq. unfold Double.round.
  assert (F : (v <? 2 ^ 53) = false) by (apply N.ltb_ge; exact H).
  rewrite F. cbv zeta.
  set (e := N.log2 v - 52) in *. set (q := v / 2 ^ e) in *.
  match goal with
  | |- context [if ?b then q + 1 else q] =>
      set (q' := if b then q + 1 else q)
  end.
  assert (Q : q <= q') by (unfold q'; destruct (_ || _); lia).
  destruct (Double.infinity <=? q' * 2 ^ e); [exact Ti|].
  apply (N.le_trans _ _ _ Tq). apply N.mul_le_mono_r. exact Q.
Qed.

Lemma infinity_large : 10 ^ 21 <= Double.infinity /\ 2 ^ 53 <= Double.infinity.
Proof. split; apply N.leb_le; vm_compute; reflexivity. Qed.

Lemma round_ge_53 v : 2 ^ 53 <= v -> 2 ^ 53 <= Double.round v.
Proof.
  intros H. apply (round_lower v _ H (proj2 infinity_large)).
  destruct (round_parts v H) as (e & -> & E1 & _ & Q & _).
  change (2 ^ 53) with (2 ^ 52 * 2 ^ 1).
  apply N.mul_le_mono; [exact Q|].
  apply N.pow_le_mono_r; [discriminate|exact E1].
Qed.

Lemma round_ge_1e21 v : 10 ^ 21 <= v -> 10 ^ 21 <= Double.round v.
Proof.
  intros H.
  assert (H53 : 2 ^ 53 <= v) by lia.
  apply (round_lower v _ H53 (proj1 infinity_large)).
  assert (L : 69 <= N.log2 v).
  { change 69 with (N.log2 (10 ^ 21)). apply N.log2_le_mono. exact H. }
  destruct (round_parts v H53) as (e & -> & E1 & E & Q & _).
  assert (C : e = 17 \/ 18 <= e) by lia. destruct C as [-> | C].
  - change (10 ^ 21) with (7629394531250000 * 2 ^ 17).
    apply N.mul_le_mono_r. apply N.div_le_lower_bound; [discriminate|].
    change (2 ^ 17 * 7629394531250000) with (10 ^ 21). exact H.
  - apply (N.le_trans _ (2 ^ 52 * 2 ^ 18)); [vm_compute; discriminate|].
    apply N.mul_le_mono; [exact Q|].
    apply N.pow_le_mono_r; [discriminate|exact C].
Qed.

(** A significand of 53 binary digits times a power of two is a double. *)
Lemma round_exact m e :
  2 ^ 52 <= m < 2 ^ 53 -> m * 2 ^ e < Double.infinity ->
  Double.round (m * 2 ^ e) = m * 2 ^ e.
Proof.
  intros (Lo & Hi) I. unfold Double.round.
  destruct (m * 2 ^ e <? 2 ^ 53) eqn:S; [reflexivity|]. cbv zeta.
  assert (P : 0 < m) by lia.
  assert (L : N.log2 (m * 2 ^ e) - 52 = e).
  { rewrite (N.log2_mul_pow2 m e P) by lia.
    rewrite (N.log2_unique m 52); [lia|lia|].
    change (N.succ 52) with 53. lia. }
  rewrite L.
  assert (Z : 2 ^ e <> 0) by (apply N.pow_nonzero; discriminate).
  rewrite (N.div_mul _ _ Z), N.Div0.mod_mul.
  pose proof (pow2_pos (e - 1)) as Ph.
  assert (A : (2 ^ (e - 1) <? 0) = false) by (apply N.ltb_ge; lia).
  assert (B : (0 =? 2 ^ (e - 1)) = false) by (apply N.eqb_neq; lia).
  rewrite A, B. simpl orb. cbv iota.
  assert (C : (Double.infinity <=? m * 2 ^ e) = false) by (apply N.leb_gt; exact I).
  rewrite C. reflexivity.
Qed.

Lemma round_infinity : Double.round Double.infinity = Double.infinity.
Proof. vm_compute. reflexivity. Qed.

(** A double rounds to itself. *)
Lemma round_idem v : Double.round (Double.round v) = Double.round v.
Proof.
  destruct (N.lt_ge_cases v (2 ^ 53)) as [S|H].
  - rewrite (round_small v S). exact (round_small v S).
  - destruct (round_parts v H) as (e & Ee & E1 & E & Lo & Hi).
    unfold Double.round at 2 3.
    assert (F : (v <? 2 ^ 53) = false) by (apply N.ltb_ge; exact H).
    rewrite F, Ee. cbv zeta.
    set (q := v / 2 ^ e) in *.
    match goal with
  | |- context [if ?b then q + 1 else q] =>
      set (q' := if b then q + 1 else q)
  end.
    destruct (Double.infinity <=? q' * 2 ^ e) eqn:I; [exact round_infinity|].
    apply N.leb_gt in I.
    assert (Q : q' = q \/ q' = q + 1)
      by (unfold q'; destruct (_ || _); auto).
    assert (C : q' < 2 ^ 53 \/ q' = 2 ^ 53) by lia.
    destruct C as [C|C].
    + apply round_exact; [lia|exact I].
    + rewrite C in *. change (2 ^ 53) with (2 ^ 52 * 2 ^ 1).
      rewrite <- N.mul_assoc, <- N.pow_add_r.
      apply round_exact; [split; [lia|vm_compute; reflexivity]|].
      rewrite N.pow_add_r, N.mul_assoc. exact I.
Qed.

Lemma shortest_sound j x :
  Double.round x = x -> Double.round (Double.shortest_from j x) = x.
Proof.
  intros R. induction j as [|j IH]; cbn [Double.shortest_from]; cbv zeta.
  - destruct (Double.round (x / 10 ^ N.of_nat 0 * 10 ^ N.of_nat 0) =? x) eqn:A;
      destruct (Double.round (x / 10 ^ N.of_nat 0 * 10 ^ N.of_nat 0
                       + 10 ^ N.of_nat 0) =? x) eqn:B; cbn [andb];
      try (destruct (_ <=? _));
      try (apply N.eqb_eq; assumption); exact R.
  - destruct (Double.round (x / 10 ^ N.of_nat (S j) * 10 ^ N.of_nat (S j)) =? x)
      eqn:A;
      destruct (Double.round (x / 10 ^ N.of_nat (S j) * 10 ^ N.of_nat (S j)
                       + 10 ^ N.of_nat (S j)) =? x) eqn:B; cbn [andb];
      try (destruct (_ <=? _));
      try (apply N.eqb_eq; assumption); exact IH.
Qed.

Lemma round_small_inv y x : Double.round y = x -> x < 2 ^ 53 -> y = x.
Proof.
  intros R S. destruct (N.lt_ge_cases y (2 ^ 53)) as [Y|Y].
  - rewrite (round_small y Y) in R. exact R.
  - pose proof (round_ge_53 y Y). lia.
Qed.

Lemma shortest_small j x : x < 2 ^ 53 -> Double.shortest_from j x = x.
Proof.
  intros S. apply (round_small_inv _ x); [|exact S].
  apply shortest_sound, round_small, S.
Qed.


Lemma shortest_above j x :
  Double.round x = x -> 10 ^ 21 <= Double.shortest_from j x -> 10 ^ 21 <= x.
Proof.
  intros R Y. rewrite <- (shortest_sound j x R). apply round_ge_1e21, Y.
Qed.

Lemma pow10_pos j : 0 < 10 ^ j.
Proof. apply N.neq_0_lt_0, N.pow_nonzero. discriminate. Qed.

(** A multiple of a power of ten that is not above a number from 10^21 on
    is 0 or at least 10^21. *)
Lemma multiple_ge j x :
  10 ^ 21 <= x -> x / 10 ^ j * 10 ^ j <> 0 ->
  10 ^ 21 <= x / 10 ^ j * 10 ^ j.
Proof.
  intros X Z. pose proof (pow10_pos j) as P.
  destruct (N.le_gt_cases j 21) as [L|G].
  - replace (10 ^ 21) with (10 ^ (21 - j) * 10 ^ j)
      by (rewrite <- N.pow_add_r; f_equal; lia).
    apply N.mul_le_mono_r. apply N.div_le_lower_bound; [lia|].
    rewrite N.mul_comm, <- N.pow_add_r.
    replace (21 - j + j) with 21 by lia. exact X.
  - assert (Q : x / 10 ^ j <> 0) by (intros E; rewrite E in Z; lia).
    apply (N.le_trans _ (10 ^ j)).
    + apply N.pow_le_mono_r; [discriminate|lia].
    + assert (O : 1 <= x / 10 ^ j)
        by (destruct (x / 10 ^ j); [contradiction|lia]).
      pose proof (N.mul_le_mono_r _ _ (10 ^ j) O) as M.
      rewrite N.mul_1_l in M. exact M.
Qed.

Lemma shortest_ge j x :
  10 ^ 21 <= x -> 10 ^ 21 <= Double.shortest_from j x.
Proof.
  intros X.
  assert (Lo : forall j, Double.round (x / 10 ^ N.of_nat j * 10 ^ N.of_nat j) = x ->
               10 ^ 21 <= x / 10 ^ N.of_nat j * 10 ^ N.of_nat j).
  { intros i R. apply multiple_ge; [exact X|].
    intros E. rewrite E in R. change (Double.round 0) with 0 in R. lia. }
  assert (Hi : forall j, Double.round (x / 10 ^ N.of_nat j * 10 ^ N.of_nat j
                                + 10 ^ N.of_nat j) = x ->
               10 ^ 21 <= x / 10 ^ N.of_nat j * 10 ^ N.of_nat j
                          + 10 ^ N.of_nat j).
  { intros i R.
    destruct (N.eq_dec (x / 10 ^ N.of_nat i * 10 ^ N.of_nat i) 0) as [E|E].
    - rewrite E, N.add_0_l. pose proof (pow10_pos (N.of_nat i)) as P.
      apply N.mul_eq_0 in E. destruct E as [E|E]; [|lia].
      apply N.div_small_iff in E; lia.
    - pose proof (multiple_ge _ _ X E). lia. }
  induction j as [|j IH]; cbn [Double.shortest_from]; cbv zeta.
  - destruct (Double.round (x / 10 ^ N.of_nat 0 * 10 ^ N.of_nat 0) =? x) eqn:A;
      destruct (Double.round (x / 10 ^ N.of_nat 0 * 10 ^ N.of_nat 0
                       + 10 ^ N.of_nat 0) =? x) eqn:B; cbn [andb];
      try (destruct (_ <=? _));
      try (apply Lo, N.eqb_eq; assumption);
      try (apply Hi, N.eqb_eq; assumption); exact X.
  - destruct (Double.round (x / 10 ^ N.of_nat (S j) * 10 ^ N.of_nat (S j)) =? x)
      eqn:A;
      destruct (Double.round (x / 10 ^ N.of_nat (S j) * 10 ^ N.of_nat (S j)
                       + 10 ^ N.of_nat (S j)) =? x) eqn:B; cbn [andb];
      try (destruct (_ <=? _));
      try (apply Lo, N.eqb_eq; assumption);
      try (apply Hi, N.eqb_eq; assumption); exact IH.
Qed.

Lemma value_decimal v : Double.of_digits (Double.decimal v) = v.
Proof.
  unfold Double.of_digits, Double.decimal. rewrite NilEmpty.usu.
  apply DecimalN.Unsigned.of_to.
Qed.

Lemma toString_small x : x < 2 ^ 53 -> Double.toString x = Double.decimal x.
Proof.
  intros S. unfold Double.toString, Double.shortest.
  assert (I : (Double.infinity <=? x) = false).
  { apply N.leb_gt. pose proof (proj2 infinity_large). lia. }
  rewrite I, (shortest_small _ x S).
  assert (T : (x <? 10 ^ 21) = true) by (apply N.ltb_lt; lia).
  rewrite T. reflexivity.
Qed.


(** The three forms of the text of a double. *)
Lemma toString_cases x :
  Double.round x = x ->
  (Double.toString x = "Infinity"%string /\ Double.infinity <= x)
  \/ (exists y, Double.toString x = Double.decimal y /\ Double.round y = x
                /\ x < 10 ^ 21)
  \/ (exists y, Double.toString x = Double.exponent_text y /\ 10 ^ 21 <= x).
Proof.
  intros R. unfold Double.toString, Double.shortest.
  destruct (Double.infinity <=? x) eqn:I; [left; split; [reflexivity|]|right].
  - apply N.leb_le. exact I.
  - cbv zeta. set (y := Double.shortest_from _ x).
    destruct (y <? 10 ^ 21) eqn:T.
    + left. exists y. split; [reflexivity|].
      split; [exact (shortest_sound _ x R)|].
      apply N.ltb_lt in T.
      destruct (N.lt_ge_cases x (10 ^ 21)) as [S|G]; [exact S|].
      pose proof (shortest_ge (String.length (Double.decimal x) - 1) x G).
      fold y in H. lia.
    + right. exists y. split; [reflexivity|].
      apply N.ltb_ge in T. exact (shortest_above _ x R T).
Qed.

Lemma decimal_digits d :
  all_chars is_digit (NilEmpty.string_of_uint d) = true.
Proof. induction d; simpl; auto. Qed.

Lemma decimal_numeric v : test NUMERIC_KEY_REGEX (Double.decimal v) = true.
Proof.
  rewrite test_numeric. unfold numeric_key, Double.decimal.
  pose proof (decimal_digits (N.to_uint v)) as D.
  destruct (NilEmpty.string_of_uint (N.to_uint v)) eqn:E; [|exact D].
  exfalso. destruct v as [|p]; simpl in E; [discriminate|].
  pose proof (Unsigned.to_uint_nonnil p) as NN.
  destruct (Pos.to_uint p); try discriminate. contradiction.
Qed.

Lemma Number_decimal v : Number (Double.decimal v) = Double.round v.
Proof. unfold Number. rewrite value_decimal. reflexivity. Qed.

(** What [Number] gives is a double. *)
Lemma Number_round d : Double.round (Number d) = Number d.
Proof. apply round_idem. Qed.

Lemma exponent_not_numeric y :
  test NUMERIC_KEY_REGEX (Double.exponent_text y) = false.
Proof.
  rewrite test_numeric. unfold numeric_key, Double.exponent_text.
  destruct (Double.decimal y) as [|d rest]; [reflexivity|].
  cbn [all_chars]. rewrite all_chars_app.
  change ("e+" ++ Double.decimal (N.of_nat (String.length rest)))%string
    with (String "e"
            ("+" ++ Double.decimal (N.of_nat (String.length rest))))%string.
  cbn [all_chars]. change (is_digit "e") with false.
  rewrite andb_false_r. apply andb_false_r.
Qed.

(** The key of an index below 2^53 is its decimal numeral. *)
Lemma key_small n : n < 2 ^ 53 -> propertyKey (Index n) = Double.decimal n.
Proof. apply toString_small. Qed.


(** The key of an index starts with a digit, or is [Infinity]. *)
Lemma key_head n :
  Double.round n = n ->
  propertyKey (Index n) = "Infinity"%string
  \/ exists c t, propertyKey (Index n) = String c t /\ is_digit c = true.
Proof.
  intros R. cbn [propertyKey].
  assert (D : forall y, exists c t,
             Double.decimal y = String c t /\ is_digit c = true).
  { intros y. pose proof (decimal_numeric y) as T.
    rewrite test_numeric in T. unfold numeric_key in T.
    destruct (Double.decimal y) as [|c t]; [discriminate T|].
    exists c, t. split; [reflexivity|].
    cbn [all_chars] in T. apply andb_prop in T as [T _]. exact T. }
  destruct (toString_cases n R) as [[E _]|[(y & E & _)|(y & E & _)]].
  - left. exact E.
  - right. rewrite E. apply D.
  - right. rewrite E. unfold Double.exponent_text.
    destruct (D y) as (c & t & -> & Dc). eexists _, _.
    split; [reflexivity|exact Dc].
Qed.







End Numbers.

(** ** Canonical text and parsing it again *)

Section RoundTrip.

#[local] Arguments propertyKey : simpl never.



Lemma bracket_key_any key : bracket_key key = true -> all_chars any_char key = true.
Proof.
  destruct key as [|c w]; [discriminate|]. simpl.
  intros H. apply andb_prop in H as [H _]. exact H.
Qed.







Lemma parsed_key_segment first key :
  bracket_key key = true -> parsed_segment first (parsedKey key) = true.
Proof.
  intros B. unfold parsedKey.
  destruct (test NUMERIC_KEY_REGEX key) eqn:Nm; [reflexivity|].
  simpl. rewrite Nm. simpl. destruct (all_chars key_char key); [|exact B].
  rewrite (bracket_key_any _ B), orb_true_r, andb_true_r.
  destruct key; [discriminate B|reflexivity].
Qed.

Lemma skip_dot_any s :
  all_chars any_char s = true -> all_chars any_char (skip_dot s) = true.
Proof.
  destruct s as [|a t]; simpl; [auto|].
  destruct (Ascii.eqb a "."); simpl; [|auto].
  intros H. apply andb_prop in H as [_ H]. exact H.
Qed.

(** A successful parse holds only such segments. *)
Lemma parse_parsed s :
  forall segs, parsePath s = Some segs ->
  parsed_from true segs = true
  /\ (all_chars any_char s = true -> parsed_from false segs = true).
Proof.
  induction s as [s IH] using parse_ind. intros segs.
  rewrite parsePath_eq. unfold parsePath_body.
  destruct s as [|a t]; [intros [= <-]; auto|].
  destruct (bracketMatch (String a t)) as [[k r]|] eqn:B.
  - pose proof (bracket_shorter _ _ _ B) as L.
    destruct (parsePath r) as [segs'|] eqn:E; [|discriminate].
    intros [= <-]. destruct (IH r L segs' E) as (_ & Hf).
    apply bracket_inv in B as (c & w & -> & _ & A & K & C & R).
    specialize (Hf R).
    assert (Bk : bracket_key (String c w) = true)
      by (simpl; rewrite A, K, C; reflexivity).
    simpl parsed_from. rewrite !(parsed_key_segment _ _ Bk), Hf. auto.
  - destruct (dotMatch (String a t)) as [[k r]|] eqn:D;
      [|discriminate].
    pose proof (dot_shorter _ _ _ D) as L.
    destruct (parsePath r) as [segs'|] eqn:E; [|discriminate].
    intros [= <-]. destruct (IH r L segs' E) as (_ & Hf).
    apply dot_inv in D as (Es & N & K & S & R).
    specialize (Hf R). simpl parsed_from. rewrite Hf, !andb_true_r.
    unfold parsedKey. destruct (test NUMERIC_KEY_REGEX k) eqn:Nm; [auto|].
    simpl. rewrite Nm, K. simpl.
    assert (Ne : negb (String.eqb k "") = true).
    { destruct k; [contradiction|reflexivity]. }
    rewrite Ne. simpl. split; [reflexivity|].
    intros A. change (all_chars any_char (String a t) = true) in A.
    pose proof (skip_dot_any _ A) as A'.
    rewrite Es, all_chars_app in A'. apply andb_prop in A' as [-> _].
    reflexivity.
Qed.




End RoundTrip.




(** * Properties of [setPath] *)

Section SetPathFacts.

Lemma own_put_same props k v : own (put props k v) k = Some v.
Proof.
  unfold own. induction props as [|[k' v'] t IH]; simpl.
  - rewrite String.eqb_refl. reflexivity.
  - destruct (String.eqb k' k) eqn:E; simpl.
    + rewrite String.eqb_refl. reflexivity.
    + rewrite E. exact IH.
Qed.

Lemma put_known props k v : own props k = Some v -> put props k v = props.
Proof.
  unfold own. induction props as [|[k' v'] t IH]; simpl; [discriminate|].
  destruct (String.eqb_spec k' k) as [->|].
  - intros [= ->]. reflexivity.
  - intros H. rewrite (IH H). reflexivity.
Qed.

Lemma put_absent props k v :
  own props k = None -> put props k v = (props ++ [(k, v)])%list.
Proof.
  unfold own. induction props as [|[k' v'] t IH]; simpl; [reflexivity|].
  destruct (String.eqb k' k); [discriminate|].
  intros H. rewrite (IH H). reflexivity.
Qed.

Lemma put_put props k v w : put (put props k v) k w = put props k w.
Proof.
  induction props as [|[k' v'] t IH]; simpl.
  - rewrite String.eqb_refl. reflexivity.
  - destruct (String.eqb k' k) eqn:E; simpl.
    + rewrite String.eqb_refl. reflexivity.
    + rewrite E, IH. reflexivity.
Qed.

Lemma has_property_false c props k :
  has_property c props k = false ->
  own props k = None /\ Builtins.lookup c k = None.
Proof.
  unfold has_property. destruct (own props k); [discriminate|].
  destruct (Builtins.lookup c k); [discriminate|auto].
Qed.

Lemma has_property_own c props k v :
  own props k = Some v -> has_property c props k = true.
Proof. unfold has_property. intros ->. reflexivity. Qed.

Lemma split_last_snoc l x : split_last (l ++ [x]) = Some (l, x).
Proof.
  induction l as [|y l IH]; simpl; [reflexivity|]. rewrite IH. reflexivity.
Qed.

(** One turn of the loop on a key that is present and holds an object. *)
Lemma navigate_into c props seg more last v c' child :
  own props (propertyKey seg) = Some (VObject c' child) ->
  navigate c props (seg :: more) last v
  = match navigate c' child more last v with
    | Returns child' =>
        Returns (put props (propertyKey seg) (VObject c' child'))
    | Throws e child' =>
        Throws e (put props (propertyKey seg) (VObject c' child'))
    | Exotic => Exotic
    end.
Proof.
  intros O. simpl. rewrite (has_property_own c _ _ _ O).
  unfold get_property. rewrite O. reflexivity.
Qed.

(** One turn of the loop on a key that is present and holds a primitive. *)
Lemma navigate_conflict c props seg more last v x :
  own props (propertyKey seg) = Some x -> primitive x = true ->
  navigate c props (seg :: more) last v
  = Throws (StructuralConflict seg (typeof x)) props.
Proof.
  intros O P. simpl. rewrite (has_property_own c _ _ _ O).
  unfold get_property. rewrite O.
  destruct x; try reflexivity. discriminate P.
Qed.

Lemma conflict_after_walk before :
  forall c props seg after last v c' cur x,
  walk c props before = Some (c', cur) ->
  own cur (propertyKey seg) = Some x -> primitive x = true ->
  navigate c props (before ++ seg :: after) last v
  = Throws (StructuralConflict seg (typeof x)) props.
Proof.
  induction before as [|s0 b IH]; intros c props seg after last v c' cur x W O P.
  - injection W as <- <-. exact (navigate_conflict _ _ _ _ _ _ _ O P).
  - cbn [walk] in W.
    destruct (own props (propertyKey s0)) as [[| | | | |c1 child]|] eqn:O0;
      try discriminate.
    change ((s0 :: b) ++ seg :: after)%list
      with (s0 :: (b ++ seg :: after))%list.
    rewrite (navigate_into _ _ _ _ _ _ _ _ O0).
    rewrite (IH _ _ _ _ _ _ _ _ _ W O P).
    rewrite (put_known _ _ _ O0). reflexivity.
Qed.

End SetPathFacts.

(** C3 (as amended).  When the descent, having followed existing objects,
    reaches a key that is present and holds a primitive ([undefined], [null],
    a boolean, a number or a string), [setPath] throws the conflict error
    for that segment and leaves the root as it was.  A value whose [typeof]
    is ["object"] is entered instead, and a file is such a value. *)
Theorem conflict_on_primitive
    (c : objclass) (root : properties) (before : list segment)
    (seg : segment) (after : list segment) (last : segment) (v : value)
    (c' : objclass) (cur : properties) (x : value) :
  walk c root before = Some (c', cur) ->
  own cur (propertyKey seg) = Some x ->
  primitive x = true ->
  setPathSegments c root (before ++ seg :: after ++ [last]) v
  = Throws (StructuralConflict seg (typeof x)) root.
Proof.
  intros W O P. unfold setPathSegments.
  change (before ++ seg :: after ++ [last])%list
    with (before ++ (seg :: after) ++ [last])%list.
  rewrite List.app_assoc, split_last_snoc.
  exact (conflict_after_walk _ _ _ _ _ _ _ _ _ _ W O P).
Qed.

Lemma conflict_on_primitive_witness :
  setPathSegments PlainObject
    [("user", VObject PlainObject [("config", VUndefined)])]
    ([Name "user"] ++ Name "config" :: [Name "database"] ++ [Name "host"])
    (VString "localhost")
  = Throws (StructuralConflict (Name "config") TUndefined)
      [("user", VObject PlainObject [("config", VUndefined)])].
Proof.
  apply (conflict_on_primitive PlainObject
           [("user", VObject PlainObject [("config", VUndefined)])]
           [Name "user"] (Name "config") [Name "database"] (Name "host")
           (VString "localhost") PlainObject [("config", VUndefined)]
           VUndefined); reflexivity.
Defined.

(** C3 (as stated) fails: a file is not a mapping or a sequence, yet its
    [typeof] is ["object"], so the descent goes through it and the call
    returns, having set a property on the file. *)
Lemma file_is_entered :
  own [("avatar", VObject (FileObject 0) [])] "avatar"
  = Some (VObject (FileObject 0) [])
  /\ is_container (VObject (FileObject 0) []) = false
  /\ setPath PlainObject [("avatar", VObject (FileObject 0) [])]
       "avatar.note" (VString "x")
     = Returns
         [("avatar", VObject (FileObject 0) [("note", VString "x")])].
Proof. repeat split; reflexivity. Qed.

(** C4 fails on the code.  The loop decides with [in] whether the key has
    an entry, and [in] also finds what the prototype provides: the root
    [{}] has no entry [toString], yet no container is made for it; what is
    read under the key is the inherited function, and the call throws the
    conflict error with the root still empty.  (The same test as in C7.) *)
Theorem inherited_key_gets_no_container (v : value) :
  stringToPathArray "toString.b" = [Name "toString"; Name "b"]
  /\ own [] "toString" = None
  /\ has_property PlainObject [] "toString" = true
  /\ setPath PlainObject [] "toString.b" v
     = Throws (StructuralConflict (Name "toString") TFunction) []
  /\ setPath PlainObject [] "toString.b" v
     <> Returns [("toString", VObject PlainObject [("b", v)])].
Proof. repeat split; try reflexivity. discriminate. Qed.

(** C7 fails on the code.  The presence test of the loop is [in], which
    also finds what the prototype provides: in the object just made for
    [a], the key [toString] counts as present, what is read there is a
    function, and the call throws after it has stored the new object in the
    root. *)
Theorem inherited_key_conflict_after_creation (v : value) :
  stringToPathArray "a.toString.b" = [Name "a"; Name "toString"; Name "b"]
  /\ has_property PlainObject [] "toString" = true
  /\ setPath PlainObject [] "a.toString.b" v
     = Throws (StructuralConflict (Name "toString") TFunction)
         [("a", VObject PlainObject [])]
  /\ [("a", VObject PlainObject [])] <> ([] : properties).
Proof. repeat split; try reflexivity. discriminate. Qed.

(** * Properties of the [formData] transform *)

Section Grouping.

Abbreviation keys := (map fst).

Lemma mem_app k l1 l2 :
  Builtins.mem k (l1 ++ l2)%list = Builtins.mem k l1 || Builtins.mem k l2.
Proof. unfold Builtins.mem. apply existsb_app. Qed.

Lemma mem_assoc {A} k (m : list (string * A)) :
  Builtins.mem k (keys m) = match Builtins.assoc k m with
                            | Some _ => true
                            | None => false
                            end.
Proof.
  induction m as [|[k' a] t IH]; simpl; [reflexivity|].
  rewrite (String.eqb_sym k k'). destruct (String.eqb k' k); simpl; auto.
Qed.

Lemma map_push_keys m k v : keys (map_push m k v) = add_key (keys m) k.
Proof.
  unfold add_key. induction m as [|[k' l] t IH]; simpl; [reflexivity|].
  rewrite (String.eqb_sym k k').
  destruct (String.eqb k' k); simpl; [reflexivity|].
  rewrite IH. destruct (Builtins.mem k (keys t)); reflexivity.
Qed.

Lemma group_keys_fold data m :
  keys (fold_left (fun map entry => map_push map (fst entry) (snd entry))
          data m)
  = fold_left add_key (keys data) (keys m).
Proof.
  revert m. induction data as [|[k v] d IH]; intros m; simpl; [reflexivity|].
  rewrite IH, map_push_keys. reflexivity.
Qed.

Lemma filter_twice {A} (p q : A -> bool) l :
  filter p (filter q l) = filter (fun x => q x && p x) l.
Proof.
  induction l as [|x l IH]; simpl; [reflexivity|].
  destruct (q x); simpl; [destruct (p x)|]; rewrite ?IH; reflexivity.
Qed.

Lemma add_keys_first_seen l :
  forall acc,
  fold_left add_key l acc
  = (acc ++ filter (fun k => negb (Builtins.mem k acc)) (first_seen l))%list.
Proof.
  induction l as [|k t IH]; intros acc; simpl.
  - rewrite app_nil_r. reflexivity.
  - rewrite IH, filter_twice. unfold add_key.
    destruct (Builtins.mem k acc) eqn:M; simpl.
    + f_equal. apply filter_ext. intros x.
      destruct (String.eqb_spec x k) as [->|]; simpl; [|reflexivity].
      rewrite M. reflexivity.
    + rewrite <- app_assoc. simpl. f_equal. f_equal.
      apply filter_ext. intros x. rewrite mem_app. simpl.
      rewrite orb_false_r, negb_orb, andb_comm. reflexivity.
Qed.

Lemma group_keys data : keys (group data) = first_seen (keys data).
Proof.
  unfold group. rewrite group_keys_fold, add_keys_first_seen. simpl.
  induction (first_seen (keys data)) as [|x l IH]; simpl; [|rewrite IH];
    reflexivity.
Qed.

Lemma map_push_held m k' v k :
  held k (map_push m k' v)
  = if String.eqb k' k then (held k m ++ [v])%list else held k m.
Proof.
  unfold held. induction m as [|[k0 l] t IH]; simpl.
  - destruct (String.eqb k' k); reflexivity.
  - destruct (String.eqb_spec k0 k') as [->|N]; simpl.
    + destruct (String.eqb k' k); reflexivity.
    + destruct (String.eqb_spec k0 k) as [->|]; [|exact IH].
      destruct (String.eqb_spec k' k) as [->|]; [contradiction|reflexivity].
Qed.

Lemma group_held_fold k data m :
  held k (fold_left (fun map entry => map_push map (fst entry) (snd entry))
            data m)
  = (held k m ++ values_of k data)%list.
Proof.
  unfold values_of.
  revert m. induction data as [|[k' v] d IH]; intros m; simpl.
  - rewrite app_nil_r. reflexivity.
  - rewrite IH, map_push_held.
    destruct (String.eqb k' k); simpl; [rewrite <- app_assoc|]; reflexivity.
Qed.

Lemma mem_filter_other k x f :
  k <> x ->
  Builtins.mem k (filter (fun k' => negb (String.eqb k' x)) f)
  = Builtins.mem k f.
Proof.
  intros N. unfold Builtins.mem.
  induction f as [|y f IH]; simpl; [reflexivity|].
  destruct (String.eqb_spec y x) as [->|]; simpl.
  - destruct (String.eqb_spec k x); [contradiction|]. exact IH.
  - rewrite IH. reflexivity.
Qed.

Lemma mem_first_seen k l : Builtins.mem k (first_seen l) = Builtins.mem k l.
Proof.
  induction l as [|x l IH]; simpl; [reflexivity|].
  destruct (String.eqb_spec k x) as [->|N]; simpl; [reflexivity|].
  rewrite (mem_filter_other _ _ _ N). exact IH.
Qed.

Lemma mem_In k l : Builtins.mem k l = true <-> In k l.
Proof.
  unfold Builtins.mem. rewrite existsb_exists. split.
  - intros (x & I & E). apply String.eqb_eq in E. subst. exact I.
  - intros I. exists k. split; [exact I|apply String.eqb_refl].
Qed.

Lemma group_values data k :
  In k (keys data) -> Builtins.assoc k (group data) = Some (values_of k data).
Proof.
  intros I. pose proof (group_held_fold k data []) as H.
  fold (group data) in H. unfold held in H. simpl in H.
  apply mem_In in I. rewrite <- mem_first_seen, <- group_keys, mem_assoc in I.
  destruct (Builtins.assoc k (group data)); [|discriminate].
  rewrite H. reflexivity.
Qed.

Lemma distinct_filter p f :
  distinct f = true -> distinct (filter p f) = true.
Proof.
  induction f as [|y f IH]; simpl; [reflexivity|].
  intros H. apply andb_prop in H as [Ny Df].
  destruct (p y); simpl; [|exact (IH Df)].
  rewrite (IH Df), andb_true_r.
  apply negb_true_iff. apply negb_true_iff in Ny.
  apply not_true_iff_false. intros M.
  apply mem_In, filter_In in M as [M _]. apply mem_In in M. congruence.
Qed.

Lemma distinct_first_seen l : distinct (first_seen l) = true.
Proof.
  induction l as [|x l IH]; simpl; [reflexivity|].
  apply andb_true_intro. split.
  - apply negb_true_iff. apply not_true_iff_false. intros M.
    apply mem_In, filter_In in M as [_ M].
    rewrite String.eqb_refl in M. discriminate.
  - apply distinct_filter. exact IH.
Qed.

End Grouping.

Section Aggregation.

Abbreviation keys := (map fst).

Lemma top_level_inv k :
  top_level_name k = true ->
  name_key k = true /\ Builtins.lookup PlainObject k = None.
Proof.
  unfold top_level_name, has_property. simpl.
  intros H. apply andb_prop in H as [N B]. split; [exact N|].
  destruct (Builtins.lookup PlainObject k); [discriminate B|reflexivity].
Qed.

Lemma name_path k : name_key k = true -> stringToPathArray k = [Name k].
Proof.
  intros H. destruct (name_key_inv _ H) as (N & K).
  destruct (dot_takes_key false k "" N K eq_refl eq_refl) as (B & D).
  cbv beta iota zeta in B, D. rewrite append_nil_r in B, D.
  apply nonempty_path_array; [exact N|].
  rewrite (parsePath_dot _ _ _ B D), parsePath_nil. simpl.
  rewrite (parsedKey_name _ H). reflexivity.
Qed.

Lemma setPath_top_level acc k v :
  top_level_name k = true ->
  setPath PlainObject acc k v = Returns (put acc k v).
Proof.
  intros H. destruct (top_level_inv _ H) as (N & B).
  unfold setPath, setPathSegments. rewrite (name_path _ N).
  cbn [split_last navigate propertyKey]. unfold assign.
  rewrite B. destruct (own acc k); reflexivity.
Qed.

Lemma has_top_level r k :
  top_level_name k = true ->
  has_property PlainObject r k = Builtins.mem k (keys r).
Proof.
  intros H. destruct (top_level_inv _ H) as (_ & B).
  unfold has_property, own. rewrite B, mem_assoc.
  destruct (Builtins.assoc k r); reflexivity.
Qed.

Lemma build_top_level m :
  forall acc, forallb top_level_name (keys m) = true ->
  build acc m = Returns (written acc m).
Proof.
  unfold written. induction m as [|[k l] t IH]; intros acc; simpl.
  - reflexivity.
  - intros H. apply andb_prop in H as [Hk Ht].
    rewrite (setPath_top_level _ _ _ Hk). exact (IH _ Ht).
Qed.

Lemma own_absent r k : Builtins.mem k (keys r) = false -> own r k = None.
Proof.
  unfold own. rewrite mem_assoc. destruct (Builtins.assoc k r);
    [discriminate|reflexivity].
Qed.

(** Writing groups with distinct keys, none of them present, appends them
    in order. *)
Lemma written_distinct m :
  forall acc, distinct (keys m) = true ->
  forallb (fun k => negb (Builtins.mem k (keys acc))) (keys m) = true ->
  written acc m
  = (acc ++ map (fun entry => (fst entry, collapse (snd entry))) m)%list.
Proof.
  unfold written. induction m as [|[k l] t IH]; intros acc; simpl.
  - rewrite app_nil_r. reflexivity.
  - intros D F. apply andb_prop in D as [Dk Dt].
    apply andb_prop in F as [Fk Ft]. apply negb_true_iff in Fk.
    rewrite (put_absent _ _ _ (own_absent _ _ Fk)).
    rewrite IH; [rewrite <- app_assoc; reflexivity|exact Dt|].
    rewrite forallb_forall in Ft |- *. intros x I.
    rewrite map_app, mem_app. simpl. rewrite orb_false_r.
    specialize (Ft x I). apply negb_true_iff in Ft. rewrite Ft. simpl.
    destruct (String.eqb_spec x k) as [->|]; [|reflexivity].
    apply negb_true_iff in Dk. apply mem_In in I. congruence.
Qed.

(** Backfilling distinct top-level names appends those that are absent. *)
Lemma backfill_top_level shapeKeys :
  forall r, forallb top_level_name shapeKeys = true ->
  distinct shapeKeys = true ->
  backfill r shapeKeys = Returns (r ++ absent r shapeKeys)%list.
Proof.
  unfold absent. induction shapeKeys as [|k t IH]; intros r; simpl.
  - rewrite app_nil_r. reflexivity.
  - intros T D. apply andb_prop in T as [Tk Tt].
    apply andb_prop in D as [Dk Dt].
    rewrite (has_top_level _ _ Tk).
    destruct (Builtins.mem k (keys r)) eqn:M; simpl; [exact (IH _ Tt Dt)|].
    rewrite (setPath_top_level _ _ _ Tk), (put_absent _ _ _ (own_absent _ _ M)).
    rewrite (IH _ Tt Dt), <- app_assoc. simpl. do 4 f_equal.
    apply filter_ext_in. intros x I. rewrite map_app, mem_app. simpl.
    rewrite orb_false_r.
    destruct (String.eqb_spec x k) as [->|]; [|rewrite orb_false_r; reflexivity].
    apply negb_true_iff in Dk. apply mem_In in I. congruence.
Qed.

Lemma collapsed_keys data : keys (collapsed data) = first_seen (keys data).
Proof.
  unfold collapsed. rewrite map_map. simpl.
  change (map (fun x : string * list value => fst x) (group data))
    with (keys (group data)).
  apply group_keys.
Qed.

Lemma forallb_first_seen p l :
  forallb p l = true -> forallb p (first_seen l) = true.
Proof.
  intros H. rewrite forallb_forall in H |- *. intros x I.
  apply H. apply mem_In. rewrite <- mem_first_seen. apply mem_In. exact I.
Qed.

Lemma formData_top_level shapeKeys data :
  forallb top_level_name (keys data) = true ->
  forallb top_level_name shapeKeys = true ->
  distinct shapeKeys = true ->
  formData shapeKeys data
  = Returns (collapsed data ++ missing shapeKeys data)%list.
Proof.
  intros Td Ts Ds. unfold formData.
  rewrite build_top_level
    by (rewrite group_keys; apply forallb_first_seen; exact Td).
  rewrite written_distinct; simpl.
  - fold (collapsed data). rewrite (backfill_top_level _ _ Ts Ds).
    unfold missing, absent. do 3 f_equal. apply filter_ext. intros k.
    rewrite collapsed_keys, mem_first_seen. reflexivity.
  - rewrite group_keys. apply distinct_first_seen.
  - apply forallb_forall. reflexivity.
Qed.

End Aggregation.

(** X23.  The entries are grouped by key, the keys in the order in which
    they are first seen and the values of a key in arrival order; a group of
    one value collapses to that value and a longer one to the array of its
    values; the groups are written into one accumulator.  When the declared
    keys are distinct top-level names (names of dot notation that
    [Object.prototype] does not provide), those that the accumulator does
    not have are added to it with [undefined], in their order; when the
    keys of the entries are top-level names too, the accumulator holds each
    collapsed group under its key; so it is for the entries of John. *)
Theorem aggregation_of_entries
    (shapeKeys : list string) (data : list (string * value)) :
  forallb top_level_name shapeKeys = true ->
  distinct shapeKeys = true ->
  map fst (group data) = first_seen (map fst data)
  /\ (forall k, In k (map fst data) ->
        Builtins.assoc k (group data) = Some (values_of k data))
  /\ (forall v, collapse [v] = v)
  /\ (forall v w l, collapse (v :: w :: l) = array_of (v :: w :: l))
  /\ (forall acc, build [] (group data) = Returns acc ->
        formData shapeKeys data = Returns (acc ++ absent acc shapeKeys)%list)
  /\ (forallb top_level_name (map fst data) = true ->
        formData shapeKeys data
        = Returns (collapsed data ++ missing shapeKeys data)%list)
  /\ formData ["name"; "hobbies"; "bio"]
       [("name", VString "John"); ("hobbies", VString "a");
        ("hobbies", VString "b")]
     = Returns
         [("name", VString "John");
          ("hobbies", VObject ArrayObject
                        [("0", VString "a"); ("1", VString "b")]);
          ("bio", VUndefined)].
Proof.
  intros Ts Ds.
  split; [apply group_keys|].
  split; [intros k; apply group_values|].
  split; [reflexivity|]. split; [reflexivity|].
  split; [|split; [|reflexivity]].
  - intros acc B. unfold formData. rewrite B.
    exact (backfill_top_level _ _ Ts Ds).
  - intros Td. exact (formData_top_level _ _ Td Ts Ds).
Qed.

Lemma aggregation_of_entries_witness :
  formData ["name"; "hobbies"; "bio"]
    [("name", VString "John"); ("hobbies", VString "a");
     ("hobbies", VString "b")]
  = Returns
      (collapsed [("name", VString "John"); ("hobbies", VString "a");
                  ("hobbies", VString "b")]
       ++ missing ["name"; "hobbies"; "bio"]
            [("name", VString "John"); ("hobbies", VString "a");
             ("hobbies", VString "b")])%list.
Proof.
  destruct (aggregation_of_entries ["name"; "hobbies"; "bio"]
              [("name", VString "John"); ("hobbies", VString "a");
               ("hobbies", VString "b")] eq_refl eq_refl)
    as (_ & _ & _ & _ & _ & H & _).
  exact (H eq_refl).
Defined.

(** C5 fails on the code.  The backfill decides with [in] whether a
    declared key is present, and [in] also finds what the prototype
    provides: a declared key that [Object.prototype] has, such as
    [toString], is skipped whatever the entries are, so that with no entry
    at all the result is the empty object, without the declared key.  On
    the entries of John the result is the one the claim gives. *)
Theorem inherited_declared_key_not_backfilled :
  (forall acc k rest,
     own acc k = None -> Builtins.lookup PlainObject k <> None ->
     backfill acc (k :: rest) = backfill acc rest)
  /\ Builtins.lookup PlainObject "toString" = Some Builtins.Method
  /\ formData ["toString"] [] = Returns []
  /\ own [] "toString" = None
  /\ formData ["toString"] [] <> Returns [("toString", VUndefined)]
  /\ formData ["name"; "hobbies"; "bio"]
       [("name", VString "John"); ("hobbies", VString "a");
        ("hobbies", VString "b")]
     = Returns
         [("name", VString "John");
          ("hobbies", VObject ArrayObject
                        [("0", VString "a"); ("1", VString "b")]);
          ("bio", VUndefined)].
Proof.
  split; [|repeat split; try reflexivity; discriminate].
  intros acc k rest O L. cbn [backfill]. unfold has_property. rewrite O.
  destruct (Builtins.lookup PlainObject k); [reflexivity|contradiction].
Qed.

Section NestedBackfill.

(** No built-in member has a dot in its name. *)
Lemma lookup_dotted k :
  contains "." k = true -> Builtins.lookup PlainObject k = None.
Proof.
  intros H. unfold Builtins.lookup, Builtins.mem, Builtins.Object_prototype.
  cbn [existsb].
  repeat match goal with
         | |- context [String.eqb k ?n] =>
             destruct (String.eqb_spec k n) as [E|_];
             [rewrite E in H; vm_compute in H; discriminate H|]
         end.
  reflexivity.
Qed.

Lemma dotted_pair_path a b :
  name_key a = true -> name_key b = true -> all_chars any_char b = true ->
  stringToPathArray (a ++ "." ++ b) = [Name a; Name b].
Proof.
  intros Ha Hb Ab.
  destruct (name_key_inv _ Ha) as (Na & Ka).
  destruct (name_key_inv _ Hb) as (Nb & Kb).
  apply nonempty_path_array; [apply append_nonempty, Na|].
  destruct (dot_takes_key false a ("." ++ b) Na Ka eq_refl) as (B1 & D1);
    [exact Ab|].
  destruct (dot_takes_key true b "" Nb Kb eq_refl eq_refl) as (B2 & D2).
  cbv beta iota zeta in B1, D1, B2, D2. rewrite append_nil_r in B2, D2.
  rewrite (parsePath_dot _ _ _ B1 D1).
  change ("." ++ b) with (String "." b).
  rewrite (parsePath_dot _ _ _ B2 D2), parsePath_nil. simpl.
  rewrite (parsedKey_name _ Ha), (parsedKey_name _ Hb). reflexivity.
Qed.

Lemma contains_dotted a b : contains "." (a ++ "." ++ b) = true.
Proof. rewrite contains_app. simpl. apply orb_true_r. Qed.

End NestedBackfill.

(** C6.  A declared key with a dot is looked up in the accumulator as it is
    written, dot included, so it is found absent even when earlier entries
    have filled the place it denotes; the backfill then runs [setPath] along
    the parsed key and replaces the value stored there by [undefined]. *)
Theorem backfill_overwrites_nested
    (acc : properties) (a b : string) (c : objclass) (child : properties)
    (x : value) :
  name_key a = true -> name_key b = true -> all_chars any_char b = true ->
  own acc a = Some (VObject c child) ->
  own child b = Some x ->
  own acc (a ++ "." ++ b) = None ->
  has_property PlainObject acc (a ++ "." ++ b) = false
  /\ backfill acc [a ++ "." ++ b]
     = Returns (put acc a (VObject c (put child b VUndefined)))
  /\ formData ["address.street"] [("address.street", VString "X")]
     = Returns [("address", VObject PlainObject [("street", VUndefined)])].
Proof.
  intros Ha Hb Ab Oa Ob Od.
  assert (H : has_property PlainObject acc (a ++ "." ++ b) = false).
  { unfold has_property. rewrite Od, (lookup_dotted _ (contains_dotted a b)).
    reflexivity. }
  split; [exact H|]. split; [|reflexivity].
  cbn [backfill]. rewrite H.
  unfold setPath, setPathSegments. rewrite (dotted_pair_path _ _ Ha Hb Ab).
  cbn [split_last].
  rewrite (navigate_into _ _ (Name a) _ _ _ _ _ Oa).
  cbn [navigate propertyKey]. unfold assign. rewrite Ob. reflexivity.
Qed.

Lemma backfill_overwrites_nested_witness :
  backfill [("address", VObject PlainObject [("street", VString "X")])]
    ["address" ++ "." ++ "street"]
  = Returns
      (put [("address", VObject PlainObject [("street", VString "X")])]
         "address"
         (VObject PlainObject
            (put [("street", VString "X")] "street" VUndefined))).
Proof.
  apply (backfill_overwrites_nested
           [("address", VObject PlainObject [("street", VString "X")])]
           "address" "street" PlainObject [("street", VString "X")]
           (VString "X")); reflexivity.
Defined.

(** * Agreement with the tests of the package *)

Section PackageTests.

Let obj (props : properties) : value := VObject PlainObject props.
Let arr (props : properties) : value := VObject ArrayObject props.

Example test_bracket_notation :
  stringToPathArray "" = []
  /\ stringToPathArray "[key]" = [Name "key"]
  /\ stringToPathArray "[0][1][2]" = [Index 0; Index 1; Index 2]
  /\ stringToPathArray "[users][0][name]" = [Name "users"; Index 0; Name "name"]
  /\ stringToPathArray "[123][456]" = [Index 123; Index 456]
  /\ stringToPathArray "[user1][item2a]" = [Name "user1"; Name "item2a"]
  /\ stringToPathArray "[user-name][first_name]"
     = [Name "user-name"; Name "first_name"].
Proof. repeat split; reflexivity. Qed.

Example test_dot_notation :
  stringToPathArray "name" = [Name "name"]
  /\ stringToPathArray ".name" = [Name "name"]
  /\ stringToPathArray "user.profile.name"
     = [Name "user"; Name "profile"; Name "name"]
  /\ stringToPathArray ".user.profile.name"
     = [Name "user"; Name "profile"; Name "name"]
  /\ stringToPathArray "user.123.name" = [Name "user"; Index 123; Name "name"]
  /\ stringToPathArray "user_name.first-name"
     = [Name "user_name"; Name "first-name"].
Proof. repeat split; reflexivity. Qed.

Example test_mixed_notation :
  stringToPathArray "users[0].profile.name"
  = [Name "users"; Index 0; Name "profile"; Name "name"]
  /\ stringToPathArray "[0].title" = [Index 0; Name "title"]
  /\ stringToPathArray "users.0[name]" = [Name "users"; Index 0; Name "name"]
  /\ stringToPathArray "data.items[0].metadata[config].value"
     = [Name "data"; Name "items"; Index 0; Name "metadata"; Name "config";
        Name "value"]
  /\ stringToPathArray "[users].profile.settings"
     = [Name "users"; Name "profile"; Name "settings"].
Proof. repeat split; reflexivity. Qed.

Example test_invalid_syntax :
  stringToPathArray "invalid[[path" = [Name "invalid[[path"]
  /\ stringToPathArray "test]]" = [Name "test]]"]
  /\ stringToPathArray "[]" = [Name "[]"]
  /\ stringToPathArray "[unclosed" = [Name "[unclosed"]
  /\ stringToPathArray "unopened]" = [Name "unopened]"]
  /\ stringToPathArray "[user.name" = [Name "[user.name"]
  /\ stringToPathArray "valid.[[invalid" = [Name "valid.[[invalid"]
  /\ stringToPathArray "user[].name" = [Name "user[].name"].
Proof. repeat split; reflexivity. Qed.

(** Each of them is broken in the sense of the fallback theorem. *)
Example test_invalid_syntax_broken :
  forallb broken_brackets
    [ "invalid[[path"; "test]]"; "[]"; "[unclosed"; "unopened]";
      "[user.name"; "valid.[[invalid"; "user[].name" ] = true.
Proof. reflexivity. Qed.

Example test_setPath_objects :
  setPath PlainObject [] "user.profile.name" (VString "John")
  = Returns [("user", obj [("profile", obj [("name", VString "John")])])]
  /\ setPath PlainObject [("name", VString "John")] "name" (VString "Jane")
     = Returns [("name", VString "Jane")]
  /\ setPath PlainObject [] "config[database][host]" (VString "localhost")
     = Returns
         [("config", obj [("database", obj [("host", VString "localhost")])])].
Proof. repeat split; reflexivity. Qed.

Example test_setPath_arrays :
  setPath PlainObject [] "users[0].name" (VString "Alice")
  = Returns [("users", arr [("0", obj [("name", VString "Alice")])])]
  /\ setPath PlainObject [] "items[2]" (VString "third")
     = Returns [("items", arr [("2", VString "third")])]
  /\ setPath PlainObject [] "data.0" (VString "zero")
     = Returns [("data", arr [("0", VString "zero")])]
  /\ setPath PlainObject [("users", arr [("0", VString "Alice")])] "users[1]"
       (VString "Bob")
     = Returns [("users", arr [("0", VString "Alice"); ("1", VString "Bob")])].
Proof. repeat split; reflexivity. Qed.

Example test_setPath_errors :
  setPath PlainObject [] "" (VString "value") = Throws EmptyPath []
  /\ setPath PlainObject [("user", VString "string value")] "user.name"
       (VString "John")
     = Throws (StructuralConflict (Name "user") TString)
         [("user", VString "string value")]
  /\ setPath PlainObject [("user", VNull)] "user.name" (VString "John")
     = Throws (StructuralConflict (Name "user") TObject) [("user", VNull)]
  /\ setPath PlainObject [("config", VUndefined)] "config.database.host"
       (VString "localhost")
     = Throws (StructuralConflict (Name "config") TUndefined)
         [("config", VUndefined)]
  /\ setPath PlainObject [("count", VNumber 42)] "count.value" (VString "test")
     = Throws (StructuralConflict (Name "count") TNumber)
         [("count", VNumber 42)].
Proof. repeat split; reflexivity. Qed.

Example test_formData_nested :
  formData ["name"; "address"]
    [("name", VString "John"); ("address.street", VString "123 Main St");
     ("address.city", VString "Anytown")]
  = Returns
      [("name", VString "John");
       ("address", obj [("street", VString "123 Main St");
                        ("city", VString "Anytown")])]
  /\ formData ["locations"]
       [("locations.0.country", VString "USA");
        ("locations.0.city", VString "New York");
        ("locations.1.country", VString "Canada");
        ("locations.1.city", VString "Toronto")]
     = Returns
         [("locations",
           arr [("0", obj [("country", VString "USA");
                           ("city", VString "New York")]);
                ("1", obj [("country", VString "Canada");
                           ("city", VString "Toronto")])])]
  /\ formData ["optionalText"] [("other", VString "value")]
     = Returns [("other", VString "value"); ("optionalText", VUndefined)].
Proof. repeat split; reflexivity. Qed.

End PackageTests.

(** * Further properties of the parser *)

Section MoreParser.

Lemma parsePath_cons c t segs :
  parsePath (String c t) = Some segs -> segs <> [].
Proof.
  rewrite parsePath_eq. unfold parsePath_body.
  destruct (bracketMatch (String c t)) as [[k r]|].
  - destruct (parsePath r); [intros [= <-]|]; discriminate.
  - destruct (dotMatch (String c t)) as [[k r]|]; [|discriminate].
    destruct (parsePath r); [intros [= <-]|]; discriminate.
Qed.

Lemma numeric_parses d :
  test NUMERIC_KEY_REGEX d = true -> parsePath d = Some [parsedKey d].
Proof.
  intros H. destruct (numeric_inv _ H) as (N & _ & K & _ & _).
  destruct (dot_takes_key false d "" N K eq_refl eq_refl) as (B & D).
  cbv beta iota zeta in B, D. rewrite append_nil_r in B, D.
  rewrite (parsePath_dot _ _ _ B D), parsePath_nil. reflexivity.
Qed.

(** The names of parsed segments. *)
Lemma parsed_from_names first segs k :
  parsed_from first segs = true -> In (Name k) segs ->
  k <> "" /\ test NUMERIC_KEY_REGEX k = false.
Proof.
  revert first. induction segs as [|seg t IH]; intros first; simpl.
  - intros _ [].
  - intros H [E|I]; apply andb_prop in H as [Hs Ht]; [|exact (IH _ Ht I)].
    subst seg. simpl in Hs. apply andb_prop in Hs as [Hn Hs].
    apply negb_true_iff in Hn. split; [|exact Hn].
    intros ->. simpl in Hs. discriminate Hs.
Qed.

Lemma concat_parses a :
  forall sa, parsePath a = Some sa ->
  forall b sb, parsePath b = Some sb ->
  key_stops b = true -> all_chars any_char b = true ->
  parsePath (a ++ b) = Some (sa ++ sb)%list.
Proof.
  induction a as [a IH] using parse_ind. intros sa Pa b sb Pb Sb Ab.
  destruct a as [|c t].
  - rewrite parsePath_nil in Pa. injection Pa as <-. exact Pb.
  - rewrite parsePath_eq in Pa. unfold parsePath_body in Pa.
    destruct (bracketMatch (String c t)) as [[k r]|] eqn:B.
    + pose proof (bracket_shorter _ _ _ B) as L.
      destruct (parsePath r) as [sr|] eqn:Pr; [|discriminate].
      injection Pa as <-.
      apply bracket_inv in B as (c' & w & -> & E & A & K & C & R).
      rewrite E. cbn [append]. rewrite append_assoc. cbn [append].
      assert (R' : rest_matches (r ++ b) = true)
        by (unfold rest_matches in *; rewrite all_chars_app, R, Ab;
            reflexivity).
      rewrite (parsePath_bracket _ _ _ (bracket_intro c' w (r ++ b) A K C R')).
      rewrite (IH r L sr Pr b sb Pb Sb Ab). reflexivity.
    + destruct (dotMatch (String c t)) as [[k r]|] eqn:D; [|discriminate].
      pose proof (dot_shorter _ _ _ D) as L.
      destruct (parsePath r) as [sr|] eqn:Pr; [|discriminate].
      injection Pa as <-.
      apply dot_inv in D as (Es & N & K & S & R).
      assert (R' : rest_matches (r ++ b) = true)
        by (unfold rest_matches in *; rewrite all_chars_app, R, Ab;
            reflexivity).
      assert (S' : key_stops (r ++ b) = true)
        by (destruct r; [exact Sb|exact S]).
      assert (O : Ascii.eqb c "[" = false).
      { simpl in Es. destruct (Ascii.eqb_spec c ".") as [->|]; [reflexivity|].
        destruct k as [|d k]; [contradiction|]. injection Es as -> _.
        simpl in K. apply andb_prop in K as [K _].
        exact (key_char_not_open _ K). }
      change (String c t ++ b) with (String c (t ++ b)).
      assert (Es' : skip_dot (String c (t ++ b)) = k ++ (r ++ b)).
      { cbn [skip_dot]. simpl in Es.
        destruct (Ascii.eqb c ".").
        - rewrite Es, append_assoc. reflexivity.
        - change (String c (t ++ b)) with (String c t ++ b).
          rewrite Es, append_assoc. reflexivity. }
      rewrite (parsePath_dot _ _ _ (bracket_none_head c (t ++ b) O)
                 (dot_intro _ _ _ Es' N K S' R')).
      rewrite (IH r L sr Pr b sb Pb Sb Ab). reflexivity.
Qed.

Lemma leading_zero_Number d : Number (String "0" d) = Number d.
Proof.
  unfold Number, Double.of_digits. cbn [NilEmpty.uint_of_string].
  destruct (NilEmpty.uint_of_string d); reflexivity.
Qed.

End MoreParser.

Section MoreParserPaths.

Lemma dotted_index_path a d :
  name_key a = true -> test NUMERIC_KEY_REGEX d = true ->
  stringToPathArray (a ++ "." ++ d) = [Name a; Index (Number d)].
Proof.
  intros Ha Hd.
  destruct (name_key_inv _ Ha) as (Na & Ka).
  destruct (numeric_inv _ Hd) as (Nd & _ & Kd & Ad & _).
  apply nonempty_path_array; [apply append_nonempty, Na|].
  destruct (dot_takes_key false a ("." ++ d) Na Ka eq_refl) as (B1 & D1);
    [exact Ad|].
  destruct (dot_takes_key true d "" Nd Kd eq_refl eq_refl) as (B2 & D2).
  cbv beta iota zeta in B1, D1, B2, D2. rewrite append_nil_r in B2, D2.
  rewrite (parsePath_dot _ _ _ B1 D1).
  change ("." ++ d) with (String "." d).
  rewrite (parsePath_dot _ _ _ B2 D2), parsePath_nil. simpl.
  rewrite (parsedKey_name _ Ha). unfold parsedKey. rewrite Hd. reflexivity.
Qed.

Lemma numeric_leading_zero d :
  test NUMERIC_KEY_REGEX d = true ->
  test NUMERIC_KEY_REGEX (String "0" d) = true.
Proof.
  rewrite !test_numeric. destruct d as [|c t]; [discriminate|].
  intros H. exact H.
Qed.

End MoreParserPaths.

(** X1.  The parser gives no segment at all only for the empty path; every
    other path has at least one segment, so [setPath] finds a last segment
    for it. *)
Theorem no_segments_only_for_empty_path (path : string) :
  stringToPathArray path = [] <-> path = "".
Proof.
  split; [|intros ->; reflexivity].
  unfold stringToPathArray. destruct path as [|c t]; [reflexivity|].
  destruct (parsePath (String c t)) as [segs|] eqn:E; [|discriminate].
  intros ->. exfalso. exact (parsePath_cons _ _ _ E eq_refl).
Qed.

(** X2.  A name among the segments of a path is never empty and never a
    run of digits, whether the path parsed or fell back: digits always come
    out as an index. *)
Theorem names_are_not_numbers (path key : string) :
  In (Name key) (stringToPathArray path) ->
  key <> "" /\ test NUMERIC_KEY_REGEX key = false.
Proof.
  unfold stringToPathArray. destruct path as [|c t]; [intros []|].
  destruct (parsePath (String c t)) as [segs|] eqn:E.
  - destruct (parse_parsed _ _ E) as (V & _).
    exact (parsed_from_names _ _ _ V).
  - intros [[= <-]|[]]. split; [discriminate|].
    destruct (test NUMERIC_KEY_REGEX (String c t)) eqn:Nm; [|reflexivity].
    rewrite (numeric_parses _ Nm) in E. discriminate E.
Qed.

Lemma names_are_not_numbers_witness :
  In (Name "name") (stringToPathArray "users.0.name")
  /\ "name" <> "" /\ test NUMERIC_KEY_REGEX "name" = false.
Proof.
  assert (I : In (Name "name") (stringToPathArray "users.0.name"))
    by (right; right; left; reflexivity).
  split; [exact I|].
  exact (names_are_not_numbers "users.0.name" "name" I).
Defined.

(** X3.  Paths compose: when [a] and [b] both parse, [b] holds no line
    terminator and starts with a dot or a bracket (or is empty), the path
    [a ++ b] parses to the segments of [a] followed by those of [b]. *)
Theorem paths_compose (a b : string) (sa sb : list segment) :
  parsePath a = Some sa -> parsePath b = Some sb ->
  key_stops b = true -> all_chars any_char b = true ->
  parsePath (a ++ b) = Some (sa ++ sb)%list
  /\ stringToPathArray (a ++ b)
     = (stringToPathArray a ++ stringToPathArray b)%list.
Proof.
  intros Pa Pb Sb Ab.
  pose proof (concat_parses a sa Pa b sb Pb Sb Ab) as P.
  split; [exact P|].
  assert (T : forall s segs, parsePath s = Some segs ->
                             stringToPathArray s = segs).
  { intros s segs E. unfold stringToPathArray. rewrite E.
    destruct s; [|reflexivity].
    rewrite parsePath_nil in E. injection E as <-. reflexivity. }
  rewrite (T _ _ P), (T _ _ Pa), (T _ _ Pb). reflexivity.
Qed.

Lemma paths_compose_witness :
  stringToPathArray ("users[0]" ++ ".profile[name]")
  = (stringToPathArray "users[0]" ++ stringToPathArray ".profile[name]")%list.
Proof.
  apply (paths_compose "users[0]" ".profile[name]"
           [Name "users"; Index 0] [Name "profile"; Name "name"]);
    reflexivity.
Defined.

(** X4.  One dot in front of a path that starts with a key changes
    nothing in what is parsed. *)
Theorem leading_dot_is_skipped (path : string) :
  key_stops path = false ->
  parsePath (String "." path) = parsePath path.
Proof.
  intros S. destruct path as [|c t]; [discriminate S|].
  simpl in S. apply negb_false_iff in S.
  rewrite (parsePath_eq (String "." (String c t))), (parsePath_eq (String c t)).
  unfold parsePath_body.
  rewrite (bracket_none_head "." (String c t) eq_refl).
  rewrite (bracket_none_head c t (key_char_not_open _ S)).
  rewrite !dotMatch_direct. unfold dot_captures. cbn [skip_dot].
  rewrite (key_char_not_dot _ S). reflexivity.
Qed.

Lemma leading_dot_is_skipped_witness :
  parsePath ".user.profile" = parsePath "user.profile".
Proof. apply (leading_dot_is_skipped "user.profile"). reflexivity. Defined.

(** X5.  Zeros in front of an index do not count: a run of digits with a
    zero before it is the same index, so both spellings of a path reach the
    same place. *)
Theorem leading_zero_same_index (a d : string) :
  name_key a = true -> test NUMERIC_KEY_REGEX d = true ->
  parsedKey (String "0" d) = parsedKey d
  /\ stringToPathArray (a ++ "." ++ String "0" d)
     = stringToPathArray (a ++ "." ++ d)
  /\ (forall c root v,
        setPath c root (a ++ "." ++ String "0" d) v
        = setPath c root (a ++ "." ++ d) v).
Proof.
  intros Ha Hd. pose proof (numeric_leading_zero _ Hd) as Hz.
  assert (E : stringToPathArray (a ++ "." ++ String "0" d)
              = stringToPathArray (a ++ "." ++ d)).
  { rewrite (dotted_index_path _ _ Ha Hz), (dotted_index_path _ _ Ha Hd).
    rewrite leading_zero_Number. reflexivity. }
  split; [|split; [exact E|]].
  - unfold parsedKey. rewrite Hz, Hd, leading_zero_Number. reflexivity.
  - intros c root v. unfold setPath. rewrite E. reflexivity.
Qed.

Lemma leading_zero_same_index_witness :
  stringToPathArray ("items" ++ "." ++ String "0" "1")
  = stringToPathArray ("items" ++ "." ++ "1").
Proof.
  apply (leading_zero_same_index "items" "1"); reflexivity.
Defined.

(** * Further properties of [setPath] *)


Section MoreSetPath.

Lemma own_put_other props k v k' :
  k' <> k -> own (put props k v) k' = own props k'.
Proof.
  intros N. unfold own. induction props as [|[k0 v0] t IH]; simpl.
  - destruct (String.eqb_spec k k'); [congruence|reflexivity].
  - destruct (String.eqb_spec k0 k) as [->|]; simpl.
    + destruct (String.eqb_spec k k'); [congruence|reflexivity].
    + destruct (String.eqb k0 k'); [reflexivity|exact IH].
Qed.

Lemma assign_returns c props k v props' :
  assign c props k v = Returns props' -> props' = put props k v.
Proof.
  unfold assign. destruct (own props k).
  - intros [= <-]. reflexivity.
  - destruct (Builtins.lookup c k) as [[]|]; try discriminate;
      intros [= <-]; reflexivity.
Qed.

Lemma assign_never_throws c props k v e props' :
  assign c props k v <> Throws e props'.
Proof.
  unfold assign. destruct (own props k); [discriminate|].
  destruct (Builtins.lookup c k) as [[]|]; discriminate.
Qed.

(** The outcome of the final assignment does not depend on the value. *)
Lemma assign_any_value c props k v w props' :
  assign c props k v = Returns props' ->
  assign c props k w = Returns (put props k w).
Proof.
  unfold assign. destruct (own props k); [reflexivity|].
  destruct (Builtins.lookup c k) as [[]|]; try discriminate; reflexivity.
Qed.

Lemma navigate_step c props seg more last v :
  navigate c props (seg :: more) last v
  = match get_property c (prepared c props seg more last) (propertyKey seg) with
    | Value (VObject c' child) =>
        match navigate c' child more last v with
        | Returns child' =>
            Returns (put (prepared c props seg more last) (propertyKey seg)
                       (VObject c' child'))
        | Throws e child' =>
            Throws e (put (prepared c props seg more last) (propertyKey seg)
                        (VObject c' child'))
        | Exotic => Exotic
        end
    | Value nextValue =>
        Throws (StructuralConflict seg (typeof nextValue))
          (prepared c props seg more last)
    | Builtin ty =>
        Throws (StructuralConflict seg ty) (prepared c props seg more last)
    | Absent =>
        Throws (StructuralConflict seg TUndefined)
          (prepared c props seg more last)
    | Prototype => Exotic
    end.
Proof. destruct more; reflexivity. Qed.

(** What one turn of the loop that returns has done. *)
Lemma navigate_returns c props seg more last v props' :
  navigate c props (seg :: more) last v = Returns props' ->
  exists c' child child',
    own (prepared c props seg more last) (propertyKey seg)
    = Some (VObject c' child)
    /\ navigate c' child more last v = Returns child'
    /\ props' = put (prepared c props seg more last) (propertyKey seg)
                  (VObject c' child').
Proof.
  rewrite navigate_step. unfold get_property.
  destruct (own (prepared c props seg more last) (propertyKey seg))
    as [x|] eqn:O.
  - destruct x as [| | | | |c' child]; try discriminate.
    destruct (navigate c' child more last v) as [child'| |] eqn:Nv;
      try discriminate.
    intros [= <-]. exists c', child, child'. auto.
  - destruct (Builtins.lookup c (propertyKey seg)) as [[]|]; discriminate.
Qed.

Lemma navigate_read lead :
  forall c props last v props',
  navigate c props lead last v = Returns props' ->
  exists c' cur, walk c props' lead = Some (c', cur)
                 /\ own cur (propertyKey last) = Some v.
Proof.
  induction lead as [|seg more IH]; intros c props last v props' H.
  - apply assign_returns in H. subst props'.
    exists c, (put props (propertyKey last) v).
    split; [reflexivity|apply own_put_same].
  - apply navigate_returns in H as (c' & child & child' & _ & Nv & ->).
    destruct (IH _ _ _ _ _ Nv) as (c2 & cur & W & O).
    exists c2, cur. split; [|exact O].
    cbn [walk]. rewrite own_put_same. exact W.
Qed.

Lemma prepared_frame c props seg more last k' :
  k' <> propertyKey seg ->
  own (prepared c props seg more last) k' = own props k'.
Proof.
  intros N. unfold prepared.
  destruct (has_property c props (propertyKey seg)); [reflexivity|].
  apply own_put_other. exact N.
Qed.

Lemma navigate_frame lead :
  forall c props last v props',
  object_after (navigate c props lead last v) = Some props' ->
  forall k', k' <> propertyKey (hd last lead) -> own props' k' = own props k'.
Proof.
  intros c props last v props' H k' N.
  destruct lead as [|seg more]; cbn [hd] in N.
  - cbn [navigate] in H.
    destruct (assign c props (propertyKey last) v) as [o|e o|] eqn:A;
      try discriminate.
    + injection H as <-. apply assign_returns in A. subst o.
      apply own_put_other. exact N.
    + exfalso. exact (assign_never_throws _ _ _ _ _ _ A).
  - rewrite navigate_step in H.
    rewrite <- (prepared_frame c props seg more last k' N).
    destruct (get_property c (prepared c props seg more last)
                (propertyKey seg)) as [[| | | | |c' child]| | |];
      try (injection H as <-; reflexivity); try discriminate.
    destruct (navigate c' child more last v); try discriminate;
      injection H as <-; apply own_put_other; exact N.
Qed.

Lemma prepared_stable c props seg more last x :
  prepared c
    (put (prepared c props seg more last) (propertyKey seg) x) seg more last
  = put (prepared c props seg more last) (propertyKey seg) x.
Proof.
  unfold prepared at 1.
  rewrite (has_property_own c _ _ _ (own_put_same _ _ _)). reflexivity.
Qed.

Lemma navigate_last_write lead :
  forall c props last v w props1,
  navigate c props lead last v = Returns props1 ->
  exists props2,
    navigate c props lead last w = Returns props2
    /\ navigate c props1 lead last w = Returns props2.
Proof.
  induction lead as [|seg more IH]; intros c props last v w r1 H.
  - cbn [navigate] in *. pose proof (assign_any_value _ _ _ _ w _ H) as A.
    apply assign_returns in H. subst r1.
    exists (put props (propertyKey last) w). split; [exact A|].
    unfold assign. rewrite own_put_same, put_put. reflexivity.
  - apply navigate_returns in H as (c' & child & child' & O & Nv & ->).
    destruct (IH _ _ _ _ w _ Nv) as (child2 & N1 & N2).
    exists (put (prepared c props seg more last) (propertyKey seg)
              (VObject c' child2)).
    split.
    + rewrite navigate_step. unfold get_property. rewrite O, N1.
      reflexivity.
    + rewrite navigate_step, prepared_stable. unfold get_property.
      rewrite own_put_same, N2, put_put. reflexivity.
Qed.

Lemma navigate_never_empty lead :
  forall c props last v props',
  navigate c props lead last v <> Throws EmptyPath props'.
Proof.
  induction lead as [|seg more IH]; intros c props last v props'.
  - apply assign_never_throws.
  - rewrite navigate_step.
    destruct (get_property c (prepared c props seg more last)
                (propertyKey seg)) as [[| | | | |c' child]| | |];
      try discriminate.
    destruct (navigate c' child more last v) as [ch|e ch|] eqn:Nv;
      try discriminate.
    intros [= -> _]. exact (IH _ _ _ _ _ Nv).
Qed.

(** Without an accessor on the way the call stays within the embedding. *)
Lemma navigate_within lead :
  forall c props last v,
  arrives_at_accessor c props (lead ++ [last]) = false ->
  navigate c props lead last v <> Exotic.
Proof.
  induction lead as [|seg more IH]; intros c props last v H.
  - cbn [app arrives_at_accessor] in H. cbn [navigate]. unfold assign.
    destruct (own props (propertyKey last)); [discriminate|].
    unfold accessor in H.
    destruct (Builtins.lookup c (propertyKey last)) as [[]|];
      discriminate.
  - assert (E : exists next rest, (more ++ [last])%list = next :: rest
                                  /\ hd last more = next).
    { destruct more as [|n r]; [exists last, []|exists n, (r ++ [last])%list];
        split; reflexivity. }
    destruct E as (next & rest & E & Hn).
    change ((seg :: more) ++ [last])%list
      with (seg :: (more ++ [last]))%list in H.
    cbn [arrives_at_accessor] in H. rewrite E in H. rewrite <- E in H.
    rewrite navigate_step. unfold prepared, has_property, get_property.
    destruct (own props (propertyKey seg)) as [x|] eqn:O.
    + rewrite O. destruct x as [| | | | |c' child]; try discriminate.
      pose proof (IH c' child last v H) as NE.
      destruct (navigate c' child more last v); try discriminate.
      contradiction.
    + destruct (Builtins.lookup c (propertyKey seg)) as [[]|] eqn:L;
        try (rewrite O; discriminate); try discriminate H.
      rewrite own_put_same, Hn.
      pose proof (IH (container_class next) [] last v H) as NE.
      destruct next as [key|n]; cbn [fresh container_class] in *.
      * destruct (navigate PlainObject [] more last v); try discriminate.
        contradiction.
      * destruct (navigate ArrayObject [] more last v); try discriminate.
        contradiction.
Qed.

Lemma split_last_app segs lead last :
  split_last segs = Some (lead, last) -> segs = (lead ++ [last])%list.
Proof.
  revert lead last. induction segs as [|x t IH]; intros lead last;
    [discriminate|].
  cbn [split_last]. destruct (split_last t) as [[l la]|] eqn:S.
  - intros [= <- <-]. rewrite (IH _ _ eq_refl). reflexivity.
  - intros [= <- <-]. destruct t as [|y t']; [reflexivity|].
    cbn [split_last] in S. destruct (split_last t') as [[]|]; discriminate.
Qed.

Lemma setPath_within c root path v :
  arrives_at_accessor c root (stringToPathArray path) = false ->
  setPath c root path v <> Exotic.
Proof.
  unfold setPath, setPathSegments. intros H.
  destruct (split_last (stringToPathArray path)) as [[lead last]|] eqn:S;
    [|discriminate].
  rewrite (split_last_app _ _ _ S) in H. apply navigate_within. exact H.
Qed.

End MoreSetPath.

Section MoreSetPathPaths.

Lemma split_last_hd segs lead last :
  split_last segs = Some (lead, last) -> hd_error segs = Some (hd last lead).
Proof.
  destruct segs as [|x t]; [discriminate|]. cbn [split_last hd_error].
  destruct (split_last t) as [[l la]|]; intros [= <- <-]; reflexivity.
Qed.

Lemma split_last_none segs : split_last segs = None -> segs = [].
Proof.
  destruct segs as [|x t]; [reflexivity|]. cbn [split_last].
  destruct (split_last t) as [[l la]|]; discriminate.
Qed.

(** No built-in member has an opening bracket in its name. *)
Lemma lookup_bracketed k :
  contains "[" k = true -> Builtins.lookup PlainObject k = None.
Proof.
  intros H. unfold Builtins.lookup, Builtins.mem, Builtins.Object_prototype.
  cbn [existsb].
  repeat match goal with
         | |- context [String.eqb k ?n] =>
             destruct (String.eqb_spec k n) as [E|_];
             [rewrite E in H; vm_compute in H; discriminate H|]
         end.
  reflexivity.
Qed.

Lemma empty_brackets_path h :
  all_chars key_char h = true ->
  stringToPathArray (h ++ "[]") = [Name (h ++ "[]")].
Proof.
  intros K. unfold stringToPathArray.
  rewrite (broken_brackets_fail (h ++ "[]")).
  - destruct h; reflexivity.
  - apply broken_cases. right. right. left.
    rewrite (empty_pair_key _ _ K). reflexivity.
Qed.

End MoreSetPathPaths.

(** X6.  What [setPath] has written is what is found along the path
    afterwards.  For a path that, followed from the root, does not arrive at
    an accessor of the language ([__proto__], the [length] of an array, a
    getter of a file), the call is within the embedding, and when it
    returns, following the segments of the path through the root reaches
    the value. *)
Theorem written_value_is_read_back
    (c : objclass) (root : properties) (path : string) (v : value) :
  arrives_at_accessor c root (stringToPathArray path) = false ->
  setPath c root path v <> Exotic
  /\ forall root',
       setPath c root path v = Returns root' ->
       read_path c root' (stringToPathArray path) = Some v.
Proof.
  intros Ord. split; [exact (setPath_within _ _ _ _ Ord)|].
  intros root'. unfold setPath, setPathSegments, read_path.
  destruct (split_last (stringToPathArray path)) as [[lead last]|];
    [|discriminate].
  intros H. destruct (navigate_read _ _ _ _ _ _ H) as (c' & cur & W & O).
  rewrite W. exact O.
Qed.

Lemma written_value_is_read_back_witness :
  read_path PlainObject
    [("users", VObject ArrayObject
                 [("0", VObject PlainObject [("name", VString "Alice")])])]
    (stringToPathArray "users[0].name")
  = Some (VString "Alice").
Proof.
  apply (written_value_is_read_back PlainObject [] "users[0].name"
           (VString "Alice")); reflexivity.
Defined.

(** X7.  A call of [setPath] changes no top-level property but the one its
    first segment names, whether it returns or throws. *)
Theorem other_properties_untouched
    (c : objclass) (root : properties) (path : string) (v : value)
    (root' : properties) (first : segment) (k : string) :
  object_after (setPath c root path v) = Some root' ->
  hd_error (stringToPathArray path) = Some first ->
  k <> propertyKey first ->
  own root' k = own root k.
Proof.
  unfold setPath, setPathSegments.
  destruct (split_last (stringToPathArray path)) as [[lead last]|] eqn:S.
  - intros H F N. rewrite (split_last_hd _ _ _ S) in F. injection F as <-.
    exact (navigate_frame _ _ _ _ _ _ H _ N).
  - intros [= <-]. reflexivity.
Qed.

Lemma other_properties_untouched_witness :
  own [("name", VString "John");
       ("address", VObject PlainObject [("city", VString "Anytown")])] "name"
  = own [("name", VString "John")] "name".
Proof.
  apply (other_properties_untouched PlainObject [("name", VString "John")]
           "address.city" (VString "Anytown") _ (Name "address") "name");
    [reflexivity|reflexivity|discriminate].
Defined.

(** X8.  The last write wins.  For a path that, followed from the root,
    does not arrive at an accessor of the language ([__proto__], the
    [length] of an array, a getter of a file), the call is within the
    embedding, and when a first call on the path returns, a second call on
    the same path returns as well and gives the object that the second call
    alone would have given. *)
Theorem last_write_wins
    (c : objclass) (root : properties) (path : string) (v w : value) :
  arrives_at_accessor c root (stringToPathArray path) = false ->
  setPath c root path v <> Exotic
  /\ forall root1,
       setPath c root path v = Returns root1 ->
       exists root2,
         setPath c root path w = Returns root2
         /\ setPath c root1 path w = Returns root2.
Proof.
  intros Ord. split; [exact (setPath_within _ _ _ _ Ord)|].
  intros root1. unfold setPath, setPathSegments.
  destruct (split_last (stringToPathArray path)) as [[lead last]|];
    [|discriminate].
  apply navigate_last_write.
Qed.

Lemma last_write_wins_witness :
  exists root2,
    setPath PlainObject [] "user.name" (VString "Jane") = Returns root2
    /\ setPath PlainObject
         [("user", VObject PlainObject [("name", VString "John")])]
         "user.name" (VString "Jane")
       = Returns root2.
Proof.
  apply (last_write_wins PlainObject [] "user.name" (VString "John"));
    reflexivity.
Defined.

(** X9.  [setPath] throws the empty-path error for the empty path and for
    no other, and then the root is as it was. *)
Theorem empty_path_error
    (c : objclass) (root : properties) (path : string) (v : value)
    (root' : properties) :
  setPath c root path v = Throws EmptyPath root'
  <-> path = "" /\ root' = root.
Proof.
  unfold setPath, setPathSegments. split.
  - destruct (split_last (stringToPathArray path)) as [[lead last]|] eqn:S.
    + intros H. exfalso. exact (navigate_never_empty _ _ _ _ _ _ H).
    + intros [= <-]. split; [|reflexivity].
      apply split_last_none in S.
      unfold stringToPathArray in S. destruct path as [|a t]; [reflexivity|].
      destruct (parsePath (String a t)) as [segs|] eqn:E; [|discriminate].
      subst segs. exfalso. exact (parsePath_cons _ _ _ E eq_refl).
  - intros [-> ->]. reflexivity.
Qed.

(** X10.  Empty brackets after a name are not array syntax: the path falls
    back, and the value is stored in the root under the whole string,
    brackets included; repeated entries for it are gathered under that
    key. *)
Theorem empty_brackets_are_literal (h : string) :
  all_chars key_char h = true ->
  stringToPathArray (h ++ "[]") = [Name (h ++ "[]")]
  /\ (forall acc v,
        setPath PlainObject acc (h ++ "[]") v
        = Returns (put acc (h ++ "[]") v))
  /\ (forall x y,
        formData [] [(h ++ "[]", x); (h ++ "[]", y)]
        = Returns [(h ++ "[]", array_of [x; y])]).
Proof.
  intros K. pose proof (empty_brackets_path _ K) as P.
  assert (B : Builtins.lookup PlainObject (h ++ "[]") = None).
  { apply lookup_bracketed. rewrite contains_app. simpl.
    apply orb_true_r. }
  assert (S : forall acc v,
             setPath PlainObject acc (h ++ "[]") v
             = Returns (put acc (h ++ "[]") v)).
  { intros acc v. unfold setPath, setPathSegments. rewrite P.
    cbn [split_last navigate propertyKey]. unfold assign. rewrite B.
    destruct (own acc (h ++ "[]")); reflexivity. }
  split; [exact P|]. split; [exact S|].
  intros x y. unfold formData, group. cbn [fold_left map_push fst snd].
  rewrite String.eqb_refl. cbn [build collapse app]. rewrite S.
  reflexivity.
Qed.

Lemma empty_brackets_are_literal_witness :
  stringToPathArray ("hobbies" ++ "[]") = [Name ("hobbies" ++ "[]")].
Proof. apply (empty_brackets_are_literal "hobbies"). reflexivity. Defined.

(** X22.  For a segment other than the last whose key the current object
    neither has nor inherits, a container is made and stored under the key
    as the last property of the object: an array exactly when the next
    segment (the last one when no other follows) is an index, an object
    otherwise.  The rest of the call runs in that container, starting from
    the empty one, and its outcome (return, or conflict further down) is
    the outcome of the call.  The segments that follow, followed from the
    new container, do not arrive at an accessor of the language
    ([__proto__], the [length] of an array, a getter of a file), so that
    all of this is within the embedding. *)
Theorem absent_key_gets_container
    (c : objclass) (props : properties) (seg : segment)
    (more : list segment) (last : segment) (v : value) :
  has_property c props (propertyKey seg) = false ->
  arrives_at_accessor (container_class (hd last more)) [] (more ++ [last])
  = false ->
  let next := hd last more in
  (container_class next = ArrayObject <-> exists n, next = Index n)
  /\ (container_class next = PlainObject <-> exists key, next = Name key)
  /\ exists child,
       object_after (navigate (container_class next) [] more last v)
       = Some child
       /\ object_after (navigate c props (seg :: more) last v)
          = Some (props
                  ++ [(propertyKey seg,
                       VObject (container_class next) child)])%list
       /\ (forall child',
             navigate (container_class next) [] more last v = Returns child'
             -> navigate c props (seg :: more) last v
                = Returns
                    (props ++ [(propertyKey seg,
                                VObject (container_class next) child')])%list)
       /\ (forall e child',
             navigate (container_class next) [] more last v = Throws e child'
             -> navigate c props (seg :: more) last v
                = Throws e
                    (props ++ [(propertyKey seg,
                                VObject (container_class next) child')])%list).
Proof.
  intros H Ord next. destruct (has_property_false _ _ _ H) as (O & _).
  split; [|split].
  - destruct next as [key|n]; cbn [container_class]; split; intros X.
    + discriminate X.
    + destruct X as (n & E). discriminate E.
    + exists n. reflexivity.
    + reflexivity.
  - destruct next as [key|n]; cbn [container_class]; split; intros X.
    + exists key. reflexivity.
    + reflexivity.
    + discriminate X.
    + destruct X as (key & E). discriminate E.
  - assert (F : fresh next = VObject (container_class next) [])
      by (destruct next; reflexivity).
    assert (E : navigate c props (seg :: more) last v
                = under props (propertyKey seg) (container_class next)
                    (navigate (container_class next) [] more last v)).
    { rewrite navigate_step. unfold prepared. rewrite H.
      fold next. unfold get_property. rewrite own_put_same, F.
      destruct (navigate (container_class next) [] more last v);
        unfold under; try rewrite put_put; try rewrite (put_absent _ _ _ O);
        reflexivity. }
    pose proof (navigate_within more (container_class next) [] last v Ord)
      as NE.
    rewrite E.
    destruct (navigate (container_class next) [] more last v)
      as [child|e child|]; [| |contradiction].
    + exists child. repeat split; try reflexivity.
      * intros child' [= <-]. reflexivity.
      * intros e child' D. discriminate D.
    + exists child. repeat split; try reflexivity.
      * intros child' D. discriminate D.
      * intros e' child' [= <- <-]. reflexivity.
Qed.

Lemma absent_key_gets_container_witness :
  exists child,
    object_after
      (navigate ArrayObject [] [Index 0] (Name "name") (VString "Alice"))
    = Some child
    /\ object_after
         (navigate PlainObject [] [Name "users"; Index 0] (Name "name")
            (VString "Alice"))
       = Some ([] ++ [("users", VObject ArrayObject child)])%list.
Proof.
  destruct (absent_key_gets_container PlainObject [] (Name "users")
              [Index 0] (Name "name") (VString "Alice") eq_refl eq_refl)
    as (_ & _ & child & A & B & _).
  exists child. split; [exact A|exact B].
Defined.

(** * Further properties of the [formData] transform *)

Section MoreFormData.

Lemma dotted_differs a b : String.eqb a (a ++ "." ++ b) = false.
Proof.
  apply String.eqb_neq. intros E.
  apply (f_equal String.length) in E. rewrite append_length in E.
  simpl in E. lia.
Qed.

Lemma has_dotted acc a b :
  own acc (a ++ "." ++ b) = None ->
  has_property PlainObject acc (a ++ "." ++ b) = false.
Proof.
  intros O. unfold has_property.
  rewrite O, (lookup_dotted _ (contains_dotted a b)). reflexivity.
Qed.

(** [setPath] on a dotted pair of names whose first name holds a
    primitive. *)
Lemma setPath_through_primitive acc a b x v :
  name_key a = true -> name_key b = true -> all_chars any_char b = true ->
  own acc a = Some x -> primitive x = true ->
  setPath PlainObject acc (a ++ "." ++ b) v
  = Throws (StructuralConflict (Name a) (typeof x)) acc.
Proof.
  intros Ha Hb Ab O P. unfold setPath, setPathSegments.
  rewrite (dotted_pair_path _ _ Ha Hb Ab). cbn [split_last].
  exact (navigate_conflict _ _ (Name a) _ _ _ _ O P).
Qed.

(** [setPath] on a dotted pair of names whose first name is missing. *)
Lemma setPath_creates_parent acc a b v :
  top_level_name a = true -> top_level_name b = true ->
  all_chars any_char b = true -> own acc a = None ->
  setPath PlainObject acc (a ++ "." ++ b) v
  = Returns (acc ++ [(a, VObject PlainObject [(b, v)])])%list.
Proof.
  intros Ta Tb Ab O.
  destruct (top_level_inv _ Ta) as (Ha & La).
  destruct (top_level_inv _ Tb) as (Hb & Lb).
  unfold setPath, setPathSegments.
  rewrite (dotted_pair_path _ _ Ha Hb Ab). cbn [split_last].
  rewrite navigate_step. unfold prepared, has_property.
  cbn [propertyKey hd fresh]. rewrite O, La.
  unfold get_property. rewrite own_put_same.
  cbn [navigate propertyKey]. unfold assign. cbn [own Builtins.assoc].
  rewrite Lb. cbn [put]. rewrite put_put, (put_absent _ _ _ O). reflexivity.
Qed.

End MoreFormData.

(** X11.  An entry for a name followed by an entry for a path under that
    name makes the transform throw the conflict error of [setPath]: the
    first entry has stored a primitive where the second needs an object. *)
Theorem entry_under_primitive_throws
    (shapeKeys : list string) (a b : string) (x y : value) :
  top_level_name a = true -> name_key b = true ->
  all_chars any_char b = true -> primitive x = true ->
  formData shapeKeys [(a, x); (a ++ "." ++ b, y)]
  = Throws (StructuralConflict (Name a) (typeof x)) [(a, x)].
Proof.
  intros Ta Hb Ab P. destruct (top_level_inv _ Ta) as (Ha & _).
  unfold formData, group. cbn [fold_left map_push fst snd].
  rewrite dotted_differs. cbn [build collapse app].
  rewrite (setPath_top_level _ _ _ Ta). cbn [put].
  rewrite (setPath_through_primitive [(a, x)] a b x y Ha Hb Ab); auto.
  unfold own. cbn [Builtins.assoc]. rewrite String.eqb_refl. reflexivity.
Qed.

Lemma entry_under_primitive_throws_witness :
  formData ["user"] [("user", VString "Ann"); ("user" ++ "." ++ "name", VString "Bob")]
  = Throws (StructuralConflict (Name "user") (typeof (VString "Ann")))
      [("user", VString "Ann")].
Proof.
  apply (entry_under_primitive_throws ["user"] "user" "name"
           (VString "Ann") (VString "Bob")); reflexivity.
Defined.

(** X12.  In the other order nothing is thrown: an entry for a name that
    comes after an entry for a path under it replaces the object built for
    the path, and the nested value is lost. *)
Theorem later_entry_replaces_nested (a b : string) (x y : value) :
  top_level_name a = true -> top_level_name b = true ->
  all_chars any_char b = true ->
  formData [] [(a ++ "." ++ b, y); (a, x)] = Returns [(a, x)].
Proof.
  intros Ta Tb Ab.
  unfold formData, group. cbn [fold_left map_push fst snd].
  rewrite String.eqb_sym, dotted_differs. cbn [build collapse app].
  rewrite (setPath_creates_parent [] a b y Ta Tb Ab eq_refl).
  cbn [app]. rewrite (setPath_top_level _ _ _ Ta). cbn [put].
  rewrite String.eqb_refl. reflexivity.
Qed.

Lemma later_entry_replaces_nested_witness :
  formData [] [("user" ++ "." ++ "name", VString "Bob"); ("user", VString "Ann")]
  = Returns [("user", VString "Ann")].
Proof.
  apply (later_entry_replaces_nested "user" "name" (VString "Ann")
           (VString "Bob")); reflexivity.
Defined.

(** X13.  A declared key with a dot whose first name the accumulator does
    not have is backfilled as a nested object: the parent is made and holds
    [undefined] under the second name. *)
Theorem backfill_builds_parent (acc : properties) (a b : string) :
  top_level_name a = true -> top_level_name b = true ->
  all_chars any_char b = true ->
  own acc a = None -> own acc (a ++ "." ++ b) = None ->
  backfill acc [a ++ "." ++ b]
  = Returns (acc ++ [(a, VObject PlainObject [(b, VUndefined)])])%list.
Proof.
  intros Ta Tb Ab Oa Od. cbn [backfill].
  rewrite (has_dotted _ _ _ Od).
  rewrite (setPath_creates_parent acc a b VUndefined Ta Tb Ab Oa).
  reflexivity.
Qed.

Lemma backfill_builds_parent_witness :
  backfill [("name", VString "John")] ["address" ++ "." ++ "street"]
  = Returns
      ([("name", VString "John")]
       ++ [("address", VObject PlainObject [("street", VUndefined)])])%list.
Proof.
  apply (backfill_builds_parent [("name", VString "John")] "address" "street");
    reflexivity.
Defined.

(** X14.  A declared key with a dot whose first name holds a primitive in
    the accumulator stops the backfill: the conflict error of [setPath] is
    thrown and the remaining declared keys are not looked at. *)
Theorem backfill_through_primitive_throws
    (acc : properties) (a b : string) (x : value) (others : list string) :
  name_key a = true -> name_key b = true -> all_chars any_char b = true ->
  own acc a = Some x -> primitive x = true ->
  own acc (a ++ "." ++ b) = None ->
  backfill acc ((a ++ "." ++ b) :: others)
  = Throws (StructuralConflict (Name a) (typeof x)) acc.
Proof.
  intros Ha Hb Ab O P Od. cbn [backfill].
  rewrite (has_dotted _ _ _ Od).
  rewrite (setPath_through_primitive acc a b x VUndefined Ha Hb Ab O P).
  reflexivity.
Qed.

Lemma backfill_through_primitive_throws_witness :
  backfill [("address", VString "here")]
    (("address" ++ "." ++ "street") :: ["name"])
  = Throws (StructuralConflict (Name "address") (typeof (VString "here")))
      [("address", VString "here")].
Proof.
  apply (backfill_through_primitive_throws [("address", VString "here")]
           "address" "street" (VString "here") ["name"]); reflexivity.
Defined.

(** * Properties of the field schemas *)

Section ArrayFacts.

#[local] Arguments propertyKey : simpl never.

Lemma Number_key n : (n < 2 ^ 53)%N -> Number (propertyKey (Index n)) = n.
Proof.
  intros S. rewrite (key_small n S), Number_decimal.
  apply round_small, S.
Qed.

Lemma decimal_inj a b :
  (a < 2 ^ 53)%N -> (b < 2 ^ 53)%N ->
  propertyKey (Index a) = propertyKey (Index b) -> a = b.
Proof.
  intros A B E. rewrite <- (Number_key a A), <- (Number_key b B), E.
  reflexivity.
Qed.

Lemma is_index_decimal n :
  (n < 4294967295)%N -> is_index (propertyKey (Index n)) = true.
Proof.
  intros L. assert (S : (n < 2 ^ 53)%N) by lia. unfold is_index.
  rewrite (Number_key n S), String.eqb_refl, (key_small n S), decimal_numeric.
  simpl. apply N.ltb_lt. exact L.
Qed.

Lemma array_length_elements l :
  forall i, (i + N.of_nat (List.length l) <= 4294967295)%N ->
  array_length (elements i l)
  = match l with
    | [] => 0%N
    | _ :: _ => (i + N.of_nat (List.length l))%N
    end.
Proof.
  induction l as [|v t IH]; intros i L; [reflexivity|].
  cbn [elements array_length]. cbn [List.length] in L.
  rewrite is_index_decimal, Number_key by lia.
  rewrite IH by (cbn [List.length]; lia).
  destruct t as [|w t']; cbn [List.length]; lia.
Qed.

Lemma own_elements l :
  forall i j, (i + N.of_nat j < 2 ^ 53)%N ->
  own (elements i l) (propertyKey (Index (i + N.of_nat j))) = nth_error l j.
Proof.
  unfold own. induction l as [|v t IH]; intros i j B.
  - destruct j; reflexivity.
  - cbn [elements Builtins.assoc]. destruct j as [|j].
    + rewrite N.add_0_r, String.eqb_refl. reflexivity.
    + destruct (String.eqb_spec (propertyKey (Index i))
                  (propertyKey (Index (i + N.of_nat (S j))))) as [E|_].
      * apply decimal_inj in E; lia.
      * replace (i + N.of_nat (S j))%N with (N.succ i + N.of_nat j)%N by lia.
        apply IH. lia.
Qed.

Lemma array_items_elements l :
  (N.of_nat (List.length l) <= 4294967295)%N -> array_items (elements 0 l) = l.
Proof.
  intros L. unfold array_items.
  rewrite (array_length_elements l 0) by lia.
  replace (N.to_nat match l with [] => 0 | _ :: _ => 0 + N.of_nat (List.length l) end)
    with (List.length l) by (destruct l; cbn [List.length]; lia).
  apply (nth_ext _ _ VUndefined VUndefined).
  - rewrite List.length_map, List.length_seq. reflexivity.
  - intros n Hn. rewrite List.length_map, List.length_seq in Hn.
    rewrite (nth_indep _ _ (element (elements 0 l) 0))
      by (rewrite List.length_map, List.length_seq; exact Hn).
    rewrite map_nth, seq_nth by exact Hn. unfold element.
    change (N.of_nat (0 + n)) with (0 + N.of_nat n)%N.
    rewrite own_elements by lia.
    destruct (nth_error l n) as [v|] eqn:E.
    + symmetry. apply nth_error_nth. exact E.
    + apply nth_error_None in E. lia.
Qed.

End ArrayFacts.

Section SchemaFacts.

Lemma to_array_entry v :
  match v with
  | VString _ | VObject (FileObject _) _ => True
  | _ => False
  end ->
  to_array v = array_of [v].
Proof.
  destruct v as [| | | | |c props]; try contradiction; try reflexivity.
  destruct c; try contradiction. reflexivity.
Qed.

Lemma pipe_last (item : Valibot.schema) input :
  match item input with
  | Some output => Some output
  | None => None
  end = item input.
Proof. destruct (item input); reflexivity. Qed.

End SchemaFacts.

(** X15.  [text] hands the empty string and [undefined] to its schema as
    [undefined], a string that is not empty as it is, and finds an issue in
    every other input before the schema sees it. *)
Theorem text_accepts
    (schema : option Valibot.schema) (input output : value) :
  text schema input = Some output <->
  ((input = VUndefined \/ input = VString "")
   /\ or_default schema Valibot.string VUndefined = Some output)
  \/ (exists s, input = VString s /\ s <> ""
      /\ or_default schema Valibot.string input = Some output).
Proof.
  unfold text, emptyToUndefined. cbn [Valibot.pipe Valibot.union].
  destruct input as [| |b|n|s|c props]; cbn; rewrite ?pipe_last;
    try (split; [discriminate|];
         intros [[[E|E] _]|(s & E & _)]; discriminate E).
  - destruct (or_default schema Valibot.string VUndefined) as [w|];
      (split; [intros E; left; split; [left; reflexivity|exact E]|]).
    + intros [[_ E]|(s & E & _)]; [exact E|discriminate E].
    + intros [[_ E]|(s & E & _)]; [exact E|discriminate E].
  - destruct (String.eqb_spec s "") as [->|N]; cbn; rewrite ?pipe_last.
    + split.
      * intros E. left. split; [right; reflexivity|exact E].
      * intros [[_ E]|(s & E & N & _)]; [exact E|].
        injection E as <-. contradiction N. reflexivity.
    + split.
      * intros E. right. exists s. repeat split; assumption.
      * intros [[[E|E] _]|(t & E & _ & R)]; try discriminate E.
        -- injection E as ->. contradiction N. reflexivity.
        -- exact R.
Qed.

(** X16.  [checkbox] gives [true] for the string that stands for the checked
    box (["on"] when none is given) and [false] for [undefined]; every
    other input, the empty string too, is an issue.  The output is always a
    boolean. *)
Theorem checkbox_is_boolean
    (trueValue : option string) (input output : value) :
  checkbox trueValue input = Some output <->
  (input = VString (match trueValue with Some given => given | None => "on" end)
   /\ output = VBoolean true)
  \/ (input = VUndefined /\ output = VBoolean false).
Proof.
  unfold checkbox. cbv zeta.
  set (tv := match trueValue with Some given => given | None => "on" end).
  cbn [Valibot.pipe Valibot.union].
  destruct input as [| |b|n|s|c props]; cbn; rewrite ?pipe_last;
    try (split; [discriminate|];
         intros [[E _]|[E _]]; discriminate E).
  - split.
    + intros E. injection E as <-. right. split; reflexivity.
    + intros [[E _]|[_ ->]]; [discriminate E|reflexivity].
  - destruct (String.eqb_spec s tv) as [->|N]; cbn.
    + split.
      * intros E. injection E as <-. left. split; reflexivity.
      * intros [[_ ->]|[E _]]; [reflexivity|discriminate E].
    + split; [discriminate|].
      intros [[E _]|[E _]]; [|discriminate E].
      injection E as ->. contradiction N. reflexivity.
Qed.

(** X17.  [file] hands [undefined] and a file of size 0 to its schema as
    [undefined], a file that is not empty as it is, and finds an issue in
    every input that is neither a file nor [undefined]. *)
Theorem file_accepts (size : nat -> N)
    (schema : option Valibot.schema) (input output : value) :
  file size schema input = Some output <->
  ((input = VUndefined
    \/ exists handle props,
         input = VObject (FileObject handle) props /\ size handle = 0%N)
   /\ or_default schema Valibot.instance_File VUndefined = Some output)
  \/ (exists handle props,
        input = VObject (FileObject handle) props /\ size handle <> 0%N
        /\ or_default schema Valibot.instance_File input = Some output).
Proof.
  unfold file, emptyFileToUndefined. cbn [Valibot.pipe Valibot.union].
  destruct input as [| |b|n|s|c props]; cbn; rewrite ?pipe_last;
    try (split; [discriminate|];
         intros [[[E|(h & p & E & _)] _]|(h & p & E & _)]; discriminate E).
  - split.
    + intros E. left. split; [left; reflexivity|exact E].
    + intros [[_ E]|(h & p & E & _)]; [exact E|discriminate E].
  - destruct c as [| |handle]; cbn; rewrite ?pipe_last;
      try (split; [discriminate|];
           intros [[[E|(h & p & E & _)] _]|(h & p & E & _)]; discriminate E).
    unfold Valibot.check.
    destruct (N.eqb_spec (size handle) 0) as [Z|N]; cbn; rewrite ?pipe_last.
    + split.
      * intros E. left. split; [right; exists handle, props; auto|exact E].
      * intros [[_ E]|(h & p & E & N & _)]; [exact E|].
        injection E as <- <-. contradiction.
    + split.
      * intros E. right. exists handle, props. auto.
      * intros [[[E|(h & p & E & Z)] _]|(h & p & E & _ & R)].
        -- discriminate E.
        -- injection E as <- <-. contradiction.
        -- exact R.
Qed.

Section RepeatableFacts.

Lemma to_array_collapse l :
  l <> [] -> forallb entry_value l = true ->
  to_array (collapse l) = array_of l.
Proof.
  intros N F. destruct l as [|v [|w t]]; [contradiction| |reflexivity].
  cbn [collapse]. cbn in F. rewrite andb_true_r in F.
  apply to_array_entry.
  destruct v as [| | | | |c props]; try discriminate F; try exact I.
  destruct c; try discriminate F. exact I.
Qed.

Lemma array_of_array item l :
  (N.of_nat (List.length l) <= 4294967295)%N ->
  Valibot.array item (array_of l)
  = option_map array_of (Valibot.each item l).
Proof.
  intros L. unfold Valibot.array, array_of.
  rewrite (array_items_elements l L).
  destruct (Valibot.each item l); reflexivity.
Qed.

Lemma text_filled v :
  text None v = if filled v then Some v else None.
Proof.
  destruct v as [| |b|n|s|c props]; try reflexivity.
  cbn. destruct (String.eqb s ""); reflexivity.
Qed.

Lemma each_text l :
  Valibot.each (text None) l
  = if forallb filled l then Some l else None.
Proof.
  induction l as [|v t IH]; [reflexivity|].
  cbn [Valibot.each forallb]. rewrite text_filled, IH.
  destruct (filled v), (forallb filled t); reflexivity.
Qed.

End RepeatableFacts.

(** X18.  [repeatable] undoes the collapsing of [formData]: for the values
    of one key, strings and files, its schema is given the array of all of
    them, whether [formData] stored one value as it is or several as an
    array. *)
Theorem repeatable_undoes_collapse
    (schema : Valibot.schema) (l : list value) :
  l <> [] -> forallb entry_value l = true ->
  repeatable (Some schema) (collapse l) = schema (array_of l).
Proof.
  intros N F. unfold repeatable.
  cbn [Valibot.pipe or_default]. unfold Valibot.unknown, Valibot.transform.
  rewrite (to_array_collapse l N F). apply pipe_last.
Qed.

Lemma repeatable_undoes_collapse_witness :
  repeatable (Some Valibot.unknown) (collapse [VString "a"])
  = Valibot.unknown (array_of [VString "a"])
  /\ repeatable (Some Valibot.unknown) (collapse [VString "a"; VString "b"])
     = Valibot.unknown (array_of [VString "a"; VString "b"]).
Proof.
  split.
  - apply (repeatable_undoes_collapse Valibot.unknown [VString "a"]);
      [discriminate|reflexivity].
  - apply (repeatable_undoes_collapse Valibot.unknown
             [VString "a"; VString "b"]); [discriminate|reflexivity].
Defined.

(** X19.  [repeatableOfType] on what [formData] stored for the values of one
    key gives the array of the outputs of the item schema, value by value
    in the order of the entries, and finds an issue as soon as the item
    schema finds one in a value. *)
Theorem repeatableOfType_each
    (itemSchema : Valibot.schema) (l : list value) :
  l <> [] -> forallb entry_value l = true ->
  (N.of_nat (List.length l) <= 4294967295)%N ->
  repeatableOfType itemSchema (collapse l)
  = option_map array_of (Valibot.each itemSchema l).
Proof.
  intros N F L. unfold repeatableOfType, repeatable.
  cbn [Valibot.pipe or_default]. unfold Valibot.unknown, Valibot.transform.
  rewrite (to_array_collapse l N F), pipe_last.
  apply array_of_array. exact L.
Qed.

Lemma repeatableOfType_each_witness :
  repeatableOfType (checkbox None) (collapse [VString "on"; VString "on"])
  = option_map array_of
      (Valibot.each (checkbox None) [VString "on"; VString "on"]).
Proof.
  apply (repeatableOfType_each (checkbox None) [VString "on"; VString "on"]);
    [discriminate|reflexivity|vm_compute; discriminate].
Defined.

(** X20.  [repeatable] without a schema accepts an array exactly when each
    of its elements is a string that is not empty, and returns those
    elements; one empty string or one element that is no string makes the
    whole array an issue. *)
Theorem repeatable_default_texts (l : list value) :
  (N.of_nat (List.length l) <= 4294967295)%N ->
  repeatable None (array_of l)
  = if forallb filled l then Some (array_of l) else None.
Proof.
  intros L. unfold repeatable.
  cbn [Valibot.pipe or_default]. unfold Valibot.unknown, Valibot.transform.
  change (to_array (array_of l)) with (array_of l).
  rewrite pipe_last, (array_of_array _ l L), each_text.
  destruct (forallb filled l); reflexivity.
Qed.

Lemma repeatable_default_texts_witness :
  repeatable None (array_of [VString "valid"; VString ""]) = None.
Proof.
  apply (repeatable_default_texts [VString "valid"; VString ""]).
  vm_compute. discriminate.
Defined.

Section SparseArrays.

#[local] Arguments propertyKey : simpl never.

Lemma lookup_numeric k :
  test NUMERIC_KEY_REGEX k = true -> Builtins.lookup ArrayObject k = None.
Proof.
  intros H.
  unfold Builtins.lookup, Builtins.mem, Builtins.Object_prototype,
    Builtins.Array_prototype.
  cbn [existsb].
  repeat match goal with
         | |- context [String.eqb k ?n] =>
             destruct (String.eqb_spec k n) as [E|_];
             [rewrite E in H; vm_compute in H; discriminate H|]
         end.
  reflexivity.
Qed.

(** No built-in member has a name that starts with a digit, and none is
    called [Infinity]. *)
Lemma lookup_digit_head c t :
  is_digit c = true -> Builtins.lookup ArrayObject (String c t) = None.
Proof.
  intros H.
  unfold Builtins.lookup, Builtins.mem, Builtins.Object_prototype,
    Builtins.Array_prototype.
  cbn [existsb].
  repeat match goal with
         | |- context [String.eqb (String c t) ?n] =>
             destruct (String.eqb_spec (String c t) n) as [E|_];
             [injection E as E _; rewrite E in H; vm_compute in H;
              discriminate H|]
         end.
  reflexivity.
Qed.

Lemma lookup_index n :
  Double.round n = n ->
  Builtins.lookup ArrayObject (propertyKey (Index n)) = None.
Proof.
  intros R. destruct (key_head n R) as [-> |(c & t & -> & D)].
  - reflexivity.
  - exact (lookup_digit_head c t D).
Qed.

Lemma is_index_bound n :
  Double.round n = n ->
  is_index (propertyKey (Index n)) = (n <? 4294967295)%N.
Proof.
  intros R. unfold is_index.
  assert (I : (4294967295 < Double.infinity)%N)
    by (apply N.ltb_lt; vm_compute; reflexivity).
  destruct (toString_cases n R) as [[E G]|[(y & E & Ry & _)|(y & E & G)]];
    change (Double.toString n) with (propertyKey (Index n)) in E;
    rewrite E.
  - assert (T : test NUMERIC_KEY_REGEX "Infinity" = false)
      by (vm_compute; reflexivity).
    rewrite T. symmetry. apply N.ltb_ge. lia.
  - rewrite decimal_numeric, Number_decimal, Ry, E, String.eqb_refl.
    reflexivity.
  - rewrite exponent_not_numeric. symmetry. apply N.ltb_ge. lia.
Qed.

Lemma element_other n v i :
  (n < 2 ^ 53)%N -> (N.of_nat i < 2 ^ 53)%N -> N.of_nat i <> n ->
  element [(propertyKey (Index n), v)] i = VUndefined.
Proof.
  intros Sn Si D. unfold element, own. cbn [Builtins.assoc].
  destruct (String.eqb_spec (propertyKey (Index n))
              (propertyKey (Index (N.of_nat i)))) as [E|_]; [|reflexivity].
  apply decimal_inj in E; congruence.
Qed.

Lemma element_same n v :
  element [(propertyKey (Index n), v)] (N.to_nat n) = v.
Proof.
  unfold element, own. cbn [Builtins.assoc].
  rewrite N2Nat.id, String.eqb_refl. reflexivity.
Qed.

Lemma single_element_items n v :
  Double.round n = n ->
  array_items [(propertyKey (Index n), v)]
  = if (n <? 4294967295)%N
    then (repeat VUndefined (N.to_nat n) ++ [v])%list
    else [].
Proof.
  intros R. unfold array_items. cbn [array_length].
  rewrite (is_index_bound n R).
  destruct (n <? 4294967295)%N eqn:B; [|reflexivity].
  apply N.ltb_lt in B. assert (S : (n < 2 ^ 53)%N) by lia.
  rewrite (Number_key n S), N.max_0_r, N2Nat.inj_succ, seq_S, map_app.
  cbn [map Nat.add]. rewrite element_same. f_equal.
  transitivity (map (fun _ : nat => VUndefined) (seq 0 (N.to_nat n))).
  - apply map_ext_in.
    intros i Hi. apply in_seq in Hi. apply element_other; lia.
  - rewrite map_const, List.length_seq. reflexivity.
Qed.

Lemma setPath_creates_array a d v :
  top_level_name a = true -> test NUMERIC_KEY_REGEX d = true ->
  setPath PlainObject [] (a ++ "." ++ d) v
  = Returns
      [(a, VObject ArrayObject [(propertyKey (Index (Number d)), v)])].
Proof.
  intros Ta Hd. destruct (top_level_inv _ Ta) as (Ha & La).
  unfold setPath, setPathSegments.
  rewrite (dotted_index_path _ _ Ha Hd). cbn [split_last].
  rewrite navigate_step. unfold prepared, has_property.
  cbn [hd fresh own Builtins.assoc].
  change (propertyKey (Name a)) with a. rewrite La.
  unfold get_property. cbn [put own Builtins.assoc].
  rewrite String.eqb_refl.
  cbn [navigate]. unfold assign. cbn [own Builtins.assoc].
  rewrite (lookup_index _ (Number_round d)).
  reflexivity.
Qed.

Lemma repeatable_default_items props :
  repeatable None (VObject ArrayObject props)
  = if forallb filled (array_items props)
    then Some (array_of (array_items props))
    else None.
Proof.
  unfold repeatable.
  cbn [Valibot.pipe or_default]. unfold Valibot.unknown, Valibot.transform.
  cbn [to_array]. rewrite pipe_last. unfold Valibot.array.
  rewrite each_text.
  destruct (forallb filled (array_items props)); reflexivity.
Qed.

Lemma holes_filled m v :
  forallb filled (repeat VUndefined m ++ [v])
  = Nat.eqb m 0 && filled v.
Proof.
  destruct m as [|m]; cbn; [apply andb_true_r|reflexivity].
Qed.

End SparseArrays.

(** X21.  One entry for a name followed by an index makes that name an
    array that holds the value at the index and a hole, read as
    [undefined], at every index before it; an index of 2^32 - 1 or more is
    a property of the array and no element.  So [repeatable] without a
    schema, whose items must be strings that are not empty, finds an issue
    in that array when the index is not 0, and returns the empty array,
    without the value, when the index is 2^32 - 1 or more. *)
Theorem indexed_entry_leaves_holes (a d : string) (v : value) :
  top_level_name a = true -> test NUMERIC_KEY_REGEX d = true ->
  exists props,
    formData [] [(a ++ "." ++ d, v)] = Returns [(a, VObject ArrayObject props)]
    /\ array_items props
       = (if (Number d <? 4294967295)%N
          then (repeat VUndefined (N.to_nat (Number d)) ++ [v])%list
          else [])
    /\ repeatable None (VObject ArrayObject props)
       = (if (Number d <? 4294967295)%N
          then if (Number d =? 0)%N && filled v
               then Some (array_of [v])
               else None
          else Some (array_of [])).
Proof.
  intros Ta Hd. exists [(propertyKey (Index (Number d)), v)]. split; [|split].
  - unfold formData, group. cbn [fold_left map_push fst snd build collapse].
    rewrite (setPath_creates_array a d v Ta Hd). reflexivity.
  - apply single_element_items, Number_round.
  - rewrite repeatable_default_items,
      (single_element_items _ _ (Number_round d)).
    destruct (Number d <? 4294967295)%N; [|reflexivity].
    rewrite holes_filled.
    destruct (N.eqb_spec (Number d) 0) as [Z|N].
    + rewrite Z. cbn. destruct (filled v); reflexivity.
    + replace (Nat.eqb (N.to_nat (Number d)) 0) with false; [reflexivity|].
      symmetry. apply Nat.eqb_neq. lia.
Qed.

Lemma indexed_entry_leaves_holes_witness :
  exists props,
    formData [] [("items.3", VString "fourth")]
    = Returns [("items", VObject ArrayObject props)]
    /\ array_items props
       = [VUndefined; VUndefined; VUndefined; VString "fourth"]
    /\ repeatable None (VObject ArrayObject props) = None.
Proof.
  apply (indexed_entry_leaves_holes "items" "3" (VString "fourth"));
    reflexivity.
Defined.

(** * Agreement with the tests of the field schemas *)

Section SchemaTests.

(** A file with content and an empty file. *)
Let hello : value := VObject (FileObject 0) [].
Let emptyFile : value := VObject (FileObject 1) [].
Let size (handle : nat) : N := if Nat.eqb handle 0 then 6%N else 0%N.

Example test_text :
  text None (VString "text") = Some (VString "text")
  /\ text None (VString "") = None
  /\ text None VUndefined = None.
Proof. repeat split. Qed.

Example test_checkbox :
  checkbox None (VString "on") = Some (VBoolean true)
  /\ checkbox None VUndefined = Some (VBoolean false)
  /\ checkbox (Some "yes") (VString "yes") = Some (VBoolean true)
  /\ checkbox (Some "yes") VUndefined = Some (VBoolean false)
  /\ checkbox None (VString "off") = None
  /\ checkbox None (VString "false") = None
  /\ checkbox None (VString "") = None
  /\ checkbox (Some "yes") (VString "on") = None
  /\ checkbox (Some "yes") (VString "no") = None.
Proof. repeat split. Qed.

Example test_file :
  file size None hello = Some hello
  /\ file size None emptyFile = None
  /\ file size None (VString "not-a-file") = None
  /\ file size None VUndefined = None
  /\ file size None VNull = None.
Proof. repeat split. Qed.

Example test_repeatable :
  repeatable None (VString "one") = Some (array_of [VString "one"])
  /\ repeatable None (array_of [VString "one"; VString "two"])
     = Some (array_of [VString "one"; VString "two"])
  /\ repeatable None VUndefined = Some (array_of [])
  /\ repeatable None (array_of [VString "valid"; VString ""]) = None
  /\ repeatable None (array_of [VString "valid"; VString "also-valid"])
     = Some (array_of [VString "valid"; VString "also-valid"]).
Proof. repeat split. Qed.

Example test_repeatableOfType :
  repeatableOfType (text None) (VString "test@example.com")
  = Some (array_of [VString "test@example.com"])
  /\ repeatableOfType (text None) VUndefined = Some (array_of []).
Proof. repeat split. Qed.

End SchemaTests.
